(** * DireitoNews: the feed ingestion pipeline of [scraper.py]

    A shallow embedding of the planning loop, the per-item executor and the
    watermark update of [scraper.py] ([__main__]), of the image resolver
    ([extract_image]) and of the date normaliser of [date_utils.py].

    Python values are embedded as follows.
    - [str] is a sequence of Unicode code points ([list N]); a string is
      falsy exactly when it is empty, and [None] is [option]'s [None].
    - a timezone-aware [datetime] is compared through the instant it denotes,
      a number of microseconds since the epoch ([Z]).
    - the Supabase client is the only shared mutable object: it becomes an
      explicit [world] threaded through every call, and what the remote side
      decides (a call raising, an insert returning no row, the thumbnail that
      comes back) is read from an [oracle], indexed by the number of calls
      made so far. *)

From Stdlib Require Import String Ascii List ZArith NArith PArith Bool Arith Lia.
From Stdlib Require Import Permutation Sorted.
Import ListNotations.

Set Implicit Arguments.

(** ** Python strings *)

Definition str := list N.

(** [py "text"] is the Python literal ['text'] (ASCII only). *)
Definition py (s : string) : str :=
  map N_of_ascii (list_ascii_of_string s).

Fixpoint str_eqb (a b : str) : bool :=
  match a, b with
  | [], [] => true
  | x :: a', y :: b' => N.eqb x y && str_eqb a' b'
  | _, _ => false
  end.

(** Truthiness of an optional string: [None] and [''] are falsy. *)
Definition truthy (s : option str) : bool :=
  match s with
  | Some (_ :: _) => true
  | _ => false
  end.

(** A call returns or raises. *)
Inductive outcome (A : Type) :=
| Ret (a : A)
| Exc.
Arguments Exc {A}.

(** An instant: microseconds since 1970-01-01T00:00:00Z. *)
Definition instant := Z.

(** ** Character tables

    The tables below are those of CPython's [str] and [re] on U+0000..U+00FF
    (the range of Portuguese text) and on the code points NFKD maps that
    range to; the case-insensitive classes of the ASCII letters are complete. *)

Definition between (lo hi c : N) : bool := ((lo <=? c) && (c <=? hi))%N.

Definition is_ascii_lower (c : N) : bool := between 97 122 c.
Definition is_ascii_upper (c : N) : bool := between 65 90 c.
Definition is_ascii_digit (c : N) : bool := between 48 57 c.

(** [str.isspace], which is also the regular expression class [\s]. *)
Definition isspace (c : N) : bool :=
  between 9 13 c || between 28 32 c || (c =? 133)%N || (c =? 160)%N.

(** [str.isdigit]. *)
Definition isdigit (c : N) : bool :=
  is_ascii_digit c || (c =? 178)%N || (c =? 179)%N || (c =? 185)%N.

(** The regular expression class [\w] of a [str] pattern. *)
Definition is_word (c : N) : bool :=
  is_ascii_digit c || is_ascii_upper c || is_ascii_lower c || (c =? 95)%N
  || (c =? 170)%N || (c =? 178)%N || (c =? 179)%N || (c =? 181)%N
  || (c =? 185)%N || (c =? 186)%N || between 188 190 c
  || between 192 214 c || between 216 246 c || between 248 255 c
  || (c =? 304)%N || (c =? 305)%N || (c =? 383)%N || (c =? 956)%N.

Definition lower_char (c : N) : N :=
  if is_ascii_upper c || (between 192 222 c && negb (c =? 215)%N)
  then (c + 32)%N else c.

(** [str.lower] *)
Definition lower (s : str) : str := map lower_char s.

Definition upper_char (c : N) : list N :=
  if is_ascii_lower c || (between 224 254 c && negb (c =? 247)%N) then [(c - 32)%N]
  else if (c =? 223)%N then [83; 83]%N
  else if (c =? 181)%N then [924%N]
  else if (c =? 255)%N then [376%N]
  else [c].

(** [str.upper] *)
Definition upper (s : str) : str := flat_map upper_char s.

Arguments is_word : simpl never.
Arguments lower_char : simpl never.

(** What [re.IGNORECASE] lets a lower-case pattern letter [k] match. *)
Definition ci_eq (k c : N) : bool :=
  (lower_char c =? k)%N
  || ((k =? 115)%N && (c =? 383)%N)
  || ((k =? 105)%N && ((c =? 304)%N || (c =? 305)%N)).

Arguments ci_eq : simpl never.

(** [unicodedata.normalize('NFKD', c)] for the code points it changes. *)
Definition nfkd_table : list (N * list N) :=
  [(160, [32]); (168, [32; 776]); (170, [97]); (175, [32; 772]); (178, [50]);
   (179, [51]); (180, [32; 769]); (181, [956]); (184, [32; 807]);
   (185, [49]); (186, [111]); (188, [49; 8260; 52]); (189, [49; 8260; 50]);
   (190, [51; 8260; 52]); (192, [65; 768]); (193, [65; 769]);
   (194, [65; 770]); (195, [65; 771]); (196, [65; 776]); (197, [65; 778]);
   (199, [67; 807]); (200, [69; 768]); (201, [69; 769]); (202, [69; 770]);
   (203, [69; 776]); (204, [73; 768]); (205, [73; 769]); (206, [73; 770]);
   (207, [73; 776]); (209, [78; 771]); (210, [79; 768]); (211, [79; 769]);
   (212, [79; 770]); (213, [79; 771]); (214, [79; 776]); (217, [85; 768]);
   (218, [85; 769]); (219, [85; 770]); (220, [85; 776]); (221, [89; 769]);
   (224, [97; 768]); (225, [97; 769]); (226, [97; 770]); (227, [97; 771]);
   (228, [97; 776]); (229, [97; 778]); (231, [99; 807]); (232, [101; 768]);
   (233, [101; 769]); (234, [101; 770]); (235, [101; 776]);
   (236, [105; 768]); (237, [105; 769]); (238, [105; 770]);
   (239, [105; 776]); (241, [110; 771]); (242, [111; 768]);
   (243, [111; 769]); (244, [111; 770]); (245, [111; 771]);
   (246, [111; 776]); (249, [117; 768]); (250, [117; 769]);
   (251, [117; 770]); (252, [117; 776]); (253, [121; 769]);
   (255, [121; 776])]%N.

Fixpoint assoc {A : Type} (k : N) (t : list (N * A)) : option A :=
  match t with
  | [] => None
  | (k', v) :: t' => if (k' =? k)%N then Some v else assoc k t'
  end.

Definition nfkd_char (c : N) : list N :=
  match assoc c nfkd_table with
  | Some d => d
  | None => [c]
  end.

(** [unicodedata.combining(c) != 0]: the combining diacritical marks. *)
Definition combining (c : N) : bool := between 768 879 c.

(** ** [date_utils.py] *)

(** [PT_TO_EN_MONTH], in the order the dict literal lists its keys. *)
Definition PT_TO_EN_MONTH : list (str * str) :=
  [ (py "jan", py "Jan"); (py "janeiro", py "Jan");
    (py "fev", py "Feb"); (py "fevereiro", py "Feb");
    (py "mar", py "Mar"); (py "marco", py "Mar");
    (py "mar" ++ [231%N] ++ py "o", py "Mar");
    (py "abr", py "Apr"); (py "abril", py "Apr");
    (py "mai", py "May"); (py "maio", py "May");
    (py "jun", py "Jun"); (py "junho", py "Jun");
    (py "jul", py "Jul"); (py "julho", py "Jul");
    (py "ago", py "Aug"); (py "agosto", py "Aug");
    (py "set", py "Sep"); (py "setembro", py "Sep");
    (py "out", py "Oct"); (py "outubro", py "Oct");
    (py "nov", py "Nov"); (py "novembro", py "Nov");
    (py "dez", py "Dec"); (py "dezembro", py "Dec") ].

(** [PT_TO_EN_MONTH.get(key, default)] *)
Fixpoint dict_get (d : list (str * str)) (key default : str) : str :=
  match d with
  | [] => default
  | (k, v) :: d' => if str_eqb k key then v else dict_get d' key default
  end.

(** [_strip_accents] *)
Definition _strip_accents (s : str) : str :=
  filter (fun c => negb (combining c)) (flat_map nfkd_char s).

Fixpoint lstrip (s : str) : str :=
  match s with
  | c :: r => if isspace c then lstrip r else s
  | [] => []
  end.

(** [str.strip()] *)
Definition strip (s : str) : str := rev (lstrip (rev (lstrip s))).

(** The longest prefix of at most [n] characters that satisfy [p], and the
    rest: a greedy bounded repetition. *)
Fixpoint span_upto (p : N -> bool) (n : nat) (s : str) : str * str :=
  match n, s with
  | S n', c :: r =>
      if p c then let '(a, b) := span_upto p n' r in (c :: a, b) else ([], s)
  | _, _ => ([], s)
  end.

(** [re.sub(r'^[a-z]{2,9},?\s*', '', s0)]: the pattern can only match at the
    start, and once its letters are taken nothing after them can fail. *)
Definition strip_weekday (s0 : str) : str :=
  let '(letters, rest) := span_upto is_ascii_lower 9 s0 in
  if (2 <=? List.length letters)%nat then
    lstrip (match rest with
            | 44%N :: r => r
            | _ => rest
            end)
  else s0.

(** [sorted(keys, key=len, reverse=True)]: a stable sort, longest first. *)
Fixpoint insert_by_len (x : str) (l : list str) : list str :=
  match l with
  | [] => [x]
  | y :: r =>
      if (List.length x <=? List.length y)%nat then y :: insert_by_len x r
      else x :: l
  end.

Definition sorted_by_len (l : list str) : list str :=
  fold_left (fun acc x => insert_by_len x acc) l [].

(** The alternatives of [months_pattern], in the order the regex tries them. *)
Definition months_alternatives : list str :=
  sorted_by_len (map fst PT_TO_EN_MONTH).

(** Does [s] start with [key], ignoring case? Returns the text matched and
    what follows it. *)
Fixpoint ci_prefix (key s : str) : option (str * str) :=
  match key, s with
  | [], _ => Some ([], s)
  | k :: key', c :: s' =>
      if ci_eq k c then
        match ci_prefix key' s' with
        | Some (m, rest) => Some (c :: m, rest)
        | None => None
        end
      else None
  | _ :: _, [] => None
  end.

Definition word_opt (c : option N) : bool :=
  match c with
  | Some c => is_word c
  | None => false
  end.

(** [\b] between the character before ([None] at either end of the text)
    and the character after. *)
Definition boundary (before after : option N) : bool :=
  xorb (word_opt before) (word_opt after).

Definition last_opt (s : str) : option N :=
  match rev s with
  | c :: _ => Some c
  | [] => None
  end.

(** The first alternative that matches at the start of [s] and ends on a
    word boundary. *)
Fixpoint first_alternative (alts : list str) (s : str) : option (str * str) :=
  match alts with
  | [] => None
  | k :: alts' =>
      match ci_prefix k s with
      | Some (m, rest) =>
          if boundary (last_opt m) (hd_error rest) then Some (m, rest)
          else first_alternative alts' s
      | None => first_alternative alts' s
      end
  end.

(** A match of [months_pattern] at this position, [prev] being the
    character before it. *)
Definition match_months_at (prev : option N) (s : str) : option (str * str) :=
  if boundary prev (hd_error s) then first_alternative months_alternatives s
  else None.

(** [repl]: the matched text is looked up as it stands. *)
Definition repl (m : str) : str := dict_get PT_TO_EN_MONTH m m.

(** [re.sub(months_pattern, repl, s0, flags=re.IGNORECASE)], scanning from
    the left; after a match the scan resumes behind it ([skip] counts the
    characters of the match still to be passed over). *)
Fixpoint sub_months_from (prev : option N) (skip : nat) (s : str) : str :=
  match s with
  | [] => []
  | c :: r =>
      match skip with
      | S k => sub_months_from (Some c) k r
      | O =>
          match match_months_at prev s with
          | Some (m, _) => repl m ++ sub_months_from (Some c) (List.length m - 1) r
          | None => c :: sub_months_from (Some c) 0 r
          end
      end
  end.

Definition sub_months (s0 : str) : str := sub_months_from None 0 s0.

(** [pt_to_en_date_string] *)
Definition pt_to_en_date_string (s : str) : str :=
  match s with
  | [] => s
  | _ => sub_months (strip_weekday (lower (_strip_accents (strip s))))
  end.

(** *** [email.utils.parsedate_to_datetime] (CPython, [email/_parseaddr.py]) *)

Definition _monthnames : list str :=
  map py ["jan"; "feb"; "mar"; "apr"; "may"; "jun"; "jul"; "aug"; "sep";
          "oct"; "nov"; "dec"; "january"; "february"; "march"; "april";
          "may"; "june"; "july"; "august"; "september"; "october";
          "november"; "december"]%string.

Definition _daynames : list str :=
  map py ["mon"; "tue"; "wed"; "thu"; "fri"; "sat"; "sun"]%string.

Definition _timezones : list (str * Z) :=
  [ (py "UT", 0); (py "UTC", 0); (py "GMT", 0); (py "Z", 0);
    (py "AST", -400); (py "ADT", -300); (py "EST", -500); (py "EDT", -400);
    (py "CST", -600); (py "CDT", -500); (py "MST", -700); (py "MDT", -600);
    (py "PST", -800); (py "PDT", -700) ]%Z.

(** [str.split()] *)
Fixpoint split_ws_from (cur : str) (s : str) : list str :=
  match s with
  | [] => match cur with [] => [] | _ => [rev cur] end
  | c :: r =>
      if isspace c then
        match cur with
        | [] => split_ws_from [] r
        | _ => rev cur :: split_ws_from [] r
        end
      else split_ws_from (c :: cur) r
  end.

Definition split_ws (s : str) : list str := split_ws_from [] s.

(** [str.split(sep)] for a one-character separator. *)
Fixpoint split_on_from (sep : N) (cur : str) (s : str) : list str :=
  match s with
  | [] => [rev cur]
  | c :: r =>
      if (c =? sep)%N then rev cur :: split_on_from sep [] r
      else split_on_from sep (c :: cur) r
  end.

Definition split_on (sep : N) (s : str) : list str := split_on_from sep [] s.

(** [str.find(c)], [None] standing for [-1]. *)
Fixpoint find_char (c : N) (s : str) : option nat :=
  match s with
  | [] => None
  | x :: r =>
      if (x =? c)%N then Some O
      else match find_char c r with
           | Some i => Some (S i)
           | None => None
           end
  end.

(** [str.rfind(c)] *)
Definition rfind_char (c : N) (s : str) : option nat :=
  match find_char c (rev s) with
  | Some i => Some (List.length s - 1 - i)%nat
  | None => None
  end.

Definition ends_with (c : N) (s : str) : bool :=
  match last_opt s with
  | Some x => (x =? c)%N
  | None => false
  end.

(** [s[:-1]] *)
Definition drop_last (s : str) : str := removelast s.

Fixpoint str_mem (x : str) (l : list str) : bool :=
  match l with
  | [] => false
  | y :: r => str_eqb y x || str_mem x r
  end.

(** [list.index(x)] *)
Fixpoint index_of (x : str) (l : list str) : option nat :=
  match l with
  | [] => None
  | y :: r =>
      if str_eqb y x then Some O
      else match index_of x r with
           | Some i => Some (S i)
           | None => None
           end
  end.

(** Digits with single underscores between them, as [int()] reads them;
    [acc] is the value so far and [after_digit] says whether an underscore
    may come next. *)
Fixpoint digits_value (acc : Z) (after_digit : bool) (s : str) : option Z :=
  match s with
  | [] => if after_digit then Some acc else None
  | c :: r =>
      if is_ascii_digit c then digits_value (acc * 10 + Z.of_N (c - 48)) true r
      else if (c =? 95)%N then
        if after_digit then
          match r with
          | d :: _ => if is_ascii_digit d then digits_value acc false r else None
          | [] => None
          end
        else None
      else None
  end.

(** [int(s)], [None] standing for [ValueError]. *)
Definition py_int (s : str) : option Z :=
  match strip s with
  | 43%N :: r => digits_value 0 false r
  | 45%N :: r => option_map Z.opp (digits_value 0 false r)
  | r => digits_value 0 false r
  end.

(** The fields [_parsedate_tz] returns: year, month, day, hour, minute,
    second and the offset in seconds ([None] when unknown). *)
Record date_tuple := {
  t_year : Z; t_month : Z; t_day : Z;
  t_hour : Z; t_minute : Z; t_second : Z;
  t_tz : option Z
}.

Definition assoc_str {A : Type} (k : str) (t : list (str * A)) : option A :=
  match find (fun kv => str_eqb (fst kv) k) t with
  | Some kv => Some (snd kv)
  | None => None
  end.

Definition starts_with (c : N) (s : str) : bool :=
  match s with
  | x :: _ => (x =? c)%N
  | [] => false
  end.

Definition nonempty (s : str) : bool :=
  match s with
  | [] => false
  | _ :: _ => true
  end.

(** [if s[-1] == ',': s = s[:-1]]; indexing an empty string raises. *)
Definition drop_trailing_comma (s : str) : option str :=
  match s with
  | [] => None
  | _ => Some (if ends_with 44 s then drop_last s else s)
  end.

Declare Scope opt_scope.
Delimit Scope opt_scope with opt.
Notation "x <- e ;; k" :=
  (match e with Some x => k | None => None end)
  (at level 61, e at next level, right associativity) : opt_scope.
Notation "' p <- e ;; k" :=
  (match e with Some p => k | None => None end)
  (at level 61, p pattern, e at next level, right associativity) : opt_scope.
Notation "'check' b ;; k" :=
  (if b then k else None)
  (at level 61, b at next level, right associativity) : opt_scope.

(** The [hh:mm[:ss]] (or dotted) time of day, as three texts. *)
Definition split_time (tm : str) : option (str * str * str) :=
  match split_on 58 tm with
  | [thh; tmm] => Some (thh, tmm, py "0")
  | [thh; tmm; tss] => Some (thh, tmm, tss)
  | [t0] =>
      match find_char 46 t0 with
      | Some _ =>
          match split_on 46 t0 with
          | [thh; tmm] => Some (thh, tmm, py "0")
          | [thh; tmm; tss] => Some (thh, tmm, tss)
          | _ => None
          end
      | None => None
      end
  | _ => None
  end.

(** The timezone token: a name of [_timezones], else a number ([-0000]
    meaning unknown), turned into seconds. *)
Definition parse_tz (tz : str) : option Z :=
  let tz := upper tz in
  let tzoffset :=
    match assoc_str tz _timezones with
    | Some z => Some z
    | None =>
        match py_int tz with
        | Some 0%Z => if starts_with 45 tz then None else Some 0%Z
        | other => other
        end
    end in
  match tzoffset with
  | None => None
  | Some 0%Z => Some 0%Z
  | Some z =>
      let tzsign := (if z <? 0 then -1 else 1)%Z in
      let a := (if z <? 0 then - z else z)%Z in
      Some (tzsign * ((a / 100) * 3600 + (a mod 100) * 60))%Z
  end.

(** [_parsedate_tz] from [[dd, mm, yy, tm, tz] = data] on. [None] stands for
    a [None] result and for an exception alike: [parsedate_to_datetime]
    raises on the former and its callers catch every exception. *)
Definition parse_fields (dd mm yy tm tz : str) : option date_tuple :=
  (check (nonempty dd && nonempty mm && nonempty yy) ;;
   let mm := lower mm in
   '(dd, mm) <- (if str_mem mm _monthnames then Some (dd, mm)
                 else if str_mem (lower dd) _monthnames then Some (mm, lower dd)
                 else None) ;;
   i <- index_of mm _monthnames ;;
   let mm := Z.of_nat i + 1 in
   let mm := if mm >? 12 then mm - 12 else mm in
   dd <- drop_trailing_comma dd ;;
   let '(yy, tm) :=
     match find_char 58 yy with
     | Some (S _) => (tm, yy)
     | _ => (yy, tm)
     end in
   yy <- drop_trailing_comma yy ;;
   check (nonempty yy) ;;
   let '(yy, tz) := if isdigit (hd 0%N yy) then (yy, tz) else (tz, yy) in
   tm <- drop_trailing_comma tm ;;
   '(thh, tmm, tss) <- split_time tm ;;
   yy <- py_int yy ;;
   dd <- py_int dd ;;
   thh <- py_int thh ;;
   tmm <- py_int tmm ;;
   tss <- py_int tss ;;
   let yy := if yy <? 100 then (if yy >? 68 then yy + 1900 else yy + 2000) else yy in
   Some {| t_year := yy; t_month := mm; t_day := dd; t_hour := thh;
           t_minute := tmm; t_second := tss; t_tz := parse_tz tz |})%opt%Z.

(** [_parsedate_tz]: the tokens of the text, without a leading day name,
    brought to the five fields. *)
Definition _parsedate_tz (data : str) : option date_tuple :=
  match split_ws data with
  | [] => None
  | d0 :: rest =>
      let data :=
        if ends_with 44 d0 || str_mem (lower d0) _daynames then rest
        else match rfind_char 44 d0 with
             | Some i => skipn (S i) d0 :: rest
             | None => d0 :: rest
             end in
      let data :=
        match data with
        | [a; b; c] =>
            match split_on 45 a with
            | [s1; s2; s3] => [s1; s2; s3; b; c]
            | _ => data
            end
        | _ => data
        end in
      let data :=
        match data with
        | [a; b; c; s] =>
            let i := match find_char 43 s with
                     | Some i => Some i
                     | None => find_char 45 s
                     end in
            match i with
            | Some (S i') => [a; b; c; firstn (S i') s; skipn (S i') s]
            | _ => [a; b; c; s; []]
            end
        | _ => data
        end in
      match data with
      | dd :: mm :: yy :: tm :: tz :: _ => parse_fields dd mm yy tm tz
      | _ => None
      end
  end.

(** *** [datetime] *)

(** A [datetime]; [tzinfo] is the UTC offset in seconds, [None] when naive. *)
Record datetime := {
  year : Z; month : Z; day : Z;
  hour : Z; minute : Z; second : Z; microsecond : Z;
  tzinfo : option Z
}.

Definition is_leap (y : Z) : bool :=
  ((y mod 4 =? 0) && (negb (y mod 100 =? 0) || (y mod 400 =? 0)))%Z.

Definition days_in_month (y m : Z) : Z :=
  (if m =? 2 then (if is_leap y then 29 else 28)
   else if (m =? 4) || (m =? 6) || (m =? 9) || (m =? 11) then 30
   else 31)%Z.

Definition in_range (lo hi x : Z) : bool := ((lo <=? x) && (x <=? hi))%Z.

(** The range checks of the [datetime] constructor and of
    [timezone(timedelta(seconds=tz))]. *)
Definition valid_datetime (d : datetime) : bool :=
  in_range 1 9999 (year d) && in_range 1 12 (month d)
  && in_range 1 (days_in_month (year d) (month d)) (day d)
  && in_range 0 23 (hour d) && in_range 0 59 (minute d)
  && in_range 0 59 (second d) && in_range 0 999999 (microsecond d)
  && match tzinfo d with
     | Some off => in_range (-86399) 86399 off
     | None => true
     end.

(** [email.utils.parsedate_to_datetime], [None] when it raises. *)
Definition parsedate_to_datetime (data : str) : option datetime :=
  match _parsedate_tz data with
  | None => None
  | Some t =>
      let d := {| year := t_year t; month := t_month t; day := t_day t;
                  hour := t_hour t; minute := t_minute t; second := t_second t;
                  microsecond := 0; tzinfo := t_tz t |} in
      if valid_datetime d then Some d else None
  end.

(** Days from 1970-01-01 to the given civil date. *)
Definition days_from_civil (y m d : Z) : Z :=
  (let y' := if m <=? 2 then y - 1 else y in
   let era := y' / 400 in
   let yoe := y' - era * 400 in
   let mp := if m >? 2 then m - 3 else m + 9 in
   let doy := (153 * mp + 2) / 5 + d - 1 in
   let doe := yoe * 365 + yoe / 4 - yoe / 100 + doy in
   era * 146097 + doe - 719468)%Z.

(** The instant an aware [datetime] denotes (a naive one is read as UTC). *)
Definition timestamp (d : datetime) : instant :=
  (let off := match tzinfo d with Some z => z | None => 0 end in
   ((days_from_civil (year d) (month d) (day d) * 86400
     + hour d * 3600 + minute d * 60 + second d) - off) * 1000000
   + microsecond d)%Z.

(** [dt.replace(tzinfo=timezone.utc)] when [dt] is naive. *)
Definition assume_utc (d : datetime) : datetime :=
  match tzinfo d with
  | Some _ => d
  | None =>
      {| year := year d; month := month d; day := day d; hour := hour d;
         minute := minute d; second := second d; microsecond := microsecond d;
         tzinfo := Some 0%Z |}
  end.

Section DateNormalizer.

(** [_dateutil_parser]: [None] when [python-dateutil] is not installed,
    else its [parse], [None] standing for an exception. *)
Variable _dateutil_parser : option (str -> option datetime).

(** [parse_rss_date_to_dt] *)
Definition parse_rss_date_to_dt (s : option str) : option datetime :=
  match s with
  | None | Some [] => None
  | Some s =>
      match parsedate_to_datetime s with
      | Some dt => Some (assume_utc dt)
      | None =>
          match parsedate_to_datetime (pt_to_en_date_string s) with
          | Some dt => Some (assume_utc dt)
          | None =>
              match _dateutil_parser with
              | Some parse =>
                  match parse (pt_to_en_date_string s) with
                  | Some dt => Some (assume_utc dt)
                  | None => None
                  end
              | None => None
              end
          end
      end
  end.

End DateNormalizer.


(** ** Image resolution, [scraper.py] lines 133-205 *)

Definition image_extensions : list str :=
  map py ["jpg"; "jpeg"; "png"; "gif"; "webp"; "bmp"; "svg"]%string.

(** The negated class of the pattern: anything but whitespace, a single or
    double quote and an angle bracket. *)
Definition url_char (c : N) : bool :=
  negb (isspace c || (c =? 39)%N || (c =? 34)%N || (c =? 60)%N || (c =? 62)%N).

(** [https?://] at the start of [s]: the text matched and what follows. *)
Definition match_scheme (s : str) : option (str * str) :=
  match ci_prefix (py "http") s with
  | Some (m, r) =>
      match ci_prefix (py "s://") r with
      | Some (m2, r2) => Some (m ++ m2, r2)
      | None =>
          match ci_prefix (py "://") r with
          | Some (m2, r2) => Some (m ++ m2, r2)
          | None => None
          end
      end
  | None => None
  end.

(** The first extension of the alternation that [s] starts with. *)
Fixpoint first_extension (exts : list str) (s : str) : option nat :=
  match exts with
  | [] => None
  | e :: exts' =>
      match ci_prefix e s with
      | Some (m, _) => Some (List.length m)
      | None => first_extension exts' s
      end
  end.

(** The greedy run of [url_char] backs off to the last dot that an extension
    follows: the length of the text matched inside [run], of which [n]
    characters are already behind. *)
Fixpoint last_extension_end (n : nat) (run : str) : option nat :=
  match run with
  | [] => None
  | c :: r =>
      match last_extension_end (S n) r with
      | Some e => Some e
      | None =>
          if (1 <=? n)%nat && (c =? 46)%N then
            match first_extension image_extensions r with
            | Some len => Some (n + 1 + len)%nat
            | None => None
            end
          else None
      end
  end.

Fixpoint take_while (p : N -> bool) (s : str) : str :=
  match s with
  | c :: r => if p c then c :: take_while p r else []
  | [] => []
  end.

Definition match_image_at (s : str) : option str :=
  match match_scheme s with
  | Some (scheme, rest) =>
      let run := take_while url_char rest in
      match last_extension_end 0 run with
      | Some e => Some (scheme ++ firstn e run)
      | None => None
      end
  | None => None
  end.

(** [re.search(pattern, description_html, re.IGNORECASE)], group 1. *)
Fixpoint search_image (s : str) : option str :=
  match s with
  | [] => None
  | _ :: r =>
      match match_image_at s with
      | Some m => Some m
      | None => search_image r
      end
  end.

(** [extract_image_by_extension] *)
Definition extract_image_by_extension (description_html : option str) : option str :=
  match description_html with
  | Some (c :: r) => search_image (c :: r)
  | _ => None
  end.

(** What [extract_image_from_page] looks for in the parsed page. For each
    tag: [None] when [soup.find] finds none, else the value of the attribute
    read from the first one ([None] when the tag lacks it). *)
Record page := {
  og_image : option (option str);
  twitter_image : option (option str);
  image_src : option (option str);
  first_img : option (option str)
}.

(** A feed entry, as far as [scrape_rss] reads it. A list-valued key is
    [None] when the entry lacks it; of each element only the attribute the
    code reads is kept ([url] or [href]). *)
Record entry := {
  media_content : option (list (option str));
  enclosures : option (list (option str));
  media_thumbnail : option (list (option str));
  summary : option str;
  description : option str;
  e_link : option str;
  e_title : option str;
  e_published : option str;
  e_updated : option str
}.

(** [a or b] on optional strings. *)
Definition py_or (a b : option str) : option str :=
  if truthy a then a else b.

(** [if url: return url], else go on with [next]. *)
Definition return_if (url : option str) (next : outcome (option str))
    : outcome (option str) :=
  if truthy url then Ret url else next.

Section ImageResolver.

(** [requests.get(url, ...)], [raise_for_status] and [BeautifulSoup]:
    [None] when any of them raises. *)
Variable fetch_page : str -> option page.

(** [urllib.parse.urljoin], [None] when it raises. *)
Variable urljoin : str -> str -> option str.

(** [extract_image_from_page]; the whole body is inside [try]. *)
Definition extract_image_from_page (url : option str) : option str :=
  match url with
  | None => None
  | Some u =>
      match fetch_page u with
      | None => None
      | Some pg =>
          match og_image pg with
          | Some (Some (c :: r)) => Some (c :: r)
          | _ =>
          match twitter_image pg with
          | Some (Some (c :: r)) => Some (c :: r)
          | _ =>
          match image_src pg with
          | Some (Some (c :: r)) => Some (c :: r)
          | _ =>
          match first_img pg with
          | Some (Some (c :: r)) => urljoin u (c :: r)
          | _ => None
          end end end end
      end
  end.

(** [extract_image]; [Exc] is the [IndexError] of [entry.media_thumbnail[0]]. *)
Definition extract_image (e : entry) : outcome (option str) :=
  let step5 := return_if (extract_image_from_page (e_link e)) (Ret None) in
  let step4 :=
    return_if (extract_image_by_extension (py_or (summary e) (description e))) step5 in
  let step3 :=
    match media_thumbnail e with
    | Some (url :: _) => return_if url step4
    | Some [] => Exc
    | None => step4
    end in
  let step2 :=
    match enclosures e with
    | Some (url :: _) => return_if url step3
    | _ => step3
    end in
  match media_content e with
  | Some (url :: _) => return_if url step2
  | _ => step2
  end.

End ImageResolver.

(** ** Feed items (the [noticia] dict built by [scrape_rss]) *)

(** [published] is [Some t] for a [datetime] denoting [t] and [None] for any
    other Python value (the planner tests [isinstance(pub, datetime)]). *)
Record noticia := {
  rss_url : str;
  title : option str;
  link : option str;
  published : option instant;
  image_url : option str
}.

(** ** [scrape_rss], lines 213-266 *)

(** The parsed feed document ([feedparser.parse]). [f_image] is [None] when
    the channel has no (non-empty) [image], else its [href]. *)
Record feed := {
  f_title : option str;
  f_image : option (option str);
  entries : list entry
}.

Record jornal := {
  j_rss_url : str;
  j_name : option str;
  j_icon_url : option str
}.

Definition min_instant : instant :=
  timestamp {| year := 1; month := 1; day := 1; hour := 0; minute := 0;
               second := 0; microsecond := 0; tzinfo := Some 0%Z |}.

Definition max_instant : instant :=
  timestamp {| year := 9999; month := 12; day := 31; hour := 23; minute := 59;
               second := 59; microsecond := 999999; tzinfo := Some 0%Z |}.

(** [dt.astimezone(timezone.utc)] of an aware [dt]: the same instant, and
    an [OverflowError] when UTC puts it outside the years 1 to 9999. *)
Definition astimezone_utc (d : datetime) : outcome instant :=
  if in_range min_instant max_instant (timestamp d) then Ret (timestamp d)
  else Exc.

Section Scraper.

Variable _dateutil_parser : option (str -> option datetime).
Variable fetch_page : str -> option page.
Variable urljoin : str -> str -> option str.

(** The body of the loop over [feed.entries]: the [noticia] appended, or
    [None] when the entry is skipped ([continue], or an exception caught). *)
Definition scrape_entry (rss : str) (e : entry) : option noticia :=
  let published_raw := py_or (e_published e) (e_updated e) in
  match parse_rss_date_to_dt _dateutil_parser published_raw with
  | None => None
  | Some published_date =>
      match astimezone_utc published_date with
      | Exc => None
      | Ret pub_date =>
          match extract_image fetch_page urljoin e with
          | Exc => None
          | Ret imagem =>
              Some {| rss_url := rss; title := e_title e; link := e_link e;
                      published := Some pub_date; image_url := imagem |}
          end
      end
  end.

Definition scrape_rss (rss : str) (f : feed) : jornal * list noticia :=
  let channel_name :=
    match f_title f with
    | Some t => Some t
    | None => Some (py "Sem Nome")
    end in
  let channel_icon :=
    match f_image f with
    | Some href => href
    | None => None
    end in
  ({| j_rss_url := rss; j_name := channel_name; j_icon_url := channel_icon |},
   flat_map (fun e => match scrape_entry rss e with
                      | Some n => [n]
                      | None => []
                      end) (entries f)).

End Scraper.

(** ** The planning loop, [scraper.py] lines 382-392 *)

Definition plan_step (last_article_dt : option instant)
    (acc : option instant * list noticia) (n : noticia)
    : option instant * list noticia :=
  let '(max_published, to_insert) := acc in
  match published n with
  | None => acc
  | Some pub =>
      let max_published' :=
        match max_published with
        | None => Some pub
        | Some m => if (pub >? m)%Z then Some pub else Some m
        end in
      let newer :=
        match last_article_dt with
        | None => true
        | Some l => (pub >? l)%Z
        end in
      (max_published', if newer then to_insert ++ [n] else to_insert)
  end.

(** [plan noticias last_article_dt] is [(max_published, to_insert)]. *)
Definition plan (noticias : list noticia) (last_article_dt : option instant)
    : option instant * list noticia :=
  fold_left (plan_step last_article_dt) noticias (None, []).

(** The guard of lines 459-461: is [news.last_article] rewritten? *)
Definition should_update (last_article_dt max_published : option instant) : bool :=
  match max_published with
  | None => false
  | Some m =>
      match last_article_dt with
      | None => true
      | Some l => (m >? l)%Z
      end
  end.

(** The watermark a run leaves behind when its update is applied. *)
Definition new_watermark (last_article_dt max_published : option instant)
    : option instant :=
  if should_update last_article_dt max_published then max_published
  else last_article_dt.

(** ** The record store *)

(** The text kept in [news.last_article]: [Iso t] is a string that
    [datetime.fromisoformat] reads as the instant [t] (what
    [max_published.isoformat()] writes), [Garbage] a non-empty value on which
    it raises. *)
Inductive stored :=
| Iso (t : instant)
| Garbage.

Record news_row := {
  n_id : positive;
  n_rss_url : str;
  n_name : option str;
  n_icon_url : option str;
  n_last_article : option stored
}.

Record article_row := {
  a_news_id : positive;
  a_rss_url : str;
  a_title : option str;
  a_link : option str;
  a_thumbnail_url : option str;
  a_published : option instant
}.

(** Every request sent to a collaborator, in order. *)
Inductive call :=
| SelectNews (rss : str)
| InsertNews (rss : str) (name icon : option str)
| CreateThumbnail (url : str)
| SelectArticle (lnk : str)
| InsertArticle (row : article_row)
| UpdateNews (rss : str) (t : instant).

Record world := {
  news : list news_row;
  article : list article_row;
  log : list call
}.

Definition clock (w : world) : nat := List.length (log w).

Definition tick (c : call) (w : world) : world :=
  {| news := news w; article := article w; log := log w ++ [c] |}.

(** What an insert does: the row is stored and returned, nothing is stored
    and the response carries no data, or the call raises. *)
Inductive fate := Works | Rejects | Raises.

Record oracle := {
  select_raises : nat -> bool;
  insert_fate : nat -> fate;
  update_raises : nat -> bool;
  fresh_id : nat -> positive;
  thumbnail_of : nat -> str -> option str
}.

Definition has_rss (rss : str) (r : news_row) : bool := str_eqb (n_rss_url r) rss.

Definition has_link (lnk : str) (r : article_row) : bool :=
  match a_link r with
  | Some l => str_eqb l lnk
  | None => false
  end.

Section Collaborators.

Variable o : oracle.

(** [supabase.table("news").select("id,last_article").eq("rss_url", rss).limit(1).execute()] *)
Definition select_news (rss : str) (w : world) : outcome (list news_row) * world :=
  let w' := tick (SelectNews rss) w in
  if select_raises o (clock w) then (Exc, w')
  else (Ret (firstn 1 (filter (has_rss rss) (news w))), w').

(** [supabase.table("news").insert({...}).execute()] *)
Definition insert_news (rss : str) (name icon : option str) (w : world)
    : outcome (list news_row) * world :=
  let w' := tick (InsertNews rss name icon) w in
  match insert_fate o (clock w) with
  | Works =>
      let r := {| n_id := fresh_id o (clock w); n_rss_url := rss; n_name := name;
                  n_icon_url := icon; n_last_article := None |} in
      (Ret [r], {| news := news w' ++ [r]; article := article w'; log := log w' |})
  | Rejects => (Ret [], w')
  | Raises => (Exc, w')
  end.

(** [supabase.table("article").select("id").eq("link", link_val).limit(1).execute()] *)
Definition select_article (lnk : str) (w : world)
    : outcome (list article_row) * world :=
  let w' := tick (SelectArticle lnk) w in
  if select_raises o (clock w) then (Exc, w')
  else (Ret (firstn 1 (filter (has_link lnk) (article w))), w').

(** [supabase.table("article").insert({...}).execute()] *)
Definition insert_article (row : article_row) (w : world)
    : outcome (list article_row) * world :=
  let w' := tick (InsertArticle row) w in
  match insert_fate o (clock w) with
  | Works =>
      (Ret [row], {| news := news w'; article := article w' ++ [row]; log := log w' |})
  | Rejects => (Ret [], w')
  | Raises => (Exc, w')
  end.

Definition set_last_article (rss : str) (t : instant) (r : news_row) : news_row :=
  if has_rss rss r then
    {| n_id := n_id r; n_rss_url := n_rss_url r; n_name := n_name r;
       n_icon_url := n_icon_url r; n_last_article := Some (Iso t) |}
  else r.

(** [supabase.table("news").update({"last_article": ...}).eq("rss_url", rss).execute()] *)
Definition update_news (rss : str) (t : instant) (w : world) : outcome unit * world :=
  let w' := tick (UpdateNews rss t) w in
  if update_raises o (clock w) then (Exc, w')
  else (Ret tt, {| news := map (set_last_article rss t) (news w');
                   article := article w'; log := log w' |}).

(** [create_and_upload_thumbnail(image_url, supabase, BUCKET, ...)]: every
    exception is caught inside ([image_utils.py] line 106), so the call
    returns a public URL or [None]. *)
Definition create_and_upload_thumbnail (url : str) (w : world) : option str * world :=
  (thumbnail_of o (clock w) url, tick (CreateThumbnail url) w).

End Collaborators.

(** ** The executor, [scraper.py] lines 394-456 *)

Record counters := {
  inserted : nat;
  dup_skipped : nat;
  failures : nat
}.

Definition zero : counters := {| inserted := 0; dup_skipped := 0; failures := 0 |}.

Definition count_inserted (c : counters) : counters :=
  {| inserted := S (inserted c); dup_skipped := dup_skipped c; failures := failures c |}.

Definition count_dup (c : counters) : counters :=
  {| inserted := inserted c; dup_skipped := S (dup_skipped c); failures := failures c |}.

Definition count_failure (c : counters) : counters :=
  {| inserted := inserted c; dup_skipped := dup_skipped c; failures := S (failures c) |}.

Section Executor.

Variable o : oracle.

(** Lines 421-456: the duplicate check and the insert, inside one [try]. *)
Definition insert_step (nid : positive) (rss : str) (n : noticia)
    (thumbnail_url : option str) (st : world * counters) : world * counters :=
  let '(w, c) := st in
  let link_val := link n in
  let row := {| a_news_id := nid; a_rss_url := rss; a_title := title n;
                a_link := link_val; a_thumbnail_url := thumbnail_url;
                a_published := published n |} in
  let attempt (w1 : world) :=
    match insert_article o row w1 with
    | (Ret (_ :: _), w2) => (w2, count_inserted c)
    | (Ret [], w2) => (w2, count_failure c)
    | (Exc, w2) => (w2, count_failure c)
    end in
  match link_val with
  | Some (x :: l) =>
      match select_article o (x :: l) w with
      | (Ret (_ :: _), w1) => (w1, count_dup c)
      | (Ret [], w1) => attempt w1
      | (Exc, w1) => (w1, count_failure c)
      end
  | _ => attempt w
  end.

(** One iteration of the loop over [to_insert], lines 399-456. *)
Definition process_item (news_id : option positive) (rss : str)
    (st : world * counters) (n : noticia) : world * counters :=
  let '(w, c) := st in
  match news_id with
  | None => (w, count_failure c)
  | Some nid =>
      match image_url n with
      | Some (x :: u) =>
          match create_and_upload_thumbnail o (x :: u) w with
          | (None, w1) => insert_step nid rss n None (w1, count_failure c)
          | (Some th, w1) => insert_step nid rss n (Some th) (w1, c)
          end
      | _ => insert_step nid rss n None (w, c)
      end
  end.

Definition execute (news_id : option positive) (rss : str)
    (to_insert : list noticia) (st : world * counters) : world * counters :=
  fold_left (process_item news_id rss) to_insert st.

(** ** One feed of the main loop, lines 339-473 *)

Definition last_article_dt_of (last_article_str : option stored) : option instant :=
  match last_article_str with
  | Some (Iso t) => Some t
  | _ => None
  end.

(** Lines 343-369: read the feed's row, creating it when there is none. *)
Definition find_or_create (rss : str) (name icon : option str) (w : world)
    : option positive * option stored * world :=
  match select_news o rss w with
  | (Ret (r :: _), w1) => (Some (n_id r), n_last_article r, w1)
  | (Ret [], w1) =>
      match insert_news o rss name icon w1 with
      | (Ret (r :: _), w2) => (Some (n_id r), None, w2)
      | (Ret [], w2) => (None, None, w2)
      | (Exc, w2) => (None, None, w2)
      end
  | (Exc, w1) => (None, None, w1)
  end.

(** Lines 458-464. *)
Definition update_watermark (rss : str)
    (last_article_dt max_published : option instant) (w : world) : world :=
  match max_published with
  | Some m =>
      if should_update last_article_dt max_published
      then snd (update_news o rss m w)
      else w
  | None => w
  end.

Definition run_feed (rss : str) (name icon : option str)
    (noticias : list noticia) (w : world) : world * counters :=
  let '(news_id, last_article_str, w1) := find_or_create rss name icon w in
  let last_article_dt := last_article_dt_of last_article_str in
  let '(max_published, to_insert) := plan noticias last_article_dt in
  let '(w2, c) := execute news_id rss to_insert (w1, zero) in
  (update_watermark rss last_article_dt max_published w2, c).

End Executor.

(** ** The main loop, lines 326-480 *)

Section Main.

Variable _dateutil_parser : option (str -> option datetime).
Variable fetch_page : str -> option page.
Variable urljoin : str -> str -> option str.
Variable o : oracle.

(** [feedparser.parse]: the document behind each feed URL. *)
Variable feedparser_parse : str -> feed.

(** The totals printed at the end. *)
Definition add_counters (a b : counters) : counters :=
  {| inserted := inserted a + inserted b;
     dup_skipped := dup_skipped a + dup_skipped b;
     failures := failures a + failures b |}.

(** The body of [for rss in RSS_LIST]. *)
Definition process_feed (st : world * counters) (rss : str) : world * counters :=
  let '(w, totals) := st in
  let '(jornal, noticias) :=
    scrape_rss _dateutil_parser fetch_page urljoin rss (feedparser_parse rss) in
  let '(w', c) := run_feed o rss (j_name jornal) (j_icon_url jornal) noticias w in
  (w', add_counters totals c).

Definition main (RSS_LIST : list str) (w : world) : world * counters :=
  fold_left process_feed RSS_LIST (w, zero).

End Main.

(** ** Where the feed URLs come from, lines 274-323 *)

(** [config.json] as [get_rss_feeds_from_config] finds it: missing, present
    but failing to open or parse, or parsed, with the value of its
    [rss_list] key ([None] when the key is absent). *)
Inductive config_file :=
| NoFile
| Unreadable
| Config (rss_list : option (list str)).

Definition default_feed : str := py "https://revistadireitohoje.com.br/feed/".

Section FeedSources.

(** The response to [select("rss_url")] on [news]: [Exc] when the call
    raises, else its [data] ([None] for a missing or null [data]), of which
    only each row's [rss_url] is kept. *)
Variable news_response : outcome (option (list (option str))).

Variable config : config_file.

(** [get_rss_feeds_from_supabase] *)
Definition get_rss_feeds_from_supabase : list str :=
  match news_response with
  | Ret (Some (r :: rows)) =>
      flat_map (fun row => match row with
                           | Some (c :: u) => [c :: u]
                           | _ => []
                           end) (r :: rows)
  | _ => []
  end.

(** [get_rss_feeds_from_config] *)
Definition get_rss_feeds_from_config : list str :=
  match config with
  | Config (Some rss_list) => rss_list
  | _ => []
  end.

(** [get_rss_feeds] *)
Definition get_rss_feeds : list str :=
  match get_rss_feeds_from_supabase with
  | (_ :: _) as feeds => feeds
  | [] =>
      match get_rss_feeds_from_config with
      | (_ :: _) as feeds => feeds
      | [] => [default_feed]
      end
  end.

End FeedSources.

(** ** Downloading, converting and storing an image

    [create_and_upload_thumbnail] of [image_utils.py] and
    [upload_image_to_supabase] of [scraper.py] (lines 28-114) have the same
    body but for the folder, the JPEG quality and the resizing step. *)

Module ImageUtils.

Definition bytes := list N.

Record response := {
  status_code : Z;
  content_type : option str;
  content : bytes
}.

(** What [requests.get] does: it answers, raises a [RequestException], or
    raises something else. *)
Inductive http_result :=
| Answer (r : response)
| RequestError
| OtherError.

(** What [get_public_url] returns: a string, or a dict. *)
Inductive public_url :=
| UrlText (s : str)
| UrlDict (d : list (str * str)).

(** A PIL image: its mode, whether [img.info] has a [transparency] entry,
    and its pixels (opaque). *)
Record image := {
  mode : str;
  has_transparency : bool;
  pixels : N
}.

(** Everything the function does to the outside, in order. *)
Inductive effect :=
| HttpGet (url : str) (referer : option str)
| Sleep (seconds : Z)
| Upload (name : str) (payload : bytes)
| GetPublicUrl (name : str).

(** The outside world: [urlparse], the network, PIL, [uuid4] and the
    storage bucket. [origin_of] is the [Referer] computed from the URL
    ([None] when scheme or host is missing, [Exc] when [urlparse] raises);
    for the other calls, where one can raise, [None] (or [Exc], or [true])
    stands for that; calls that depend on when they are made take the number
    of effects so far. *)
Record env := {
  origin_of : str -> outcome (option str);
  http_get : nat -> str -> http_result;
  image_open : bytes -> option image;
  convert_pixels : str -> image -> option N;
  thumbnail_pixels : Z -> image -> option N;
  paste_on_white : image -> option N;
  save_jpeg : image -> Z -> option bytes;
  uuid4 : nat -> str;
  upload_raises : nat -> bool;
  public_url_of : nat -> str -> outcome public_url;
  dict_repr : list (str * str) -> str
}.

(** [s.startswith(p)] *)
Fixpoint has_prefix (p s : str) : bool :=
  match p, s with
  | [], _ => true
  | x :: p', y :: s' => (x =? y)%N && has_prefix p' s'
  | _ :: _, [] => false
  end.

(** [s.endswith(p)] *)
Definition has_suffix (p s : str) : bool := has_prefix (rev p) (rev s).

(** [p in s] *)
Fixpoint contains (p s : str) : bool :=
  has_prefix p s || match s with
                    | [] => false
                    | _ :: r => contains p r
                    end.

Section Pipeline.

Variable e : env.

(** The [for attempt in range(3)] loop, with [k] attempts left. The result
    is the response the loop breaks with, or [None] when an exception
    leaves it (or the range is used up). *)
Fixpoint download (url : str) (referer : option str) (k : nat) (attempt : Z)
    (log : list effect) : option response * list effect :=
  match k with
  | O => (None, log)
  | S k' =>
      let log1 := log ++ [HttpGet url referer] in
      let on_request_exception :=
        if (attempt <? 2)%Z
        then download url referer k' (attempt + 1)%Z (log1 ++ [Sleep (1 * 2 ^ attempt)%Z])
        else (None, log1) in
      match http_get e (List.length log) url with
      | Answer r =>
          if (status_code r =? 403)%Z then (Some r, log1)
          else if ((400 <=? status_code r) && (status_code r <? 600))%Z
               then on_request_exception
               else (Some r, log1)
      | RequestError => on_request_exception
      | OtherError => (None, log1)
      end
  end.

(** [img.convert(m)] *)
Definition convert (m : str) (img : image) : option image :=
  match convert_pixels e m img with
  | Some p => Some {| mode := m; has_transparency := has_transparency img; pixels := p |}
  | None => None
  end.

(** The mode handling before resizing: palettes and alpha. *)
Definition to_rgb_or_rgba (img : image) : option image :=
  if str_eqb (mode img) (py "P") then
    if has_transparency img then convert (py "RGBA") img
    else convert (py "RGB") img
  else if str_eqb (mode img) (py "RGBA") || str_eqb (mode img) (py "LA") then
    convert (py "RGBA") img
  else convert (py "RGB") img.

(** [img.thumbnail((max_width, max_width), LANCZOS)], when there is one. *)
Definition resize (max_width : option Z) (img : image) : option image :=
  match max_width with
  | None => Some img
  | Some mw =>
      match thumbnail_pixels e mw img with
      | Some p => Some {| mode := mode img; has_transparency := has_transparency img;
                          pixels := p |}
      | None => None
      end
  end.

(** An image with alpha is pasted on a white RGB background. *)
Definition flatten (img : image) : option image :=
  if str_eqb (mode img) (py "RGBA") then
    match paste_on_white e img with
    | Some p => Some {| mode := py "RGB"; has_transparency := false; pixels := p |}
    | None => None
    end
  else Some img.

(** The keys tried on a dict returned by [get_public_url]. *)
Definition url_keys : list str :=
  map py ["publicUrl"; "public_url"; "publicurl"; "url"]%string.

Fixpoint first_key (keys : list str) (d : list (str * str)) : option str :=
  match keys with
  | [] => None
  | k :: keys' =>
      match assoc_str k d with
      | Some v => Some v
      | None => first_key keys' d
      end
  end.

Definition normalise_url (u : public_url) : str :=
  match u with
  | UrlText s => s
  | UrlDict d =>
      match first_key url_keys d with
      | Some v => v
      | None => dict_repr e d
      end
  end.

(** The common body; everything is inside one [try] that returns [None]. *)
Definition fetch_convert_store (folder : str) (quality : Z) (max_width : option Z)
    (img_url : option str) (log : list effect) : option str * list effect :=
  match img_url with
  | Some (c :: u) =>
      let url := c :: u in
      if has_suffix (py ".svg") (lower url) then (None, log)
      else
        match origin_of e url with
        | Exc => (None, log)
        | Ret origin =>
        match download url origin 3 0 log with
        | (None, log1) => (None, log1)
        | (Some r, log1) =>
            let ctype := match content_type r with
                         | Some t => t
                         | None => []
                         end in
            if contains (py "svg") ctype then (None, log1)
            else
              match image_open e (content r) with
              | None => (None, log1)
              | Some img =>
              match to_rgb_or_rgba img with
              | None => (None, log1)
              | Some img =>
              match resize max_width img with
              | None => (None, log1)
              | Some img =>
              match flatten img with
              | None => (None, log1)
              | Some image =>
              match save_jpeg e image quality with
              | None => (None, log1)
              | Some buf =>
                  let name := folder ++ uuid4 e (List.length log1) ++ py ".jpg" in
                  let log2 := log1 ++ [Upload name buf] in
                  if upload_raises e (List.length log1) then (None, log2)
                  else
                    let log3 := log2 ++ [GetPublicUrl name] in
                    match public_url_of e (List.length log2) name with
                    | Exc => (None, log3)
                    | Ret u => (Some (normalise_url u), log3)
                    end
              end end end end end
        end end
  | _ => (None, log)
  end.

(** [create_and_upload_thumbnail(img_url, supabase_client, bucket_name,
    max_width, quality)] *)
Definition create_and_upload_thumbnail (img_url : option str) (max_width quality : Z)
    (log : list effect) : option str * list effect :=
  fetch_convert_store (py "thumbnails/") quality (Some max_width) img_url log.

(** [upload_image_to_supabase(img_url)] *)
Definition upload_image_to_supabase (img_url : option str) (log : list effect)
    : option str * list effect :=
  fetch_convert_store (py "images/") 80 None img_url log.

End Pipeline.

End ImageUtils.

(** ** [tools/reprocess_feed.py]: the items a reprocessing run takes *)

(** [l[:count]], for a [count] of either sign. *)
Definition slice_to {A : Type} (count : Z) (l : list A) : list A :=
  if (0 <=? count)%Z then firstn (Z.to_nat count) l
  else firstn (List.length l - Z.to_nat (- count)) l.

(** The items whose [published] is a [datetime], each with its sort key. *)
Definition with_datetime (noticias : list noticia) : list (instant * noticia) :=
  flat_map (fun n => match published n with
                     | Some p => [(p, n)]
                     | None => []
                     end) noticias.

(** [sorted(..., key=..., reverse=True)]: newest first, and stable, so items
    with the same key keep their order. *)
Fixpoint insert_newest_first (x : instant * noticia) (l : list (instant * noticia))
    : list (instant * noticia) :=
  match l with
  | [] => [x]
  | y :: l' =>
      if (fst y >? fst x)%Z then y :: insert_newest_first x l'
      else x :: y :: l'
  end.

Definition sorted_newest_first (l : list (instant * noticia)) : list (instant * noticia) :=
  fold_right insert_newest_first [] l.

(** Lines 16-20: [to_process]. *)
Definition to_process (count : Z) (noticias : list noticia) : list noticia :=
  slice_to count (map snd (sorted_newest_first (with_datetime noticias))).

(** Lines 52-54: one step of the running maximum. *)
Definition reprocess_max_step (max_published : option instant) (n : noticia)
    : option instant :=
  match max_published with
  | None => published n
  | Some m =>
      match published n with
      | Some pub => if (pub >? m)%Z then Some pub else Some m
      | None => Some m
      end
  end.

(** [max_published] when the loop over [to_process] ends. *)
Definition reprocess_max (items : list noticia) : option instant :=
  fold_left reprocess_max_step items None.

(** ** What the claims are stated with *)

(** The later of two optional instants; an absent one does not count. *)
Definition later (a b : option instant) : option instant :=
  match a, b with
  | None, x => x
  | x, None => x
  | Some x, Some y => Some (Z.max x y)
  end.

(** The maximum [published] instant over the items, if any has one. *)
Definition latest (ns : list noticia) : option instant :=
  fold_right (fun n acc => later (published n) acc) None ns.

(** [a] is not after [b]; an absent watermark is before everything. *)
Definition not_after (a b : option instant) : Prop :=
  match a, b with
  | None, _ => True
  | Some x, Some y => (x <= y)%Z
  | Some _, None => False
  end.

(** Is the item published strictly after the watermark [wm]? *)
Definition published_after (wm : instant) (n : noticia) : bool :=
  match published n with
  | Some p => (p >? wm)%Z
  | None => false
  end.

(** The watermark the planner reads from the rows of [news]:
    [last_article] of the first row with this [rss_url], parsed. *)
Definition watermark_of (rss : str) (rows : list news_row) : option instant :=
  match filter (has_rss rss) rows with
  | r :: _ => last_article_dt_of (n_last_article r)
  | [] => None
  end.

(** The watermark stored for a feed. *)
Definition stored_watermark (rss : str) (w : world) : option instant :=
  watermark_of rss (news w).

(** The store has a row for the feed. *)
Definition has_row (rss : str) (w : world) : Prop :=
  filter (has_rss rss) (news w) <> [].

(** How many [article] rows carry the link [lnk]. *)
Definition count_link (lnk : str) (w : world) : nat :=
  List.length (filter (has_link lnk) (article w)).

(** The number of calls made before the duplicate check of item [n]. *)
Definition check_time (w : world) (n : noticia) : nat :=
  if truthy (image_url n) then S (clock w) else clock w.

(** The number of calls made before the insert of item [n], when the
    duplicate check lets it through. *)
Definition insert_time (w : world) (n : noticia) : nat :=
  if truthy (link n) then S (check_time w n) else check_time w n.

(** The store just before the insert of [n]: the thumbnail request (when
    the item has an image) and the duplicate lookup (when it has a link)
    have been logged. *)
Definition before_insert (w : world) (n : noticia) : world :=
  let w1 := match image_url n with
            | Some (x :: u) => tick (CreateThumbnail (x :: u)) w
            | _ => w
            end in
  match link n with
  | Some (x :: l) => tick (SelectArticle (x :: l)) w1
  | _ => w1
  end.

(** Everything logged from call number [t] on. *)
Definition calls_since (t : nat) (w : world) : list call := skipn t (log w).

(** The row the executor sends for item [n]. *)
Definition row_of (nid : positive) (rss : str) (n : noticia)
    (thumbnail_url : option str) : article_row :=
  {| a_news_id := nid; a_rss_url := rss; a_title := title n; a_link := link n;
     a_thumbnail_url := thumbnail_url; a_published := published n |}.

(** The insert, once the duplicate check is behind. *)
Definition attempt_insert (o : oracle) (row : article_row) (w : world) (c : counters)
    : world * counters :=
  match insert_fate o (clock w) with
  | Works =>
      ({| news := news w; article := article w ++ [row];
          log := log w ++ [InsertArticle row] |}, count_inserted c)
  | _ => (tick (InsertArticle row) w, count_failure c)
  end.

(** The duplicate check of [n] finds nothing: there is no link to look up,
    or the lookup answers and no row carries the link. *)
Definition not_a_duplicate (o : oracle) (w : world) (n : noticia) : Prop :=
  match link n with
  | Some (x :: l) =>
      select_raises o (check_time w n) = false
      /\ filter (has_link (x :: l)) (article w) = []
  | _ => True
  end.

(** The same item, with no image URL. *)
Definition without_image (n : noticia) : noticia :=
  {| rss_url := rss_url n; title := title n; link := link n;
     published := published n; image_url := None |}.

(** [failures += k] *)
Definition add_failures (k : nat) (c : counters) : counters :=
  {| inserted := inserted c; dup_skipped := dup_skipped c;
     failures := failures c + k |}.

(** The sum of the three counters. *)
Definition total (c : counters) : nat := inserted c + dup_skipped c + failures c.

(** The characters the month alternatives are made of. *)
Definition key_chars : list N := concat months_alternatives.

(** A pattern alternative: not empty, and made of month-key characters. *)
Definition key_like (k : str) : Prop :=
  k <> [] /\ forall x, In x k -> In x key_chars.

(** The code points below [n]. *)
Definition codepoints_below (n : nat) : list N := map N.of_nat (seq 0 n).

Definition is_some {A : Type} (x : option A) : bool :=
  match x with
  | Some _ => true
  | None => false
  end.

(** *** Concrete stores, oracles, items and dates *)

Definition empty_world : world := {| news := []; article := []; log := [] |}.

(** A store on which every call succeeds and every thumbnail is produced. *)
Definition reliable : oracle :=
  {| select_raises := fun _ => false;
     insert_fate := fun _ => Works;
     update_raises := fun _ => false;
     fresh_id := fun t => Pos.of_succ_nat t;
     thumbnail_of := fun _ _ => Some (py "https://cdn.example/t.jpg") |}.

(** As [reliable], but no thumbnail can be derived. *)
Definition no_thumbnails : oracle :=
  {| select_raises := fun _ => false;
     insert_fate := fun _ => Works;
     update_raises := fun _ => false;
     fresh_id := fun t => Pos.of_succ_nat t;
     thumbnail_of := fun _ _ => None |}.

(** As [reliable], but the first call of the run raises. *)
Definition first_call_raises : oracle :=
  {| select_raises := fun t => Nat.eqb t 0;
     insert_fate := fun _ => Works;
     update_raises := fun _ => false;
     fresh_id := fun t => Pos.of_succ_nat t;
     thumbnail_of := fun _ _ => Some (py "https://cdn.example/t.jpg") |}.

(** As [reliable], but every update of [news] raises. *)
Definition updates_raise : oracle :=
  {| select_raises := fun _ => false;
     insert_fate := fun _ => Works;
     update_raises := fun _ => true;
     fresh_id := fun t => Pos.of_succ_nat t;
     thumbnail_of := fun _ _ => Some (py "https://cdn.example/t.jpg") |}.

Definition feed_url : str := py "https://example.org/feed/".

Definition item (lnk img : option str) (t : instant) : noticia :=
  {| rss_url := feed_url; title := Some (py "Titulo"); link := lnk;
     published := Some t; image_url := img |}.

Definition three_items : list noticia :=
  [ item (Some (py "https://example.org/a")) None 10%Z;
    item (Some (py "https://example.org/b")) None 30%Z;
    item (Some (py "https://example.org/c")) None 20%Z ].

Definition linkless_item : noticia := item None None 10%Z.

Definition imageful_item : noticia :=
  item (Some (py "https://example.org/a")) (Some (py "https://example.org/a.jpg")) 10%Z.

Definition empty_link_item : noticia := item (Some []) None 10%Z.

(** A store that already knows the feed, with watermark [t]. *)
Definition world_with_watermark (t : instant) : world :=
  {| news := [ {| n_id := 1; n_rss_url := feed_url; n_name := Some (py "Jornal");
                  n_icon_url := None; n_last_article := Some (Iso t) |} ];
     article := []; log := [] |}.

(** A store in which one article already carries the link of [imageful_item]. *)
Definition world_with_article : world :=
  {| news := [];
     article := [ row_of 1 feed_url imageful_item None ];
     log := [] |}.

(** An entry whose [media_thumbnail] is present and empty. *)
Definition empty_thumbnail_entry : entry :=
  {| media_content := None; enclosures := None; media_thumbnail := Some [];
     summary := None; description := None;
     e_link := Some (py "https://example.org/a"); e_title := Some (py "Titulo");
     e_published := Some (py "Wed, 26 Nov 2025 11:01:00 GMT"); e_updated := None |}.

(** 2025-11-26T08:25:00+00:00 *)
Definition nov_26_2025 : datetime :=
  {| year := 2025; month := 11; day := 26; hour := 8; minute := 25; second := 0;
     microsecond := 0; tzinfo := Some 0%Z |}.

(** 2025-12-25T10:00:00+00:00 *)
Definition dec_25_2025 : datetime :=
  {| year := 2025; month := 12; day := 25; hour := 10; minute := 0; second := 0;
     microsecond := 0; tzinfo := Some 0%Z |}.

(** 2025-10-25T10:00:00+00:00 *)
Definition oct_25_2025 : datetime :=
  {| year := 2025; month := 10; day := 25; hour := 10; minute := 0; second := 0;
     microsecond := 0; tzinfo := Some 0%Z |}.

(** A date in the format of the module docstring ([Qua, nov 26 2025
    08:25:00]) with the given month word, and its English counterpart. *)
Definition pt_date (month_word : str) : str :=
  py "Qua, " ++ month_word ++ py " 26 2025 08:25:00".

Definition en_date (month_word : str) : str :=
  py "Wed, " ++ month_word ++ py " 26 2025 08:25:00".

(** The same with the day first and no weekday. *)
Definition day_first_date (month_word : str) : str :=
  py "26 " ++ month_word ++ py " 2025 08:25:00".

(** ** What the further properties are stated with *)

(** [k] matches [m] character by character, ignoring case. *)
Definition ci_equal (k m : str) : Prop := Forall2 (fun x c => ci_eq x c = true) k m.

(** The shape of what the image pattern matches: [http://] or [https://],
    a non-empty body, a dot and one of the extensions, with no whitespace,
    quote or angle bracket after the scheme. *)
Definition image_url_shape (u : str) : Prop :=
  exists scheme body ext k,
    u = scheme ++ body ++ 46%N :: ext
    /\ (ci_equal (py "http://") scheme \/ ci_equal (py "https://") scheme)
    /\ body <> []
    /\ In k image_extensions /\ ci_equal k ext
    /\ forallb url_char (body ++ 46%N :: ext) = true.

(** A list-valued key gives no URL: it is absent or empty, or the
    attribute of its first element is missing or empty. *)
Definition no_url (l : option (list (option str))) : Prop :=
  match l with
  | Some (x :: _) => truthy x = false
  | _ => True
  end.

(** The feed [f] with other entries. *)
Definition with_entries (f : feed) (es : list entry) : feed :=
  {| f_title := f_title f; f_image := f_image f; entries := es |}.

(** The rows of [news] that belong to a feed. *)
Definition rows_of (rss : str) (w : world) : list news_row :=
  filter (has_rss rss) (news w).

(** An ASCII date with a weekday, for witnesses. *)
Definition documented_example : str := py "Qua, nov 26 2025 08:25:00".

(** An entry with an enclosure and an image in its summary. *)
Definition enclosure_entry : entry :=
  {| media_content := None;
     enclosures := Some [Some (py "https://example.org/enclosure.mp3")];
     media_thumbnail := None;
     summary := Some (py "<img src='https://example.org/inline.png'>");
     description := None;
     e_link := Some (py "https://example.org/a"); e_title := Some (py "Titulo");
     e_published := Some (py "Wed, 26 Nov 2025 11:01:00 GMT"); e_updated := None |}.

(** A call the executor may make: a thumbnail request, a duplicate lookup
    or an article insert. *)
Definition executor_call (c : call) : Prop :=
  match c with
  | CreateThumbnail _ | SelectArticle _ | InsertArticle _ => True
  | _ => False
  end.

(** A call of the duplicate check or of the insert. *)
Definition article_call (c : call) : Prop :=
  match c with
  | SelectArticle _ | InsertArticle _ => True
  | _ => False
  end.

(** The thumbnail request an item starts with, when the feed's row is
    known and the item has an image URL. *)
Definition thumbnail_request (news_id : option positive) (n : noticia) : list call :=
  match news_id, image_url n with
  | Some _, Some (x :: u) => [CreateThumbnail (x :: u)]
  | _, _ => []
  end.

(** The [article] rows that carry a feed's URL. *)
Definition articles_of (rss : str) (w : world) : list article_row :=
  filter (fun r => str_eqb (a_rss_url r) rss) (article w).

(** What identifies a row of [news]: everything but [last_article]. *)
Definition row_identity (r : news_row) : positive * str * option str * option str :=
  (n_id r, n_rss_url r, n_name r, n_icon_url r).

(** The effects of a download that makes [n] requests: the requests, with
    a pause of one second after the first and of two after the second. *)
Definition backoff_trace (url : str) (referer : option str) (n : nat)
    : list ImageUtils.effect :=
  firstn (2 * n - 1)
    [ImageUtils.HttpGet url referer; ImageUtils.Sleep 1;
     ImageUtils.HttpGet url referer; ImageUtils.Sleep 2;
     ImageUtils.HttpGet url referer].

(** A status on which [raise_for_status] raises. *)
Definition error_status (s : Z) : Prop := (400 <= s < 600)%Z.

(** An effect on the network: a request or a pause. *)
Definition network_effect (x : ImageUtils.effect) : Prop :=
  match x with
  | ImageUtils.HttpGet _ _ | ImageUtils.Sleep _ => True
  | _ => False
  end.

(** A server that answers every request with the given status and content
    type, with PIL and a bucket that never fail. *)
Definition plain_env (status : Z) (ctype : string) : ImageUtils.env :=
  {| ImageUtils.origin_of := fun _ => Ret (Some (py "https://example.org"));
     ImageUtils.http_get := fun _ _ =>
       ImageUtils.Answer {| ImageUtils.status_code := status;
                            ImageUtils.content_type := Some (py ctype);
                            ImageUtils.content := [] |};
     ImageUtils.image_open := fun _ =>
       Some {| ImageUtils.mode := py "RGBA"; ImageUtils.has_transparency := false;
               ImageUtils.pixels := 0 |};
     ImageUtils.convert_pixels := fun _ i => Some (ImageUtils.pixels i);
     ImageUtils.thumbnail_pixels := fun _ i => Some (ImageUtils.pixels i);
     ImageUtils.paste_on_white := fun i => Some (ImageUtils.pixels i);
     ImageUtils.save_jpeg := fun _ _ => Some [255; 216]%N;
     ImageUtils.uuid4 := fun _ => py "0000";
     ImageUtils.upload_raises := fun _ => false;
     ImageUtils.public_url_of := fun _ name =>
       Ret (ImageUtils.UrlText (py "https://cdn.example/" ++ name));
     ImageUtils.dict_repr := fun _ => [] |}.

(** Another feed, for witnesses. *)
Definition other_feed_url : str := py "https://example.com/rss".


(** A store that knows two feeds. *)
Definition two_feed_world : world :=
  {| news := [ {| n_id := 1; n_rss_url := feed_url; n_name := Some (py "Jornal");
                  n_icon_url := None; n_last_article := Some (Iso 20%Z) |};
               {| n_id := 2; n_rss_url := other_feed_url; n_name := Some (py "Outro");
                  n_icon_url := None; n_last_article := Some (Iso 5%Z) |} ];
     article := []; log := [] |}.

(** The item carries a [datetime]. *)
Definition has_datetime (n : noticia) : bool := is_some (published n).

(** [a] is at least as new as [b]. *)
Definition not_older (a b : noticia) : Prop := not_after (published b) (published a).

(** The sort key of a pair is the date of its item. *)
Definition keyed (x : instant * noticia) : Prop := published (snd x) = Some (fst x).

(** The order of the sort keys, newest first. *)
Definition key_not_older (a b : instant * noticia) : Prop := (fst b <= fst a)%Z.

(** * Proofs *)

(** ** Strings *)

Lemma str_eqb_refl (a : str) : str_eqb a a = true.
Proof.
  induction a as [|x a IH]; simpl; [reflexivity|].
  now rewrite N.eqb_refl, IH.
Qed.

Lemma str_eqb_eq (a b : str) : str_eqb a b = true <-> a = b.
Proof.
  split; [|intros ->; apply str_eqb_refl].
  revert b; induction a as [|x a IH]; intros [|y b]; simpl; try discriminate; auto.
  intros H. apply andb_true_iff in H as [Hx Hr].
  apply N.eqb_eq in Hx. apply IH in Hr. congruence.
Qed.

Lemma str_eqb_neq (a b : str) : a <> b -> str_eqb a b = false.
Proof.
  intros H. destruct (str_eqb a b) eqn:E; [|reflexivity].
  apply str_eqb_eq in E. contradiction.
Qed.

(** ** The planner *)

Lemma later_assoc (a b c : option instant) : later (later a b) c = later a (later b c).
Proof.
  destruct a, b, c; simpl; try reflexivity. now rewrite Z.max_assoc.
Qed.

Lemma later_none_r (a : option instant) : later a None = a.
Proof. now destruct a. Qed.

Lemma plan_fold (wm : option instant) (ns : list noticia) :
  forall m acc,
    fold_left (plan_step wm) ns (m, acc) =
    (later m (latest ns),
     acc ++ filter (fun n => match published n with
                             | Some p => match wm with
                                         | None => true
                                         | Some l => (p >? l)%Z
                                         end
                             | None => false
                             end) ns).
Proof.
  induction ns as [|n ns IH]; intros m acc; simpl.
  - now rewrite later_none_r, app_nil_r.
  - destruct (published n) as [p|] eqn:Hp.
    + rewrite IH. f_equal.
      * rewrite <- later_assoc. f_equal.
        destruct m as [x|]; simpl; [|reflexivity].
        destruct (Z.gtb_spec p x); f_equal; lia.
      * destruct (match wm with None => true | Some l => (p >? l)%Z end);
          [now rewrite <- app_assoc | reflexivity].
    + rewrite IH. reflexivity.
Qed.

Lemma plan_max (ns : list noticia) (wm : option instant) :
  fst (plan ns wm) = latest ns.
Proof. unfold plan. now rewrite plan_fold. Qed.

Lemma plan_newer (ns : list noticia) (wm : instant) :
  snd (plan ns (Some wm)) = filter (published_after wm) ns.
Proof. unfold plan. now rewrite plan_fold. Qed.

Lemma plan_first_run (ns : list noticia) :
  snd (plan ns None) =
  filter (fun n => match published n with Some _ => true | None => false end) ns.
Proof. unfold plan. now rewrite plan_fold. Qed.

Lemma latest_upper_bound (ns : list noticia) (n : noticia) (p : instant) :
  In n ns -> published n = Some p ->
  exists m, latest ns = Some m /\ (p <= m)%Z.
Proof.
  induction ns as [|x ns IH]; simpl; [tauto|].
  intros [->|Hin] Hp.
  - rewrite Hp. destruct (latest ns) as [m|]; simpl; eexists; split; eauto; lia.
  - destruct (IH Hin Hp) as [m [-> Hle]].
    destruct (published x); simpl; eexists; split; eauto; lia.
Qed.

Lemma latest_attained (ns : list noticia) (m : instant) :
  latest ns = Some m -> exists n, In n ns /\ published n = Some m.
Proof.
  revert m; induction ns as [|x ns IH]; simpl; [discriminate|].
  intros m H.
  destruct (published x) as [p|] eqn:Hp, (latest ns) as [q|] eqn:Hq;
    simpl in H; try discriminate; injection H as <-.
  - destruct (Z.max_spec p q) as [[_ ->]|[_ ->]].
    + destruct (IH q eq_refl) as [n [Hin Hn]]. eauto.
    + eauto.
  - eauto.
  - destruct (IH q eq_refl) as [n [Hin Hn]]. eauto.
Qed.

Lemma new_watermark_later (wm m : option instant) :
  new_watermark wm m = later wm m.
Proof.
  unfold new_watermark, should_update.
  destruct m as [x|], wm as [l|]; simpl; try reflexivity.
  destruct (Z.gtb_spec x l); f_equal; lia.
Qed.

Lemma filter_none {A : Type} (f : A -> bool) (l : list A) :
  (forall x, In x l -> f x = false) -> filter f l = [].
Proof.
  induction l as [|x l IH]; simpl; intros H; [reflexivity|].
  rewrite (H x (or_introl eq_refl)). apply IH. intros y Hy. apply H. now right.
Qed.

Lemma filter_all {A : Type} (f : A -> bool) (l : list A) :
  (forall x, In x l -> f x = true) -> filter f l = l.
Proof.
  induction l as [|x l IH]; simpl; intros H; [reflexivity|].
  rewrite (H x (or_introl eq_refl)). f_equal. apply IH. intros y Hy. apply H. now right.
Qed.

(** Every item [scrape_rss] returns carries a [datetime]. *)
Lemma scrape_rss_published dateutil fetch_page urljoin rss f :
  Forall (fun n => published n <> None)
         (snd (scrape_rss dateutil fetch_page urljoin rss f)).
Proof.
  apply Forall_forall. intros n Hin. unfold scrape_rss in Hin. cbn [snd] in Hin.
  apply in_flat_map in Hin as [e [_ Hn]].
  unfold scrape_entry in Hn.
  destruct (parse_rss_date_to_dt dateutil _) as [d|]; [|destruct Hn].
  destruct (astimezone_utc d) as [t|]; [|destruct Hn].
  destruct (extract_image fetch_page urljoin e) as [img|]; [|destruct Hn].
  destruct Hn as [<-|[]]. discriminate.
Qed.

(** C2. For every sequence of fetched items (each carries a [datetime]) and
    every stored watermark [wm], the planner selects exactly the items whose
    [published] is strictly greater than [wm], in feed order, so an item
    published exactly at [wm] is left out; with no watermark every item is
    selected, and the new watermark is [latest ns], the maximum published
    instant: it bounds every item and one of the items attains it. *)
Theorem plan_selects_strictly_newer (ns : list noticia) (wm : instant) :
  Forall (fun n => published n <> None) ns ->
  snd (plan ns (Some wm)) = filter (published_after wm) ns
  /\ (forall n, published n = Some wm -> ~ In n (snd (plan ns (Some wm))))
  /\ snd (plan ns None) = ns
  /\ new_watermark None (fst (plan ns None)) = latest ns
  /\ (forall n p, In n ns -> published n = Some p ->
        exists m, latest ns = Some m /\ (p <= m)%Z)
  /\ (forall m, latest ns = Some m -> exists n, In n ns /\ published n = Some m).
Proof.
  intros Hdt. repeat split.
  - apply plan_newer.
  - intros n Hn Hin. rewrite plan_newer in Hin.
    apply filter_In in Hin as [_ H]. unfold published_after in H.
    rewrite Hn in H. apply Z.gtb_lt in H. lia.
  - rewrite plan_first_run. apply filter_all. intros n Hin.
    rewrite Forall_forall in Hdt. specialize (Hdt n Hin).
    now destruct (published n).
  - now rewrite plan_max, new_watermark_later.
  - apply latest_upper_bound.
  - apply latest_attained.
Qed.

Lemma plan_selects_strictly_newer_witness :
  snd (plan three_items (Some 20%Z)) = [item (Some (py "https://example.org/b")) None 30%Z]
  /\ snd (plan three_items None) = three_items
  /\ new_watermark None (fst (plan three_items None)) = Some 30%Z.
Proof.
  destruct (plan_selects_strictly_newer (ns := three_items) 20%Z) as (H1 & _ & H3 & H4 & _).
  - repeat constructor; discriminate.
  - split; [|split].
    + etransitivity; [exact H1 | reflexivity].
    + exact H3.
    + etransitivity; [exact H4 | reflexivity].
Defined.

(** C3. Planning is idempotent: planning the same items again with the
    watermark the first run leaves behind selects nothing. *)
Theorem replanning_selects_nothing (ns : list noticia) (wm : option instant) :
  snd (plan ns (new_watermark wm (fst (plan ns wm)))) = [].
Proof.
  rewrite plan_max, new_watermark_later.
  destruct (later wm (latest ns)) as [w'|] eqn:Hw.
  - rewrite plan_newer. apply filter_none. intros n Hin.
    unfold published_after. destruct (published n) as [p|] eqn:Hp; [|reflexivity].
    destruct (latest_upper_bound ns n Hin Hp) as [m [Hm Hle]].
    rewrite Hm in Hw. rewrite Z.gtb_ltb. apply Z.ltb_ge.
    destruct wm as [l|]; simpl in Hw; injection Hw as <-; lia.
  - rewrite plan_first_run. apply filter_none. intros n Hin.
    destruct (published n) as [p|] eqn:Hp; [|reflexivity].
    destruct (latest_upper_bound ns n Hin Hp) as [m [Hm _]].
    rewrite Hm in Hw. destruct wm; discriminate.
Qed.

(** ** The executor *)

Lemma clock_tick (c : call) (w : world) : clock (tick c w) = S (clock w).
Proof. unfold clock, tick; simpl. rewrite length_app; simpl. lia. Qed.

Lemma firstn_1_nil {A : Type} (l : list A) : firstn 1 l = [] -> l = [].
Proof. destruct l; [reflexivity | discriminate]. Qed.

Lemma insert_step_duplicate o nid rss n th w c x l :
  link n = Some (x :: l) ->
  select_raises o (clock w) = false ->
  filter (has_link (x :: l)) (article w) <> [] ->
  insert_step o nid rss n th (w, c) = (tick (SelectArticle (x :: l)) w, count_dup c).
Proof.
  intros Hl Hs Hf. unfold insert_step, select_article. rewrite Hl, Hs.
  destruct (filter (has_link (x :: l)) (article w)); [contradiction | reflexivity].
Qed.

Lemma insert_step_lookup_raises o nid rss n th w c x l :
  link n = Some (x :: l) ->
  select_raises o (clock w) = true ->
  insert_step o nid rss n th (w, c) = (tick (SelectArticle (x :: l)) w, count_failure c).
Proof.
  intros Hl Hs. unfold insert_step, select_article. now rewrite Hl, Hs.
Qed.

Lemma insert_step_new o nid rss n th w c x l :
  link n = Some (x :: l) ->
  select_raises o (clock w) = false ->
  filter (has_link (x :: l)) (article w) = [] ->
  insert_step o nid rss n th (w, c) =
  attempt_insert o (row_of nid rss n th) (tick (SelectArticle (x :: l)) w) c.
Proof.
  intros Hl Hs Hf. unfold insert_step, select_article, attempt_insert, insert_article.
  rewrite Hl, Hs, Hf. simpl firstn. cbv iota.
  unfold row_of. rewrite Hl.
  destruct (insert_fate o (clock (tick (SelectArticle (x :: l)) w))); reflexivity.
Qed.

Lemma insert_step_no_link o nid rss n th w c :
  truthy (link n) = false ->
  insert_step o nid rss n th (w, c) = attempt_insert o (row_of nid rss n th) w c.
Proof.
  intros Hl. unfold insert_step, attempt_insert, insert_article, row_of.
  destruct (link n) as [[|x l]|]; try discriminate;
    destruct (insert_fate o (clock w)); reflexivity.
Qed.

(** What one [insert_step] can do to the store. *)
Lemma insert_step_store o nid rss n th w c :
  news (fst (insert_step o nid rss n th (w, c))) = news w
  /\ (article (fst (insert_step o nid rss n th (w, c))) = article w
      \/ (article (fst (insert_step o nid rss n th (w, c)))
            = article w ++ [row_of nid rss n th]
          /\ forall x l, link n = Some (x :: l) ->
               filter (has_link (x :: l)) (article w) = [])).
Proof.
  destruct (truthy (link n)) eqn:Ht.
  - destruct (link n) as [[|x l]|] eqn:Hl; try discriminate.
    destruct (select_raises o (clock w)) eqn:Hs.
    + rewrite (insert_step_lookup_raises o nid rss n th w c Hl Hs). simpl. auto.
    + destruct (filter (has_link (x :: l)) (article w)) eqn:Hf.
      * rewrite (insert_step_new o nid rss n th w c Hl Hs Hf).
        unfold attempt_insert.
        destruct (insert_fate o _); simpl; split; auto.
        right. split; [reflexivity|]. intros x' l' E. now injection E as <- <-.
      * rewrite (insert_step_duplicate o nid rss n th w c Hl Hs); simpl; auto.
        rewrite Hf. discriminate.
  - rewrite insert_step_no_link by assumption. unfold attempt_insert.
    destruct (insert_fate o _); simpl; split; auto.
    right. split; [reflexivity|]. intros x l E. rewrite E in Ht. discriminate.
Qed.

Lemma process_item_store o news_id rss n w c :
  news (fst (process_item o news_id rss (w, c) n)) = news w
  /\ (article (fst (process_item o news_id rss (w, c) n)) = article w
      \/ exists nid th,
           article (fst (process_item o news_id rss (w, c) n))
             = article w ++ [row_of nid rss n th]
           /\ forall x l, link n = Some (x :: l) ->
                filter (has_link (x :: l)) (article w) = []).
Proof.
  unfold process_item. destruct news_id as [nid|]; [|simpl; auto].
  destruct (image_url n) as [[|y u]|].
  - destruct (insert_step_store o nid rss n None w c) as [H1 [H2|H2]]; eauto.
  - unfold create_and_upload_thumbnail.
    destruct (thumbnail_of o (clock w) (y :: u)) as [th|].
    + destruct (insert_step_store o nid rss n (Some th) (tick (CreateThumbnail (y :: u)) w) c)
        as [H1 [H2|H2]]; eauto.
    + destruct (insert_step_store o nid rss n None (tick (CreateThumbnail (y :: u)) w)
                  (count_failure c)) as [H1 [H2|H2]]; eauto.
  - destruct (insert_step_store o nid rss n None w c) as [H1 [H2|H2]]; eauto.
Qed.

Lemma execute_cons o news_id rss n ns st :
  execute o news_id rss (n :: ns) st
  = execute o news_id rss ns (process_item o news_id rss st n).
Proof. reflexivity. Qed.

Lemma execute_news o news_id rss ns :
  forall w c, news (fst (execute o news_id rss ns (w, c))) = news w.
Proof.
  induction ns as [|n ns IH]; intros w c; [reflexivity|].
  rewrite execute_cons.
  destruct (process_item o news_id rss (w, c) n) as [w1 c1] eqn:E.
  rewrite IH. change w1 with (fst (w1, c1)). rewrite <- E.
  apply process_item_store.
Qed.

(** One item adds at most one row with a given non-empty link, and none
    when the store already has one. *)
Lemma process_item_count o news_id rss n w c lnk :
  lnk <> [] ->
  count_link lnk w <= count_link lnk (fst (process_item o news_id rss (w, c) n))
  /\ count_link lnk (fst (process_item o news_id rss (w, c) n))
     <= Nat.max 1 (count_link lnk w).
Proof.
  intros Hne. unfold count_link.
  destruct (process_item_store o news_id rss n w c) as [_ [-> | (nid & th & -> & Hnew)]];
    [lia|].
  rewrite filter_app, length_app. cbn [filter].
  assert (Hrow : has_link lnk (row_of nid rss n th)
                 = match link n with Some l => str_eqb l lnk | None => false end)
    by reflexivity.
  rewrite Hrow. clear Hrow.
  destruct (link n) as [l'|] eqn:Hl; cbn [List.length]; [|lia].
  destruct (str_eqb l' lnk) eqn:E; cbn [List.length]; [|lia].
  apply str_eqb_eq in E. subst l'.
  destruct lnk as [|x l]; [contradiction|].
  rewrite (Hnew x l eq_refl). cbn [List.length]. lia.
Qed.

Lemma execute_count o news_id rss ns lnk :
  lnk <> [] ->
  forall w c,
    count_link lnk w <= count_link lnk (fst (execute o news_id rss ns (w, c)))
    /\ count_link lnk (fst (execute o news_id rss ns (w, c)))
       <= Nat.max 1 (count_link lnk w).
Proof.
  intros Hne. induction ns as [|n ns IH]; intros w c;
    [unfold execute; cbn [fold_left fst]; lia|].
  rewrite execute_cons.
  destruct (process_item o news_id rss (w, c) n) as [w1 c1] eqn:E.
  specialize (IH w1 c1).
  pose proof (process_item_count o news_id rss n w c Hne) as H.
  rewrite E in H. cbn [fst] in H. lia.
Qed.

Lemma calls_since_app (w : world) (l : list call) (w' : world) :
  log w' = log w ++ l -> calls_since (clock w) w' = l.
Proof.
  unfold calls_since, clock. intros ->.
  induction (log w) as [|x xs IH]; [reflexivity | exact IH].
Qed.

Lemma clock_before_insert (w : world) (n : noticia) :
  clock (before_insert w n) = insert_time w n.
Proof.
  unfold before_insert, insert_time, check_time.
  destruct (link n) as [[|x l]|], (image_url n) as [[|y u]|]; simpl;
    rewrite ?clock_tick; reflexivity.
Qed.

Lemma attempt_insert_log o row w c :
  log (fst (attempt_insert o row w c)) = log w ++ [InsertArticle row].
Proof. unfold attempt_insert. now destruct (insert_fate o (clock w)). Qed.

Lemma insert_step_failures o nid rss n th w c :
  failures c <= failures (snd (insert_step o nid rss n th (w, c))).
Proof.
  destruct (truthy (link n)) eqn:Ht.
  - destruct (link n) as [[|x l]|] eqn:Hl; try discriminate.
    destruct (select_raises o (clock w)) eqn:Hs.
    + rewrite (insert_step_lookup_raises o nid rss n th w c Hl Hs). simpl. lia.
    + destruct (filter (has_link (x :: l)) (article w)) eqn:Hf.
      * rewrite (insert_step_new o nid rss n th w c Hl Hs Hf).
        unfold attempt_insert. destruct (insert_fate o _); simpl; lia.
      * rewrite (insert_step_duplicate o nid rss n th w c Hl Hs); simpl; [lia|].
        rewrite Hf. discriminate.
  - rewrite insert_step_no_link by assumption. unfold attempt_insert.
    destruct (insert_fate o _); simpl; lia.
Qed.

(** An item whose thumbnail cannot be derived and which is not a duplicate
    goes to the insert with one failure counted and no thumbnail. *)
Lemma process_item_degraded o nid rss n w c url :
  image_url n = Some url -> url <> [] ->
  thumbnail_of o (clock w) url = None ->
  not_a_duplicate o w n ->
  process_item o (Some nid) rss (w, c) n
  = attempt_insert o (row_of nid rss n None) (before_insert w n) (count_failure c).
Proof.
  intros Hi Hne Hth Hnd. destruct url as [|y u]; [contradiction|].
  unfold process_item, create_and_upload_thumbnail, before_insert.
  rewrite Hi, Hth. unfold not_a_duplicate, check_time in Hnd. rewrite Hi in Hnd.
  simpl truthy in Hnd. cbv iota in Hnd.
  destruct (link n) as [[|x l]|] eqn:Hl.
  - apply insert_step_no_link. now rewrite Hl.
  - destruct Hnd as [Hs Hf]. apply insert_step_new; auto.
    now rewrite clock_tick.
  - apply insert_step_no_link. now rewrite Hl.
Qed.

(** C4, as amended. An item whose link is non-empty and already carried by
    a stored article is, once its duplicate lookup answers, counted as a
    duplicate and skipped: the lookup is the last call made for it, no
    insert is sent and the [article] table is unchanged. Consequently two
    sequential executor runs over the same items add at most one article
    per non-empty link, and none for a link the store already had. *)
Theorem duplicate_link_skipped_and_inserted_once :
  (forall o nid rss n w c lnk,
     link n = Some lnk -> lnk <> [] ->
     select_raises o (check_time w n) = false ->
     (exists r, In r (article w) /\ a_link r = Some lnk) ->
     article (fst (process_item o (Some nid) rss (w, c) n)) = article w
     /\ dup_skipped (snd (process_item o (Some nid) rss (w, c) n)) = S (dup_skipped c)
     /\ inserted (snd (process_item o (Some nid) rss (w, c) n)) = inserted c
     /\ exists before,
          calls_since (clock w) (fst (process_item o (Some nid) rss (w, c) n))
            = before ++ [SelectArticle lnk]
          /\ forall row, ~ In (InsertArticle row) before)
  /\
  (forall o news_id rss ns w c c' lnk,
     lnk <> [] ->
     count_link lnk
       (fst (execute o news_id rss ns (fst (execute o news_id rss ns (w, c)), c')))
     <= Nat.max 1 (count_link lnk w)).
Proof.
  split.
  - intros o nid rss n w c lnk Hl Hne Hs [r [Hin Hr]].
    destruct lnk as [|x l]; [contradiction|].
    assert (Hf : filter (has_link (x :: l)) (article w) <> []).
    { intros E. assert (Hin' : In r (filter (has_link (x :: l)) (article w))).
      { apply filter_In. split; [assumption|]. unfold has_link. rewrite Hr.
        apply str_eqb_refl. }
      rewrite E in Hin'. destruct Hin'. }
    unfold process_item, check_time in *.
    destruct (image_url n) as [[|y u]|]; simpl truthy in Hs; cbv iota in Hs.
    + rewrite (insert_step_duplicate o nid rss n None w c Hl Hs Hf). simpl.
      repeat split. exists []. split; [|intros row []].
      apply calls_since_app. reflexivity.
    + unfold create_and_upload_thumbnail.
      rewrite <- (clock_tick (CreateThumbnail (y :: u)) w) in Hs.
      destruct (thumbnail_of o (clock w) (y :: u)) as [th|].
      * rewrite (insert_step_duplicate o nid rss n (Some th) _ c Hl Hs Hf). simpl.
        repeat split. exists [CreateThumbnail (y :: u)]. split.
        -- apply calls_since_app. simpl. now rewrite <- app_assoc.
        -- intros row [E|[]]. discriminate.
      * rewrite (insert_step_duplicate o nid rss n None _ (count_failure c) Hl Hs Hf).
        simpl. repeat split. exists [CreateThumbnail (y :: u)]. split.
        -- apply calls_since_app. simpl. now rewrite <- app_assoc.
        -- intros row [E|[]]. discriminate.
    + rewrite (insert_step_duplicate o nid rss n None w c Hl Hs Hf). simpl.
      repeat split. exists []. split; [|intros row []].
      apply calls_since_app. reflexivity.
  - intros o news_id rss ns w c c' lnk Hne.
    pose proof (execute_count o news_id rss ns Hne w c) as H1.
    pose proof (execute_count o news_id rss ns Hne
                  (fst (execute o news_id rss ns (w, c))) c') as H2.
    lia.
Qed.

Lemma duplicate_link_skipped_and_inserted_once_witness :
  dup_skipped (snd (process_item reliable (Some 1%positive) feed_url
                      (world_with_article, zero) imageful_item)) = 1
  /\ article (fst (process_item reliable (Some 1%positive) feed_url
                     (world_with_article, zero) imageful_item))
     = article world_with_article.
Proof.
  destruct (proj1 duplicate_link_skipped_and_inserted_once
              reliable 1%positive feed_url imageful_item world_with_article zero
              (py "https://example.org/a")) as (H1 & H2 & _).
  - reflexivity.
  - discriminate.
  - reflexivity.
  - eexists. split; [left; reflexivity | reflexivity].
  - split; [exact H2 | exact H1].
Defined.

(** C4 as stated fails for a link that is not null but empty: the lookup is
    skipped, and two runs over the same item store it twice. *)
Lemma empty_link_inserted_twice :
  link empty_link_item <> None
  /\ count_link []
       (fst (execute reliable (Some 1%positive) feed_url [empty_link_item]
               (fst (execute reliable (Some 1%positive) feed_url [empty_link_item]
                       (empty_world, zero)), zero))) = 2.
Proof. split; [discriminate | reflexivity]. Qed.

(** C6, as amended. When the feed has no id ([news_id] is missing) every
    planned item is counted as a failure and nothing is attempted: no call
    is made and the store is unchanged. *)
Theorem missing_feed_id_fails_every_item o rss ns w c :
  execute o None rss ns (w, c) = (w, add_failures (List.length ns) c).
Proof.
  revert c. induction ns as [|n ns IH]; intros c.
  - unfold execute, add_failures. simpl. destruct c; simpl. now rewrite Nat.add_0_r.
  - rewrite execute_cons. unfold process_item at 1. rewrite IH.
    unfold add_failures, count_failure. simpl. f_equal. f_equal. lia.
Qed.

(** C6 as stated fails: an item whose link is null, in a feed that has an
    id, is sent to the store and counted as inserted, not as a failure. *)
Lemma linkless_item_is_inserted :
  link linkless_item = None
  /\ execute reliable (Some 1%positive) feed_url [linkless_item] (empty_world, zero)
     = ({| news := [];
           article := [row_of 1 feed_url linkless_item None];
           log := [InsertArticle (row_of 1 feed_url linkless_item None)] |},
        {| inserted := 1; dup_skipped := 0; failures := 0 |}).
Proof. split; reflexivity. Qed.

(** C5. When the thumbnail of an item with an image URL cannot be derived,
    the failure is counted and the item is then processed exactly as the
    same item without an image: unless the duplicate check skips it, the
    insert is sent with a null thumbnail, and a store that accepts it gets
    the row and counts it as inserted. *)
Theorem thumbnail_failure_does_not_block_insert o nid rss n w c url :
  image_url n = Some url -> url <> [] ->
  thumbnail_of o (clock w) url = None ->
  process_item o (Some nid) rss (w, c) n
  = process_item o (Some nid) rss
      (tick (CreateThumbnail url) w, count_failure c) (without_image n)
  /\ S (failures c) <= failures (snd (process_item o (Some nid) rss (w, c) n))
  /\ (not_a_duplicate o w n ->
      In (InsertArticle (row_of nid rss n None))
         (calls_since (clock w) (fst (process_item o (Some nid) rss (w, c) n)))
      /\ (insert_fate o (insert_time w n) = Works ->
          article (fst (process_item o (Some nid) rss (w, c) n))
            = article w ++ [row_of nid rss n None]
          /\ inserted (snd (process_item o (Some nid) rss (w, c) n)) = S (inserted c))).
Proof.
  intros Hi Hne Hth.
  assert (E : process_item o (Some nid) rss (w, c) n
              = insert_step o nid rss n None
                  (tick (CreateThumbnail url) w, count_failure c)).
  { destruct url as [|y u]; [contradiction|].
    unfold process_item, create_and_upload_thumbnail. now rewrite Hi, Hth. }
  split; [|split].
  - rewrite E. reflexivity.
  - rewrite E.
    pose proof (insert_step_failures o nid rss n None
                  (tick (CreateThumbnail url) w) (count_failure c)) as H.
    simpl in H. exact H.
  - intros Hnd. rewrite (process_item_degraded o nid rss n w c Hi Hne Hth Hnd).
    split.
    + assert (Hlog : exists pre,
                 log (before_insert w n) = log w ++ pre).
      { unfold before_insert. rewrite Hi. destruct url as [|y u]; [contradiction|].
        destruct (link n) as [[|x l]|]; simpl;
          rewrite <- ?app_assoc; eexists; reflexivity. }
      destruct Hlog as [pre Hpre].
      rewrite (@calls_since_app w (pre ++ [InsertArticle (row_of nid rss n None)])).
      * apply in_or_app. right. now left.
      * rewrite attempt_insert_log, Hpre. now rewrite <- app_assoc.
    + intros Hw. unfold attempt_insert. rewrite clock_before_insert, Hw. simpl.
      split; [|reflexivity].
      unfold before_insert. rewrite Hi. destruct url as [|y u]; [contradiction|].
      destruct (link n) as [[|x l]|]; reflexivity.
Qed.

Lemma thumbnail_failure_does_not_block_insert_witness :
  article (fst (process_item no_thumbnails (Some 1%positive) feed_url
                  (empty_world, zero) imageful_item))
  = [row_of 1 feed_url imageful_item None]
  /\ failures (snd (process_item no_thumbnails (Some 1%positive) feed_url
                      (empty_world, zero) imageful_item)) = 1.
Proof.
  destruct (thumbnail_failure_does_not_block_insert
              no_thumbnails 1%positive feed_url imageful_item empty_world zero
              (url := py "https://example.org/a.jpg")) as (_ & _ & H).
  - reflexivity.
  - discriminate.
  - reflexivity.
  - destruct H as [_ H].
    + split; reflexivity.
    + destruct H as [H _]; [reflexivity|]. split; [exact H | reflexivity].
Defined.

(** C10. The counters do not partition the items: an item with an image URL
    whose thumbnail cannot be derived and whose insert succeeds adds one to
    [failures] and one to [inserted]; so a run exists in which
    [inserted + dup_skipped + failures] exceeds the number of items. *)
Theorem counters_do_not_partition :
  (forall o nid rss n w c url,
     image_url n = Some url -> url <> [] ->
     thumbnail_of o (clock w) url = None ->
     not_a_duplicate o w n ->
     insert_fate o (insert_time w n) = Works ->
     failures (snd (process_item o (Some nid) rss (w, c) n)) = S (failures c)
     /\ inserted (snd (process_item o (Some nid) rss (w, c) n)) = S (inserted c)
     /\ dup_skipped (snd (process_item o (Some nid) rss (w, c) n)) = dup_skipped c)
  /\ (exists o nid rss ns w,
        List.length ns < total (snd (execute o nid rss ns (w, zero)))).
Proof.
  split.
  - intros o nid rss n w c url Hi Hne Hth Hnd Hw.
    rewrite (process_item_degraded o nid rss n w c Hi Hne Hth Hnd).
    unfold attempt_insert. rewrite clock_before_insert, Hw. simpl. auto.
  - exists no_thumbnails, (Some 1%positive), feed_url, [imageful_item], empty_world.
    vm_compute. lia.
Qed.

Lemma counters_do_not_partition_witness :
  failures (snd (process_item no_thumbnails (Some 1%positive) feed_url
                   (empty_world, zero) imageful_item)) = 1
  /\ inserted (snd (process_item no_thumbnails (Some 1%positive) feed_url
                      (empty_world, zero) imageful_item)) = 1.
Proof.
  destruct (proj1 counters_do_not_partition
              no_thumbnails 1%positive feed_url imageful_item empty_world zero
              (py "https://example.org/a.jpg")) as (H1 & H2 & _).
  - reflexivity.
  - discriminate.
  - reflexivity.
  - split; reflexivity.
  - reflexivity.
  - split; [exact H1 | exact H2].
Defined.

(** ** The watermark *)

Lemma stored_watermark_rows rss w : stored_watermark rss w = watermark_of rss (news w).
Proof. reflexivity. Qed.

Lemma has_rss_set_last_article rss t r :
  has_rss rss (set_last_article rss t r) = has_rss rss r.
Proof.
  unfold set_last_article. destruct (has_rss rss r) eqn:E; [|exact E].
  unfold has_rss in *. exact E.
Qed.

Lemma filter_set_last_article rss t rows :
  filter (has_rss rss) (map (set_last_article rss t) rows)
  = map (set_last_article rss t) (filter (has_rss rss) rows).
Proof.
  induction rows as [|r rows IH]; [reflexivity|].
  simpl. rewrite has_rss_set_last_article.
  destruct (has_rss rss r); simpl; now rewrite IH.
Qed.

(** After an applied update every row of the feed carries the new value. *)
Lemma watermark_of_updated rss t rows :
  watermark_of rss (map (set_last_article rss t) rows)
  = match filter (has_rss rss) rows with
    | [] => None
    | _ :: _ => Some t
    end.
Proof.
  unfold watermark_of. rewrite filter_set_last_article.
  destruct (filter (has_rss rss) rows) as [|r rest] eqn:E; [reflexivity|].
  assert (Hr : has_rss rss r = true).
  { assert (Hin : In r (filter (has_rss rss) rows)) by (rewrite E; now left).
    now apply filter_In in Hin. }
  simpl. unfold set_last_article. rewrite Hr. reflexivity.
Qed.

Lemma find_or_create_found o rss name icon w r rest :
  select_raises o (clock w) = false ->
  filter (has_rss rss) (news w) = r :: rest ->
  find_or_create o rss name icon w
  = (Some (n_id r), n_last_article r, tick (SelectNews rss) w).
Proof.
  intros Hs Hf. unfold find_or_create, select_news. now rewrite Hs, Hf.
Qed.

Lemma find_or_create_missing o rss name icon w :
  select_raises o (clock w) = false ->
  filter (has_rss rss) (news w) = [] ->
  exists nid w1,
    find_or_create o rss name icon w = (nid, None, w1)
    /\ watermark_of rss (news w1) = None
    /\ (insert_fate o (S (clock w)) = Works ->
        filter (has_rss rss) (news w1) <> []).
Proof.
  intros Hs Hf. unfold find_or_create, select_news, insert_news.
  rewrite Hs, Hf. simpl firstn. cbv iota. rewrite clock_tick.
  destruct (insert_fate o (S (clock w))); simpl.
  - eexists _, _. split; [reflexivity|].
    unfold watermark_of. cbn [news]. rewrite filter_app, Hf.
    cbn [filter app]. unfold has_rss. cbn [n_rss_url]. rewrite str_eqb_refl.
    cbn. split; [reflexivity | intros _; discriminate].
  - eexists _, _. split; [reflexivity|]. unfold watermark_of. simpl. rewrite Hf.
    split; [reflexivity | discriminate].
  - eexists _, _. split; [reflexivity|]. unfold watermark_of. simpl. rewrite Hf.
    split; [reflexivity | discriminate].
Qed.

Lemma run_feed_world o rss name icon ns w nid las w1 :
  find_or_create o rss name icon w = (nid, las, w1) ->
  fst (run_feed o rss name icon ns w)
  = update_watermark o rss (last_article_dt_of las) (latest ns)
      (fst (execute o nid rss (snd (plan ns (last_article_dt_of las))) (w1, zero))).
Proof.
  intros H. unfold run_feed. rewrite H.
  rewrite <- (plan_max ns (last_article_dt_of las)).
  destruct (plan ns (last_article_dt_of las)) as [mp ti]. cbn [fst snd].
  destruct (execute o nid rss ti (w1, zero)) as [w2 c]. reflexivity.
Qed.

(** The watermark after the update step, from the rows before it. *)
Lemma update_watermark_rows o rss wm m w :
  watermark_of rss (news w) = wm ->
  (watermark_of rss (news (update_watermark o rss wm m w)) = wm
   \/ (filter (has_rss rss) (news w) <> []
       /\ should_update wm m = true
       /\ watermark_of rss (news (update_watermark o rss wm m w)) = m))
  /\ ((forall t, update_raises o t = false) ->
      filter (has_rss rss) (news w) <> [] ->
      watermark_of rss (news (update_watermark o rss wm m w)) = later wm m).
Proof.
  intros Hwm. unfold update_watermark.
  destruct m as [t|]; [|rewrite later_none_r; auto].
  destruct (should_update wm (Some t)) eqn:Hu.
  - unfold update_news. destruct (update_raises o (clock w)) eqn:Hr; simpl.
    + split; [auto|]. intros Hall. rewrite Hall in Hr. discriminate.
    + rewrite watermark_of_updated.
      destruct (filter (has_rss rss) (news w)) as [|r rest] eqn:Hf.
      * split; [|intros _ Hc; now contradiction Hc].
        left. unfold watermark_of in Hwm. now rewrite Hf in Hwm.
      * split; [right; repeat split; discriminate || auto|].
        intros _ _. rewrite <- new_watermark_later. unfold new_watermark.
        now rewrite Hu.
  - split; [auto|]. intros _ _. rewrite <- new_watermark_later.
    unfold new_watermark. now rewrite Hu.
Qed.

Lemma should_update_not_after wm m :
  should_update wm m = true -> not_after wm m.
Proof.
  unfold should_update, not_after.
  destruct m as [t|]; [|discriminate]. destruct wm as [l|]; [|auto].
  intros H. apply Z.gtb_lt in H. lia.
Qed.

Lemma not_after_refl a : not_after a a.
Proof. destruct a; simpl; [lia | exact I]. Qed.

(** C1, as amended. In every feed run that reads the feed's row, the
    watermark stored afterwards is not before the one stored at the start,
    whatever happens to the items. If moreover the feed has a row when the
    run ends (it had one, or the run creates it) and the store applies the
    update, the watermark stored afterwards is the later of the one stored
    before and the maximum [published] over all fetched items: it advances
    exactly when that maximum exceeds it, also when inserts failed. *)
Theorem watermark_advances_to_latest o rss name icon ns w :
  select_raises o (clock w) = false ->
  not_after (stored_watermark rss w)
            (stored_watermark rss (fst (run_feed o rss name icon ns w)))
  /\ ((has_row rss w \/ insert_fate o (S (clock w)) = Works) ->
      (forall t, update_raises o t = false) ->
      stored_watermark rss (fst (run_feed o rss name icon ns w))
      = later (stored_watermark rss w) (latest ns)).
Proof.
  intros Hs. rewrite !stored_watermark_rows. unfold has_row.
  destruct (filter (has_rss rss) (news w)) as [|r rest] eqn:Hf.
  - destruct (find_or_create_missing o rss name icon w Hs Hf)
      as (nid & w1 & Hfc & Hw1 & Hrow).
    rewrite (run_feed_world o rss name icon ns w Hfc).
    assert (Hw : watermark_of rss (news w) = None)
      by (unfold watermark_of; now rewrite Hf).
    rewrite Hw. split; [exact I|].
    intros [Hc | Hworks] Hall; [now contradiction Hc|].
    simpl last_article_dt_of.
    set (w2 := fst (execute o nid rss (snd (plan ns None)) (w1, zero))).
    assert (Hn : news w2 = news w1) by apply execute_news.
    destruct (update_watermark_rows o rss (wm := None) (latest ns) w2) as [_ H].
    + now rewrite Hn.
    + apply H; [assumption|]. rewrite Hn. auto.
  - rewrite (run_feed_world o rss name icon ns w
               (find_or_create_found o rss name icon w Hs Hf)).
    assert (Hw : watermark_of rss (news w) = last_article_dt_of (n_last_article r))
      by (unfold watermark_of; now rewrite Hf).
    rewrite Hw.
    set (wm := last_article_dt_of (n_last_article r)) in *.
    set (w2 := fst (execute o (Some (n_id r)) rss (snd (plan ns wm))
                      (tick (SelectNews rss) w, zero))).
    assert (Hn : news w2 = news w)
      by (unfold w2; now rewrite execute_news).
    destruct (update_watermark_rows o rss (wm := wm) (latest ns) w2) as [H1 H2].
    + now rewrite Hn.
    + split.
      * destruct H1 as [-> | (_ & Hu & ->)];
          [apply not_after_refl | now apply should_update_not_after].
      * intros _ Hall. apply H2; [assumption|]. rewrite Hn, Hf. discriminate.
Qed.

Lemma watermark_advances_to_latest_witness :
  stored_watermark feed_url
    (fst (run_feed reliable feed_url None None three_items (world_with_watermark 20%Z)))
  = Some 30%Z.
Proof.
  destruct (@watermark_advances_to_latest reliable feed_url None None three_items
              (world_with_watermark 20%Z)) as [_ H].
  - reflexivity.
  - etransitivity; [apply H | reflexivity].
    + left. unfold has_row. vm_compute. discriminate.
    + reflexivity.
Defined.

(** C1 as stated fails in two ways. When the lookup of the feed's row
    raises, the run goes on without a watermark and overwrites a stored
    watermark of 100 with the maximum over the items, 50: the watermark
    decreases. When the update raises, the watermark stays at 20 although
    the maximum over the items is 30. *)
Lemma watermark_not_always_latest :
  (stored_watermark feed_url (world_with_watermark 100%Z) = Some 100%Z
   /\ latest [item None None 50%Z] = Some 50%Z
   /\ stored_watermark feed_url
        (fst (run_feed first_call_raises feed_url None None [item None None 50%Z]
                (world_with_watermark 100%Z))) = Some 50%Z)
  /\
  (stored_watermark feed_url (world_with_watermark 20%Z) = Some 20%Z
   /\ latest three_items = Some 30%Z
   /\ stored_watermark feed_url
        (fst (run_feed updates_raise feed_url None None three_items
                (world_with_watermark 20%Z))) = Some 20%Z).
Proof. repeat split. Qed.

(** ** Image resolution *)

(** When no strategy finds anything the result is [None]. *)
Lemma extract_image_none fetch_page urljoin e :
  media_content e = None -> enclosures e = None -> media_thumbnail e = None ->
  extract_image_by_extension (py_or (summary e) (description e)) = None ->
  extract_image_from_page fetch_page urljoin (e_link e) = None ->
  extract_image fetch_page urljoin e = Ret None.
Proof.
  intros H1 H2 H3 H4 H5. unfold extract_image. now rewrite H1, H2, H3, H4, H5.
Qed.

(** An unreachable page yields [None]. *)
Lemma extract_image_from_page_unreachable fetch_page urljoin u :
  fetch_page u = None -> extract_image_from_page fetch_page urljoin (Some u) = None.
Proof. intros H. unfold extract_image_from_page. now rewrite H. Qed.

(** [extract_image] returns as long as [media_thumbnail], when present, is
    not empty. *)
Lemma extract_image_returns fetch_page urljoin e :
  media_thumbnail e <> Some [] ->
  exists r, extract_image fetch_page urljoin e = Ret r.
Proof.
  intros H. unfold extract_image, return_if.
  repeat match goal with
         | |- context [match ?x with _ => _ end] => destruct x
         | |- context [if ?b then _ else _] => destruct b
         end; try contradiction; eauto.
Qed.

(** An image URL that [extract_image] returns is never empty, so no item
    of [scrape_rss] carries an empty one. *)
Lemma return_if_some url next r :
  return_if url next = Ret (Some r) -> r <> [] \/ next = Ret (Some r).
Proof.
  unfold return_if. destruct url as [[|x u]|]; cbn [truthy]; intros H; auto.
  left. injection H as <-. discriminate.
Qed.

Lemma extract_image_truthy fetch_page urljoin e url :
  extract_image fetch_page urljoin e = Ret (Some url) -> url <> [].
Proof.
  unfold extract_image. cbv zeta. intros H.
  repeat match type of H with
         | return_if _ _ = _ =>
             destruct (return_if_some _ _ H) as [?|?]; [assumption|]; clear H;
             match goal with H' : _ = Ret (Some url) |- _ => rename H' into H end
         | match ?x with _ => _ end = _ => destruct x; try discriminate
         end.
  all: try discriminate.
Qed.

Lemma scrape_rss_image_url dateutil fetch_page urljoin rss f n url :
  In n (snd (scrape_rss dateutil fetch_page urljoin rss f)) ->
  image_url n = Some url -> url <> [].
Proof.
  intros Hin. unfold scrape_rss in Hin. cbn [snd] in Hin.
  apply in_flat_map in Hin as [e [_ Hn]]. unfold scrape_entry in Hn.
  destruct (parse_rss_date_to_dt dateutil _) as [d|]; [|destruct Hn].
  destruct (astimezone_utc d) as [t|]; [|destruct Hn].
  destruct (extract_image fetch_page urljoin e) as [img|] eqn:E; [|destruct Hn].
  destruct Hn as [<-|[]]. cbn [image_url]. intros ->.
  exact (extract_image_truthy _ _ _ E).
Qed.

(** C9 (the code departs from the claim). On an entry whose
    [media_thumbnail] key is present with an empty list, [extract_image]
    does not return a URL or null: [entry.media_thumbnail[0]] raises, whatever
    the page fetch would do. [scrape_rss] catches the exception and drops
    the entry. *)
Theorem extract_image_raises_on_empty_media_thumbnail :
  forall fetch_page urljoin dateutil,
    extract_image fetch_page urljoin empty_thumbnail_entry = Exc
    /\ scrape_entry dateutil fetch_page urljoin feed_url empty_thumbnail_entry = None.
Proof. intros. split; reflexivity. Qed.

(** ** Dates *)

(** In the documented format, and with the day first, every key of
    [PT_TO_EN_MONTH] is read as its English abbreviation is. *)
Lemma supported_months_parse_like_english :
  Forall (fun kv => forall dateutil,
            parse_rss_date_to_dt dateutil (Some (pt_date (fst kv)))
            = parse_rss_date_to_dt dateutil (Some (en_date (snd kv)))
            /\ parse_rss_date_to_dt dateutil (Some (day_first_date (fst kv)))
               = parse_rss_date_to_dt dateutil (Some (en_date (snd kv)))
            /\ is_some (parse_rss_date_to_dt dateutil (Some (en_date (snd kv)))) = true)
         PT_TO_EN_MONTH.
Proof.
  unfold PT_TO_EN_MONTH.
  repeat (apply Forall_cons; [intros; vm_compute; repeat split|]).
  apply Forall_nil.
Qed.

(** C7 (the code departs from the claim). The example of the claim holds:
    ["Qua, nov 26 2025 08:25:00"] is read as 2025-11-26T08:25:00+00:00. But
    for a date that starts with the month, ["dez 25 2025 10:00:00"], the
    weekday pattern removes the month itself: the normalised text is
    ["25 2025 10:00:00"], nothing is parsed without [dateutil], and with
    any [dateutil] the result is the one of ["out 25 2025 10:00:00"], while
    the English strings give 25 December and 25 October. *)
Theorem month_first_date_loses_its_month :
  (forall dateutil,
     parse_rss_date_to_dt dateutil (Some (py "Qua, nov 26 2025 08:25:00"))
     = Some nov_26_2025)
  /\ pt_to_en_date_string (py "dez 25 2025 10:00:00") = py "25 2025 10:00:00"
  /\ parse_rss_date_to_dt None (Some (py "dez 25 2025 10:00:00")) = None
  /\ (forall dateutil,
        parse_rss_date_to_dt dateutil (Some (py "dez 25 2025 10:00:00"))
        = parse_rss_date_to_dt dateutil (Some (py "out 25 2025 10:00:00"))
        /\ parse_rss_date_to_dt dateutil (Some (py "Dec 25 2025 10:00:00"))
           = Some dec_25_2025
        /\ parse_rss_date_to_dt dateutil (Some (py "Oct 25 2025 10:00:00"))
           = Some oct_25_2025)
  /\ timestamp dec_25_2025 <> timestamp oct_25_2025.
Proof.
  repeat split; try (intros; vm_compute; reflexivity).
  vm_compute. discriminate.
Qed.

(** ** The month pattern *)

Lemma in_codepoints_below (c : N) (n : nat) :
  (c < N.of_nat n)%N -> In c (codepoints_below n).
Proof.
  intros H. unfold codepoints_below. apply in_map_iff.
  exists (N.to_nat c). split; [apply N2Nat.id|]. apply in_seq. lia.
Qed.

Lemma ci_eq_bound (k c : N) : (k < 256)%N -> ci_eq k c = true -> (c < 384)%N.
Proof.
  intros Hk H. unfold ci_eq in H.
  apply orb_true_iff in H as [H|H]; [apply orb_true_iff in H as [H|H]|].
  - apply N.eqb_eq in H. unfold lower_char in H.
    destruct (is_ascii_upper c || _); lia.
  - apply andb_true_iff in H as [_ H]. apply N.eqb_eq in H. lia.
  - apply andb_true_iff in H as [_ H].
    apply orb_true_iff in H as [H|H]; apply N.eqb_eq in H; lia.
Qed.

Lemma key_chars_checked :
  forallb (fun k => (k <? 256)%N && ci_eq k k
                    && forallb (fun c => implb (ci_eq k c) (is_word c))
                               (codepoints_below 384))
          key_chars = true.
Proof. vm_compute. reflexivity. Qed.

(** Whatever a character of a month key matches is a word character, and
    it matches itself. *)
Lemma key_char_word (k c : N) :
  In k key_chars -> ci_eq k c = true -> is_word c = true.
Proof.
  intros Hk Hc. pose proof key_chars_checked as H.
  rewrite forallb_forall in H. specialize (H k Hk).
  apply andb_true_iff in H as [H1 H2]. apply andb_true_iff in H1 as [Hb _].
  apply N.ltb_lt in Hb.
  rewrite forallb_forall in H2.
  assert (Hin : In c (codepoints_below 384)).
  { apply in_codepoints_below. change (N.of_nat 384) with 384%N.
    eapply ci_eq_bound; eauto. }
  specialize (H2 c Hin). now rewrite Hc in H2.
Qed.

Lemma key_char_self (k : N) : In k key_chars -> ci_eq k k = true.
Proof.
  intros Hk. pose proof key_chars_checked as H.
  rewrite forallb_forall in H. specialize (H k Hk).
  apply andb_true_iff in H as [H1 _]. now apply andb_true_iff in H1 as [_ H].
Qed.

Lemma alternative_chars (k : str) (x : N) :
  In k months_alternatives -> In x k -> In x key_chars.
Proof. intros Hk Hx. unfold key_chars. apply in_concat. eauto. Qed.

(** What [ci_prefix] returns splits the text, and is matched by the key
    character by character. *)
Lemma ci_prefix_split (k s m rest : str) :
  ci_prefix k s = Some (m, rest) ->
  s = m ++ rest /\ Forall2 (fun x c => ci_eq x c = true) k m.
Proof.
  revert s m rest. induction k as [|x k IH]; intros s m rest H; simpl in H.
  - injection H as <- <-. split; [reflexivity | constructor].
  - destruct s as [|c s]; [discriminate|].
    destruct (ci_eq x c) eqn:E; [|discriminate].
    destruct (ci_prefix k s) as [[m' rest']|] eqn:E'; [|discriminate].
    injection H as <- <-. destruct (IH _ _ _ E') as [-> HF].
    split; [reflexivity | now constructor].
Qed.

Lemma ci_prefix_self (k post : str) :
  (forall x, In x k -> ci_eq x x = true) ->
  ci_prefix k (k ++ post) = Some (k, post).
Proof.
  induction k as [|x k IH]; intros H; simpl; [reflexivity|].
  rewrite (H x (or_introl eq_refl)), IH; [reflexivity|].
  intros y Hy. apply H. now right.
Qed.

Lemma matched_is_word (k m : str) :
  (forall x, In x k -> In x key_chars) ->
  Forall2 (fun x c => ci_eq x c = true) k m ->
  forallb is_word m = true.
Proof.
  intros Hk HF. induction HF as [|x c k m Hxc HF IH]; [reflexivity|].
  cbn [forallb]. rewrite (@key_char_word x c (Hk x (or_introl eq_refl)) Hxc).
  cbn [andb].
  apply IH. intros y Hy. apply Hk. now right.
Qed.

Lemma last_opt_cons (c : N) (s : str) :
  last_opt (c :: s) = match last_opt s with Some x => Some x | None => Some c end.
Proof.
  unfold last_opt. simpl. destruct (rev s) as [|y r] eqn:E; reflexivity.
Qed.

Lemma last_opt_word (m : str) :
  m <> [] -> forallb is_word m = true -> word_opt (last_opt m) = true.
Proof.
  induction m as [|c m IH]; intros Hne H; [contradiction|].
  cbn [forallb] in H. apply andb_true_iff in H as [Hc Hm].
  rewrite last_opt_cons. destruct m as [|d m']; [exact Hc|].
  specialize (IH ltac:(discriminate) Hm).
  destruct (last_opt (d :: m')); [exact IH | discriminate].
Qed.

(** The longest run of word characters at the start of a text is unique. *)
Lemma word_prefix_unique (m rest w post : str) :
  m ++ rest = w ++ post ->
  forallb is_word m = true -> forallb is_word w = true ->
  word_opt (hd_error rest) = false -> word_opt (hd_error post) = false ->
  m = w /\ rest = post.
Proof.
  revert w. induction m as [|c m IH]; intros [|d w] E Hm Hw Hr Hp;
    cbn [forallb app hd_error word_opt] in *.
  - auto.
  - subst rest. cbn [hd_error word_opt] in Hr.
    apply andb_true_iff in Hw as [Hd _]. congruence.
  - subst post. cbn [hd_error word_opt] in Hp.
    apply andb_true_iff in Hm as [Hc _]. congruence.
  - injection E as -> E. apply andb_true_iff in Hm as [_ Hm].
    apply andb_true_iff in Hw as [_ Hw].
    destruct (IH w E Hm Hw Hr Hp) as [-> ->]. auto.
Qed.

Lemma alternatives_key_like : Forall key_like months_alternatives.
Proof.
  apply Forall_forall. intros k Hk. split.
  - intros ->. revert Hk. vm_compute. intuition discriminate.
  - intros x Hx. eapply alternative_chars; eauto.
Qed.

Lemma forall2_nonempty (k m : str) :
  Forall2 (fun x c => ci_eq x c = true) k m -> k <> [] -> m <> [].
Proof. intros H Hk. destruct H; [contradiction | discriminate]. Qed.

(** At the start of a word, a match is the whole word. *)
Lemma first_alternative_sound (alts : list str) (w post m rest : str) :
  Forall key_like alts ->
  forallb is_word w = true -> word_opt (hd_error post) = false ->
  first_alternative alts (w ++ post) = Some (m, rest) ->
  m = w /\ rest = post.
Proof.
  intros Halts Hw Hp. induction Halts as [|k alts [Hne Hk] _ IH]; simpl;
    [discriminate|].
  destruct (ci_prefix k (w ++ post)) as [[m' rest']|] eqn:E; [|exact IH].
  destruct (boundary (last_opt m') (hd_error rest')) eqn:B; [|exact IH].
  intros H. injection H as <- <-.
  destruct (ci_prefix_split _ _ E) as [Es HF].
  pose proof (matched_is_word Hk HF) as Hm.
  pose proof (last_opt_word (forall2_nonempty HF Hne) Hm) as Hl.
  unfold boundary in B. rewrite Hl in B.
  destruct (word_opt (hd_error rest')) eqn:Hr; [discriminate|].
  symmetry in Es. exact (word_prefix_unique _ _ _ _ Es Hm Hw Hr Hp).
Qed.

(** A word that is one of the alternatives is matched. *)
Lemma first_alternative_complete (alts : list str) (w post : str) :
  In w alts -> key_like w -> word_opt (hd_error post) = false ->
  first_alternative alts (w ++ post) <> None.
Proof.
  intros Hin [Hne Hk] Hp.
  assert (Hself : ci_prefix w (w ++ post) = Some (w, post)).
  { apply ci_prefix_self. intros x Hx. apply key_char_self. auto. }
  assert (Hw : word_opt (last_opt w) = true).
  { apply last_opt_word; [assumption|].
    apply forallb_forall. intros x Hx.
    apply (@key_char_word x x); [auto | apply key_char_self; auto]. }
  induction alts as [|k alts IH]; [destruct Hin|]. simpl.
  destruct Hin as [->|Hin].
  - rewrite Hself. unfold boundary. rewrite Hw, Hp. discriminate.
  - destruct (ci_prefix k (w ++ post)) as [[m' rest']|]; [|auto].
    destruct (boundary (last_opt m') (hd_error rest')); [discriminate | auto].
Qed.

Lemma first_alternative_nonword (alts : list str) (c : N) (r : str) :
  Forall key_like alts -> is_word c = false ->
  first_alternative alts (c :: r) = None.
Proof.
  intros Halts Hc. induction Halts as [|k alts [Hne Hk] _ IH]; [reflexivity|].
  simpl. destruct k as [|x k]; [contradiction|]. simpl.
  destruct (ci_eq x c) eqn:E; [|exact IH].
  rewrite (@key_char_word x c (Hk x (or_introl eq_refl)) E) in Hc. discriminate.
Qed.

Lemma sub_nonword (prev : option N) (c : N) (r : str) :
  is_word c = false ->
  sub_months_from prev 0 (c :: r) = c :: sub_months_from (Some c) 0 r.
Proof.
  intros Hc. cbn [sub_months_from]. unfold match_months_at.
  rewrite (@first_alternative_nonword _ c r alternatives_key_like Hc).
  now destruct (boundary prev (hd_error (c :: r))).
Qed.

Lemma prev_irrelevant (p q : option N) (s : str) :
  word_opt p = word_opt q ->
  sub_months_from p 0 s = sub_months_from q 0 s.
Proof.
  intros H. destruct s as [|c r]; [reflexivity|].
  cbn [sub_months_from]. unfold match_months_at, boundary. now rewrite H.
Qed.

Lemma sub_after_nonword (prev : option N) (post : str) :
  word_opt (hd_error post) = false ->
  sub_months_from prev 0 post = sub_months post.
Proof.
  intros H. destruct post as [|c r]; [reflexivity|].
  unfold sub_months. now rewrite !sub_nonword.
Qed.

Lemma sub_skip (c : N) (m' rest : str) :
  forallb is_word (c :: m') = true ->
  sub_months_from (Some c) (List.length m') (m' ++ rest)
  = sub_months_from (Some c) 0 rest.
Proof.
  revert c. induction m' as [|d m' IH]; intros c H; [reflexivity|].
  cbn [List.length app sub_months_from].
  cbn [forallb] in H. apply andb_true_iff in H as [Hc Hm].
  rewrite (IH d Hm). apply prev_irrelevant. cbn [word_opt].
  cbn [forallb] in Hm. apply andb_true_iff in Hm as [Hd _]. congruence.
Qed.

Lemma sub_inside_word (p : N) (w post : str) :
  is_word p = true -> forallb is_word w = true ->
  sub_months_from (Some p) 0 (w ++ post) = w ++ sub_months_from (Some p) 0 post.
Proof.
  revert p. induction w as [|c w IH]; intros p Hp Hw; [reflexivity|].
  cbn [forallb] in Hw. apply andb_true_iff in Hw as [Hc Hw].
  cbn [app sub_months_from]. unfold match_months_at, boundary.
  cbn [hd_error word_opt]. rewrite Hp, Hc. cbn [xorb].
  rewrite (IH c Hc Hw). f_equal. f_equal. apply prev_irrelevant.
  cbn [word_opt]. congruence.
Qed.

Lemma repl_not_key (w : str) :
  ~ In w (map fst PT_TO_EN_MONTH) -> repl w = w.
Proof.
  unfold repl. generalize PT_TO_EN_MONTH.
  intros d. induction d as [|[k v] d IH]; intros H; [reflexivity|].
  simpl in *. destruct (str_eqb k w) eqn:E.
  - apply str_eqb_eq in E. tauto.
  - apply IH. tauto.
Qed.

Lemma keys_are_alternatives (k : str) :
  In k (map fst PT_TO_EN_MONTH) -> In k months_alternatives.
Proof.
  assert (H : forallb (fun k => str_mem k months_alternatives)
                      (map fst PT_TO_EN_MONTH) = true) by (vm_compute; reflexivity).
  rewrite forallb_forall in H. intros Hk. specialize (H k Hk).
  induction months_alternatives as [|a l IH]; [discriminate|].
  simpl in H. apply orb_true_iff in H as [H|H].
  - left. now apply str_eqb_eq.
  - right. auto.
Qed.

(** A whole word, coming after something that is not a word character, is
    replaced by [repl] and the scan goes on behind it. *)
Lemma sub_word (prev : option N) (w post : str) :
  word_opt prev = false -> w <> [] -> forallb is_word w = true ->
  word_opt (hd_error post) = false ->
  sub_months_from prev 0 (w ++ post) = repl w ++ sub_months post.
Proof.
  intros Hprev Hne Hw Hp. destruct w as [|c w']; [contradiction|].
  pose proof Hw as Hw0. cbn [forallb] in Hw0.
  apply andb_true_iff in Hw0 as [Hc Hw'].
  cbn [app sub_months_from]. unfold match_months_at, boundary.
  cbn [hd_error word_opt]. rewrite Hprev, Hc. cbn [xorb].
  change (c :: w' ++ post) with ((c :: w') ++ post).
  destruct (first_alternative months_alternatives ((c :: w') ++ post))
    as [[m rest]|] eqn:E.
  - destruct (first_alternative_sound _ _ alternatives_key_like Hw Hp E) as [-> ->].
    f_equal.
    replace (List.length (c :: w') - 1) with (List.length w')
      by (cbn [List.length]; lia).
    rewrite (@sub_skip c w' post Hw). now apply sub_after_nonword.
  - rewrite repl_not_key.
    + cbn [app]. f_equal. rewrite (@sub_inside_word c w' post Hc Hw'). f_equal.
      now apply sub_after_nonword.
    + intros Hk. apply keys_are_alternatives in Hk.
      apply (@first_alternative_complete months_alternatives (c :: w') post Hk);
        [|assumption | assumption].
      pose proof alternatives_key_like as H. rewrite Forall_forall in H. auto.
Qed.

Lemma word_span (s : str) :
  exists w s', s = w ++ s' /\ forallb is_word w = true
               /\ word_opt (hd_error s') = false.
Proof.
  induction s as [|c s (w & s' & -> & Hw & Hs)].
  - exists [], []. auto.
  - destruct (is_word c) eqn:Hc.
    + exists (c :: w), s'. cbn [forallb app]. rewrite Hc. auto.
    + exists [], (c :: w ++ s'). cbn [forallb app hd_error word_opt]. auto.
Qed.

Lemma last_opt_app (a b : str) : b <> [] -> last_opt (a ++ b) = last_opt b.
Proof.
  intros Hb. unfold last_opt. rewrite rev_app_distr.
  destruct (rev b) as [|x r] eqn:E; [|reflexivity].
  apply (f_equal (@rev N)) in E. rewrite rev_involutive in E. contradiction.
Qed.

(** The scan of a text that does not end inside a word does not depend on
    what follows. *)
Lemma sub_months_app (pre rest : str) :
  word_opt (last_opt pre) = false ->
  sub_months (pre ++ rest) = sub_months pre ++ sub_months rest.
Proof.
  remember (List.length pre) as n eqn:Hn. revert pre Hn.
  induction n as [n IH] using lt_wf_ind. intros pre Hn Hlast.
  destruct pre as [|c p']; [reflexivity|].
  destruct (is_word c) eqn:Hc.
  - destruct (word_span (c :: p')) as (w & s' & E & Hw & Hs).
    assert (Hwne : w <> []).
    { intros ->. cbn [app] in E. subst s'. cbn [hd_error word_opt] in Hs.
      congruence. }
    assert (Hsne : s' <> []).
    { intros ->. rewrite app_nil_r in E. rewrite E in Hlast.
      rewrite (last_opt_word Hwne Hw) in Hlast. discriminate. }
    rewrite E, <- app_assoc. unfold sub_months at 1 2.
    rewrite (@sub_word None w (s' ++ rest)); auto.
    + rewrite (@sub_word None w s'); auto.
      rewrite <- app_assoc. f_equal.
      apply (IH (List.length s')); auto.
      * subst n. rewrite E, length_app. destruct w; [contradiction|]. simpl. lia.
      * rewrite E in Hlast. now rewrite last_opt_app in Hlast.
    + destruct s'; [contradiction | exact Hs].
  - unfold sub_months. cbn [app]. rewrite !sub_nonword by assumption.
    cbn [app]. f_equal.
    rewrite (@prev_irrelevant (Some c) None (p' ++ rest))
      by (cbn [word_opt]; congruence).
    rewrite (@prev_irrelevant (Some c) None p') by (cbn [word_opt]; congruence).
    apply (IH (List.length p')); auto.
    + subst n. simpl. lia.
    + rewrite last_opt_cons in Hlast. now destruct (last_opt p').
Qed.

Lemma repl_key (k en : str) : In (k, en) PT_TO_EN_MONTH -> repl k = en.
Proof.
  assert (H : forallb (fun kv => str_eqb (repl (fst kv)) (snd kv))
                      PT_TO_EN_MONTH = true) by (vm_compute; reflexivity).
  rewrite forallb_forall in H. intros Hin. specialize (H _ Hin).
  now apply str_eqb_eq in H.
Qed.

(** *** Case *)

Lemma lower_char_high (c : N) : (256 <= c)%N -> lower_char c = c.
Proof.
  intros H. unfold lower_char, is_ascii_upper, between.
  destruct (N.leb_spec c 90); [lia|]. destruct (N.leb_spec c 222); [lia|].
  now rewrite !andb_false_r.
Qed.

Lemma small_or_high (c : N) : In c (codepoints_below 256) \/ (256 <= c)%N.
Proof.
  destruct (N.lt_ge_cases c 256) as [H|H]; [left | now right].
  apply in_codepoints_below. exact H.
Qed.

Lemma isspace_lower_char (c : N) : isspace (lower_char c) = isspace c.
Proof.
  destruct (small_or_high c) as [H|H]; [|now rewrite lower_char_high].
  assert (Hall : forallb (fun c => Bool.eqb (isspace (lower_char c)) (isspace c))
                         (codepoints_below 256) = true) by (vm_compute; reflexivity).
  rewrite forallb_forall in Hall. apply Bool.eqb_prop. auto.
Qed.

Lemma lstrip_lower (s : str) : lstrip (lower s) = lower (lstrip s).
Proof.
  induction s as [|c s IH]; [reflexivity|].
  cbn [lower map lstrip]. rewrite isspace_lower_char.
  destruct (isspace c); [exact IH | reflexivity].
Qed.

Lemma strip_lower (s : str) : strip (lower s) = lower (strip s).
Proof.
  unfold strip. rewrite lstrip_lower. unfold lower at 1.
  rewrite <- map_rev. fold (lower (rev (lstrip s))).
  rewrite lstrip_lower. unfold lower. now rewrite map_rev.
Qed.

Lemma strip_accents_cons (c : N) (s : str) :
  _strip_accents (c :: s) = _strip_accents [c] ++ _strip_accents s.
Proof.
  unfold _strip_accents. cbn [flat_map]. now rewrite app_nil_r, filter_app.
Qed.

Lemma strip_accents_lower_char (c : N) :
  lower (_strip_accents [lower_char c]) = lower (_strip_accents [c]).
Proof.
  destruct (small_or_high c) as [H|H]; [|now rewrite lower_char_high].
  assert (Hall : forallb (fun c => str_eqb (lower (_strip_accents [lower_char c]))
                                           (lower (_strip_accents [c])))
                         (codepoints_below 256) = true) by (vm_compute; reflexivity).
  rewrite forallb_forall in Hall. apply str_eqb_eq. auto.
Qed.

Lemma strip_accents_lower (s : str) :
  lower (_strip_accents (lower s)) = lower (_strip_accents s).
Proof.
  induction s as [|c s IH]; [reflexivity|].
  change (lower (c :: s)) with (lower_char c :: lower s).
  rewrite (strip_accents_cons (lower_char c)), (strip_accents_cons c).
  assert (Happ : forall a b, lower (a ++ b) = lower a ++ lower b)
    by (intros; apply map_app).
  rewrite !Happ, IH. f_equal. apply strip_accents_lower_char.
Qed.

(** The case of the input does not matter. *)
Lemma pt_to_en_lower (s : str) :
  pt_to_en_date_string (lower s) = pt_to_en_date_string s.
Proof.
  destruct s as [|c s]; [reflexivity|].
  unfold pt_to_en_date_string. cbn [lower map].
  change (lower_char c :: map lower_char s) with (lower (c :: s)).
  now rewrite strip_lower, strip_accents_lower.
Qed.

(** C8. Month-name replacement is whole-word only and case-insensitive.
    The month pattern is applied to the stripped, unaccented, lower-cased
    input once the weekday pattern has run. In that text, a maximal run of word
    characters [w] (what precedes it does not end with a word character,
    what follows does not start with one) is rewritten by [repl] alone:
    into the English abbreviation when [w] is a key of [PT_TO_EN_MONTH], and
    left as it is otherwise, so a key inside a longer word (marcos, janice)
    is untouched; the text around it is rewritten independently. That text
    is the lower-cased input, so two inputs of [pt_to_en_date_string] that
    differ only in case give the same result. *)
Theorem month_replacement_is_whole_word :
  (forall s, s <> [] ->
     pt_to_en_date_string s
     = sub_months (strip_weekday (lower (_strip_accents (strip s)))))
  /\
  (forall pre w post,
     word_opt (last_opt pre) = false ->
     w <> [] -> forallb is_word w = true ->
     word_opt (hd_error post) = false ->
     sub_months (pre ++ w ++ post) = sub_months pre ++ repl w ++ sub_months post)
  /\ (forall k en, In (k, en) PT_TO_EN_MONTH -> repl k = en)
  /\ (forall w, ~ In w (map fst PT_TO_EN_MONTH) -> repl w = w)
  /\ (forall s1 s2, lower s1 = lower s2 ->
        pt_to_en_date_string s1 = pt_to_en_date_string s2)
  /\ pt_to_en_date_string (py "5 de marcos de 2025") = py "5 de marcos de 2025"
  /\ pt_to_en_date_string (py "5 janice 2025") = py "5 janice 2025"
  /\ pt_to_en_date_string (py "5 JANEIRO 2025, 1 Set 2025") = py "5 Jan 2025, 1 Sep 2025".
Proof.
  split; [|split; [|split; [|split; [|split]]]].
  - intros [|c s] H; [contradiction | reflexivity].
  - intros pre w post Hpre Hne Hw Hpost.
    rewrite sub_months_app by assumption. f_equal.
    unfold sub_months. now apply sub_word.
  - apply repl_key.
  - apply repl_not_key.
  - intros s1 s2 H. rewrite <- (pt_to_en_lower s1), <- (pt_to_en_lower s2).
    now rewrite H.
  - repeat split; vm_compute; reflexivity.
Qed.

Lemma month_replacement_is_whole_word_witness :
  sub_months (py "26 " ++ py "dez" ++ py " 2025") = py "26 Dec 2025"
  /\ sub_months (py "26 " ++ py "marcos" ++ py " 2025") = py "26 marcos 2025"
  /\ pt_to_en_date_string (py "26 DEZ 2025") = pt_to_en_date_string (py "26 dez 2025").
Proof.
  destruct month_replacement_is_whole_word as (_ & H1 & H2 & H3 & H4 & _).
  split; [|split].
  - rewrite (H1 (py "26 ") (py "dez") (py " 2025"));
      [| reflexivity | discriminate | reflexivity | reflexivity].
    rewrite (H2 (py "dez") (py "Dec")); [reflexivity|].
    vm_compute. tauto.
  - rewrite (H1 (py "26 ") (py "marcos") (py " 2025"));
      [| reflexivity | discriminate | reflexivity | reflexivity].
    rewrite H3; [reflexivity|]. vm_compute. intuition discriminate.
  - apply H4. reflexivity.
Defined.

(** * Further properties *)

(** ** [date_utils.py] *)

(** X1. Whenever [parse_rss_date_to_dt] returns a [datetime], the input
    was a non-empty string and the result is timezone-aware; and when the
    direct parse succeeds its result is returned (read as UTC if naive),
    whatever the transliteration or [dateutil] would give. *)
Theorem parsed_date_is_aware dateutil s d :
  parse_rss_date_to_dt dateutil s = Some d ->
  truthy s = true
  /\ tzinfo d <> None
  /\ (forall t d0, s = Some t -> parsedate_to_datetime t = Some d0 -> d = assume_utc d0).
Proof.
  assert (Haware : forall x, tzinfo (assume_utc x) <> None).
  { intros x. unfold assume_utc. destruct (tzinfo x) eqn:E; cbn; congruence. }
  unfold parse_rss_date_to_dt. destruct s as [[|c t]|]; try discriminate.
  intros H. split; [reflexivity|].
  destruct (parsedate_to_datetime (c :: t)) as [d1|] eqn:E1.
  - injection H as <-. split; [apply Haware|].
    intros t' d0 Ht. injection Ht as <-. rewrite E1. now intros [= <-].
  - split; [|intros t' d0 Ht; injection Ht as <-; rewrite E1; discriminate].
    destruct (parsedate_to_datetime (pt_to_en_date_string (c :: t))) as [d2|].
    + injection H as <-. apply Haware.
    + destruct dateutil as [parse|]; [|discriminate].
      destruct (parse (pt_to_en_date_string (c :: t))) as [d3|]; [|discriminate].
      injection H as <-. apply Haware.
Qed.

Lemma parsed_date_is_aware_witness :
  tzinfo nov_26_2025 <> None.
Proof.
  apply (@parsed_date_is_aware None (Some documented_example) nov_26_2025).
  reflexivity.
Defined.

Lemma nfkd_ascii (c : N) : (c < 128)%N -> nfkd_char c = [c] /\ combining c = false.
Proof.
  intros H.
  assert (Hall : forallb (fun c => str_eqb (nfkd_char c) [c] && negb (combining c))
                         (codepoints_below 128) = true) by (vm_compute; reflexivity).
  rewrite forallb_forall in Hall.
  assert (Hin : In c (codepoints_below 128)) by (apply in_codepoints_below; exact H).
  specialize (Hall c Hin).
  apply andb_true_iff in Hall as [H1 H2]. apply str_eqb_eq in H1.
  now destruct (combining c).
Qed.

Lemma strip_accents_app (a b : str) :
  _strip_accents (a ++ b) = _strip_accents a ++ _strip_accents b.
Proof. unfold _strip_accents. now rewrite flat_map_app, filter_app. Qed.

Lemma strip_accents_twice_char (c : N) :
  (c < 256)%N -> _strip_accents (_strip_accents [c]) = _strip_accents [c].
Proof.
  intros H.
  assert (Hall : forallb (fun c => str_eqb (_strip_accents (_strip_accents [c]))
                                           (_strip_accents [c]))
                         (codepoints_below 256) = true) by (vm_compute; reflexivity).
  rewrite forallb_forall in Hall. apply str_eqb_eq. apply Hall.
  now apply in_codepoints_below.
Qed.

(** X2. [_strip_accents] leaves ASCII text as it is, and on Latin-1 text a
    second pass changes nothing: no accent survives the first. *)
Theorem strip_accents_ascii_and_idempotent (s : str) :
  (Forall (fun c => (c < 128)%N) s -> _strip_accents s = s)
  /\ (Forall (fun c => (c < 256)%N) s ->
      _strip_accents (_strip_accents s) = _strip_accents s).
Proof.
  split; intros H.
  - induction H as [|c s Hc _ IH]; [reflexivity|].
    rewrite strip_accents_cons, IH. unfold _strip_accents. cbn [flat_map].
    destruct (nfkd_ascii Hc) as [-> Hcomb]. cbn. now rewrite Hcomb.
  - induction H as [|c s Hc _ IH]; [reflexivity|].
    rewrite strip_accents_cons, strip_accents_app, IH.
    now rewrite strip_accents_twice_char.
Qed.

Lemma strip_accents_ascii_and_idempotent_witness :
  _strip_accents documented_example = documented_example.
Proof.
  apply (proj1 (strip_accents_ascii_and_idempotent documented_example)).
  unfold documented_example. repeat constructor.
Defined.

Lemma span_upto_word (w rest : str) :
  forall n,
    forallb is_ascii_lower w = true ->
    (List.length w <= n)%nat ->
    (List.length w = n \/ match rest with
                          | c :: _ => is_ascii_lower c = false
                          | [] => True
                          end) ->
    span_upto is_ascii_lower n (w ++ rest) = (w, rest).
Proof.
  induction w as [|c w IH]; intros n Hw Hn Hend.
  - cbn [app]. destruct n as [|n]; [now destruct rest|].
    destruct Hend as [Hl|Hr]; [discriminate|].
    destruct rest as [|x r]; [reflexivity|]. cbn [span_upto]. now rewrite Hr.
  - cbn [forallb] in Hw. apply andb_true_iff in Hw as [Hc Hw].
    destruct n as [|n]; [cbn in Hn; lia|].
    cbn [app span_upto]. rewrite Hc. rewrite (IH n); auto.
    + cbn in Hn. lia.
    + destruct Hend as [Hl|Hr]; [left; cbn in Hl; lia | now right].
Qed.

(** X3. The weekday pattern of [pt_to_en_date_string] removes any leading
    word of two to nine lower-case letters, with the comma and the white
    space after it, whether it is a weekday or not; a text that starts
    with anything but a lower-case letter, or with a single letter, is left
    as it is. *)
Theorem leading_word_is_removed :
  (forall w rest,
     forallb is_ascii_lower w = true ->
     (2 <= List.length w <= 9)%nat ->
     (List.length w = 9%nat \/ match rest with
                               | c :: _ => is_ascii_lower c = false
                               | [] => True
                               end) ->
     strip_weekday (w ++ rest)
     = lstrip (match rest with
               | 44%N :: r => r
               | _ => rest
               end))
  /\ (forall c r, is_ascii_lower c = false -> strip_weekday (c :: r) = c :: r)
  /\ (forall c d r, is_ascii_lower d = false -> strip_weekday (c :: d :: r) = c :: d :: r).
Proof.
  split; [|split].
  - intros w rest Hw [H2 H9] Hend. unfold strip_weekday.
    rewrite (@span_upto_word w rest 9 Hw H9 Hend).
    destruct (Nat.leb_spec 2 (List.length w)); [reflexivity | lia].
  - intros c r Hc. unfold strip_weekday. cbn [span_upto]. now rewrite Hc.
  - intros c d r Hd. unfold strip_weekday. cbn [span_upto].
    destruct (is_ascii_lower c); [rewrite Hd|]; reflexivity.
Qed.

Lemma leading_word_is_removed_witness :
  strip_weekday (py "dez" ++ py " 25 2025") = py "25 2025"
  /\ strip_weekday (py "25 dez 2025") = py "25 dez 2025".
Proof.
  destruct leading_word_is_removed as (H1 & H2 & _). split.
  - rewrite (H1 (py "dez") (py " 25 2025")).
    + reflexivity.
    + reflexivity.
    + cbn; lia.
    + right. reflexivity.
  - apply H2. reflexivity.
Defined.

Lemma insert_by_len_perm (x : str) (l : list str) :
  Permutation (x :: l) (insert_by_len x l).
Proof.
  induction l as [|y l IH]; [reflexivity|]. cbn [insert_by_len].
  destruct (List.length x <=? List.length y)%nat; [|reflexivity].
  rewrite perm_swap. now apply perm_skip.
Qed.

Lemma insert_by_len_sorted (x : str) (l : list str) :
  StronglySorted (fun a b => (List.length b <= List.length a)%nat) l ->
  StronglySorted (fun a b => (List.length b <= List.length a)%nat) (insert_by_len x l).
Proof.
  induction 1 as [|y l Hs IH Hy]; cbn [insert_by_len].
  - repeat constructor.
  - destruct (Nat.leb_spec (List.length x) (List.length y)).
    + constructor; [exact IH|].
      rewrite <- (insert_by_len_perm x l). constructor; assumption.
    + constructor; [now constructor|].
      constructor; [lia|].
      eapply Forall_impl; [|exact Hy]. intros a Ha. cbn in *. lia.
Qed.

(** X4. The alternatives of the month pattern are the dictionary keys
    sorted longest first: [sorted_by_len] permutes its input and its
    result never lists a shorter text before a longer one, so no month key
    is tried before a longer key that starts with it. *)
Theorem alternatives_longest_first :
  (forall l,
     Permutation l (sorted_by_len l)
     /\ StronglySorted (fun a b => (List.length b <= List.length a)%nat)
                       (sorted_by_len l))
  /\ Permutation (map fst PT_TO_EN_MONTH) months_alternatives
  /\ StronglySorted (fun a b => (List.length b <= List.length a)%nat)
                    months_alternatives.
Proof.
  assert (H : forall l acc,
             StronglySorted (fun a b => (List.length b <= List.length a)%nat) acc ->
             Permutation (acc ++ l) (fold_left (fun acc x => insert_by_len x acc) l acc)
             /\ StronglySorted (fun a b => (List.length b <= List.length a)%nat)
                  (fold_left (fun acc x => insert_by_len x acc) l acc)).
  { induction l as [|x l IH]; intros acc Hacc; cbn [fold_left].
    - rewrite app_nil_r. split; [reflexivity | assumption].
    - destruct (IH (insert_by_len x acc) (@insert_by_len_sorted x acc Hacc)) as [Hp Hs].
      split; [|exact Hs]. rewrite <- Hp.
      rewrite <- (insert_by_len_perm x acc). cbn [app].
      symmetry. apply Permutation_middle. }
  assert (G : forall l,
             Permutation l (sorted_by_len l)
             /\ StronglySorted (fun a b => (List.length b <= List.length a)%nat)
                  (sorted_by_len l)).
  { intros l. exact (H l [] (SSorted_nil _)). }
  split; [exact G|]. exact (G (map fst PT_TO_EN_MONTH)).
Qed.

(** ** Image resolution *)

Lemma ci_equal_app (k1 k2 m1 m2 : str) :
  ci_equal k1 m1 -> ci_equal k2 m2 -> ci_equal (k1 ++ k2) (m1 ++ m2).
Proof. unfold ci_equal. apply Forall2_app. Qed.

Lemma match_scheme_spec (s m r : str) :
  match_scheme s = Some (m, r) ->
  s = m ++ r /\ (ci_equal (py "http://") m \/ ci_equal (py "https://") m).
Proof.
  unfold match_scheme.
  destruct (ci_prefix (py "http") s) as [[m1 r1]|] eqn:E1; [|discriminate].
  destruct (ci_prefix_split _ _ E1) as [-> H1].
  destruct (ci_prefix (py "s://") r1) as [[m2 r2]|] eqn:E2.
  - intros [= <- <-]. destruct (ci_prefix_split _ _ E2) as [-> H2].
    split; [now rewrite app_assoc|]. right.
    exact (ci_equal_app H1 H2).
  - destruct (ci_prefix (py "://") r1) as [[m3 r3]|] eqn:E3; [|discriminate].
    intros [= <- <-]. destruct (ci_prefix_split _ _ E3) as [-> H3].
    split; [now rewrite app_assoc|]. left.
    exact (ci_equal_app H1 H3).
Qed.

Lemma first_extension_spec (exts : list str) (s : str) (len : nat) :
  first_extension exts s = Some len ->
  exists k m rest, In k exts /\ s = m ++ rest /\ ci_equal k m /\ List.length m = len.
Proof.
  induction exts as [|k exts IH]; [discriminate|]. cbn [first_extension].
  destruct (ci_prefix k s) as [[m rest]|] eqn:E.
  - intros [= <-]. destruct (ci_prefix_split _ _ E) as [-> H].
    exists k, m, rest. repeat split; auto. now left.
  - intros H. destruct (IH H) as (k' & m & rest & Hin & Hs & Hm & Hl).
    exists k', m, rest. repeat split; auto. now right.
Qed.

Lemma last_extension_end_spec (run : str) :
  forall n e,
    last_extension_end n run = Some e ->
    exists body ext tail k,
      run = body ++ 46%N :: ext ++ tail
      /\ (1 <= n + List.length body)%nat
      /\ e = (n + List.length body + 1 + List.length ext)%nat
      /\ In k image_extensions /\ ci_equal k ext.
Proof.
  induction run as [|c r IH]; intros n e; [discriminate|].
  cbn [last_extension_end].
  destruct (last_extension_end (S n) r) as [e'|] eqn:E.
  - intros [= <-]. destruct (IH _ _ E) as (body & ext & tail & k & -> & H1 & -> & Hk & Hm).
    exists (c :: body), ext, tail, k. cbn [List.length app]. repeat split; auto; lia.
  - destruct (1 <=? n)%nat eqn:Hn; [|discriminate].
    destruct (N.eqb_spec c 46) as [->|]; [|discriminate]. cbn [andb].
    destruct (first_extension image_extensions r) as [len|] eqn:F; [|discriminate].
    intros [= <-].
    destruct (first_extension_spec _ _ F) as (k & m & rest & Hin & -> & Hm & <-).
    exists [], m, rest, k. cbn [List.length app]. apply Nat.leb_le in Hn.
    repeat split; auto; lia.
Qed.

Lemma take_while_spec (p : N -> bool) (s : str) :
  forallb p (take_while p s) = true /\ exists t, s = take_while p s ++ t.
Proof.
  induction s as [|c s [IH1 [t IH2]]]; [split; [reflexivity | now exists []]|].
  cbn [take_while]. destruct (p c) eqn:E.
  - cbn [forallb]. rewrite E, IH1. split; [reflexivity|].
    exists t. cbn [app]. now rewrite <- IH2.
  - split; [reflexivity|]. now exists (c :: s).
Qed.

Lemma forallb_app_l {A : Type} (p : A -> bool) (a b : list A) :
  forallb p (a ++ b) = true -> forallb p a = true.
Proof. rewrite forallb_app. intros H. now apply andb_true_iff in H as [H _]. Qed.

Lemma firstn_exact {A : Type} (a b : list A) : firstn (List.length a) (a ++ b) = a.
Proof. induction a as [|x a IH]; [now destruct b|]. cbn. now rewrite IH. Qed.

Lemma match_image_at_spec (s u : str) :
  match_image_at s = Some u ->
  image_url_shape u /\ exists post, s = u ++ post.
Proof.
  unfold match_image_at.
  destruct (match_scheme s) as [[scheme rest]|] eqn:E; [|discriminate].
  destruct (match_scheme_spec _ E) as [-> Hscheme].
  destruct (last_extension_end 0 (take_while url_char rest)) as [e|] eqn:L;
    [|discriminate].
  intros [= <-].
  destruct (last_extension_end_spec _ _ L)
    as (body & ext & tail & k & Hrun & Hb & -> & Hk & Hm).
  destruct (take_while_spec url_char rest) as [Hall [t Ht]].
  rewrite Hrun in *. cbn [Nat.add] in *.
  assert (Hfirst : firstn (List.length body + 1 + List.length ext)
                          (body ++ 46%N :: ext ++ tail) = body ++ 46%N :: ext).
  { replace (body ++ 46%N :: ext ++ tail) with ((body ++ 46%N :: ext) ++ tail)
      by (rewrite <- app_assoc; reflexivity).
    replace (List.length body + 1 + List.length ext)%nat
      with (List.length (body ++ 46%N :: ext))
      by (rewrite length_app; cbn [List.length]; lia).
    apply firstn_exact. }
  rewrite Hfirst. split.
  - exists scheme, body, ext, k. repeat split; auto.
    + intros ->. cbn in Hb. lia.
    + apply (@forallb_app_l _ url_char _ tail). rewrite <- app_assoc. exact Hall.
  - exists (tail ++ t). rewrite Ht at 1.
    rewrite <- !app_assoc. cbn [app]. now rewrite <- !app_assoc.
Qed.

Lemma search_image_spec (s u : str) :
  search_image s = Some u ->
  image_url_shape u /\ exists pre post, s = pre ++ u ++ post.
Proof.
  induction s as [|c s IH]; [discriminate|]. cbn [search_image].
  destruct (match_image_at (c :: s)) as [m|] eqn:E.
  - intros [= <-]. destruct (match_image_at_spec _ E) as [Hs [post Hp]].
    split; [assumption|]. exists [], post. exact Hp.
  - intros H. destruct (IH H) as [Hs (pre & post & ->)].
    split; [assumption|]. now exists (c :: pre), post.
Qed.

(** X5. What [extract_image_by_extension] returns is a piece of the text
    it was given, of the shape the pattern describes: [http://] or
    [https://] in any case, a non-empty run free of white space, quotes and
    angle brackets, and at its end a dot and one of the seven extensions in
    any case. *)
Theorem extracted_url_is_an_image_url (description_html : option str) (u : str) :
  extract_image_by_extension description_html = Some u ->
  image_url_shape u
  /\ exists t pre post, description_html = Some t /\ t = pre ++ u ++ post.
Proof.
  unfold extract_image_by_extension.
  destruct description_html as [[|c r]|]; try discriminate.
  intros H. destruct (search_image_spec _ H) as [Hs (pre & post & Hp)].
  split; [assumption|]. now exists (c :: r), pre, post.
Qed.

Lemma extracted_url_is_an_image_url_witness :
  image_url_shape (py "https://example.org/inline.png").
Proof.
  apply (@extracted_url_is_an_image_url
           (Some (py "<img src='https://example.org/inline.png'>"))).
  reflexivity.
Defined.

Lemma image_url_shape_nonempty (u : str) : image_url_shape u -> u <> [].
Proof.
  intros (scheme & body & ext & k & -> & _ & Hb & _). intros H.
  apply app_eq_nil in H as [_ H]. apply app_eq_nil in H as [H _]. contradiction.
Qed.

Lemma extract_by_extension_nonempty (d : option str) (u : str) :
  extract_image_by_extension d = Some u -> u <> [].
Proof.
  unfold extract_image_by_extension. destruct d as [[|c r]|]; try discriminate.
  intros H. apply image_url_shape_nonempty. now destruct (search_image_spec _ H).
Qed.

Lemma return_if_hit (u : str) (next : outcome (option str)) :
  u <> [] -> return_if (Some u) next = Ret (Some u).
Proof. destruct u; [contradiction | reflexivity]. Qed.

Lemma return_if_miss (x : option str) (next : outcome (option str)) :
  truthy x = false -> return_if x next = next.
Proof. intros H. unfold return_if. now rewrite H. Qed.

(** The first strategy of [extract_image] finds nothing. *)
Lemma skip_list_strategy (l : option (list (option str)))
    (next : outcome (option str)) :
  no_url l ->
  match l with
  | Some (url :: _) => return_if url next
  | _ => next
  end = next.
Proof.
  destruct l as [[|x r]|]; cbn [no_url]; intros H; try reflexivity.
  now apply return_if_miss.
Qed.

(** X6. [extract_image] tries its strategies in a fixed order and returns
    the first URL found: the first [media_content] URL; else the first
    enclosure [href]; else the first [media_thumbnail] URL; else the image
    URL found in the summary (or the description). In all four cases the
    page of the item is not consulted. *)
Theorem extract_image_strategy_order fetch_page urljoin (e : entry) :
  (forall u rest,
     media_content e = Some (Some u :: rest) -> u <> [] ->
     extract_image fetch_page urljoin e = Ret (Some u))
  /\ (forall u rest,
        no_url (media_content e) ->
        enclosures e = Some (Some u :: rest) -> u <> [] ->
        extract_image fetch_page urljoin e = Ret (Some u))
  /\ (forall u rest,
        no_url (media_content e) -> no_url (enclosures e) ->
        media_thumbnail e = Some (Some u :: rest) -> u <> [] ->
        extract_image fetch_page urljoin e = Ret (Some u))
  /\ (forall u,
        no_url (media_content e) -> no_url (enclosures e) ->
        no_url (media_thumbnail e) -> media_thumbnail e <> Some [] ->
        extract_image_by_extension (py_or (summary e) (description e)) = Some u ->
        extract_image fetch_page urljoin e = Ret (Some u)).
Proof.
  unfold extract_image. cbv zeta. repeat split.
  - intros u rest -> Hu. now apply return_if_hit.
  - intros u rest Hmc -> Hu. rewrite skip_list_strategy by assumption.
    now apply return_if_hit.
  - intros u rest Hmc Henc -> Hu. rewrite !skip_list_strategy by assumption.
    now apply return_if_hit.
  - intros u Hmc Henc Hth Hne Hd. rewrite !skip_list_strategy by assumption.
    assert (Hu : u <> []) by exact (extract_by_extension_nonempty _ Hd).
    destruct (media_thumbnail e) as [[|x r]|]; [contradiction | |].
    + cbn [no_url] in Hth. rewrite (@return_if_miss x _ Hth), Hd.
      now apply return_if_hit.
    + rewrite Hd. now apply return_if_hit.
Qed.

Lemma extract_image_strategy_order_witness :
  extract_image (fun _ => None) (fun _ _ => None) enclosure_entry
  = Ret (Some (py "https://example.org/enclosure.mp3")).
Proof.
  destruct (extract_image_strategy_order (fun _ => None) (fun _ _ => None)
              enclosure_entry)
    as (_ & H & _).
  apply (H (py "https://example.org/enclosure.mp3") []).
  - exact I.
  - reflexivity.
  - discriminate.
Defined.

(** ** [scrape_rss] *)

Lemma scrape_rss_items dateutil fetch_page urljoin rss f :
  snd (scrape_rss dateutil fetch_page urljoin rss f)
  = flat_map (fun e => match scrape_entry dateutil fetch_page urljoin rss e with
                       | Some n => [n]
                       | None => []
                       end) (entries f).
Proof. reflexivity. Qed.

(** X7. Every item [scrape_rss] returns comes from an entry of the feed,
    whose title and link it copies; it carries the feed URL, the instant of
    the date parsed from [published] (or from [updated] when [published] is
    missing or empty), which lies within the years 1 to 9999, and an image
    URL that is null or not empty. *)
Theorem scraped_item_is_well_formed dateutil fetch_page urljoin rss f n :
  In n (snd (scrape_rss dateutil fetch_page urljoin rss f)) ->
  exists e d,
    In e (entries f)
    /\ rss_url n = rss /\ title n = e_title e /\ link n = e_link e
    /\ parse_rss_date_to_dt dateutil (py_or (e_published e) (e_updated e)) = Some d
    /\ published n = Some (timestamp d)
    /\ (min_instant <= timestamp d <= max_instant)%Z
    /\ (forall u, image_url n = Some u -> u <> []).
Proof.
  rewrite scrape_rss_items. intros Hin.
  apply in_flat_map in Hin as [e [He Hn]]. unfold scrape_entry in Hn.
  destruct (parse_rss_date_to_dt dateutil _) as [d|] eqn:Ed; [|destruct Hn].
  unfold astimezone_utc in Hn.
  destruct (in_range min_instant max_instant (timestamp d)) eqn:Er; [|destruct Hn].
  destruct (extract_image fetch_page urljoin e) as [img|] eqn:Ei; [|destruct Hn].
  destruct Hn as [<-|[]]. exists e, d. cbn.
  unfold in_range in Er. apply andb_true_iff in Er as [H1 H2].
  apply Z.leb_le in H1. apply Z.leb_le in H2.
  repeat split; auto.
  intros u ->. exact (extract_image_truthy _ _ _ Ei).
Qed.

Lemma scraped_item_is_well_formed_witness :
  exists e d,
    In e [enclosure_entry]
    /\ rss_url (item (Some (py "https://example.org/a"))
                     (Some (py "https://example.org/enclosure.mp3"))
                     1764154860000000%Z) = feed_url
    /\ parse_rss_date_to_dt None (py_or (e_published e) (e_updated e)) = Some d.
Proof.
  destruct (@scraped_item_is_well_formed None (fun _ => None) (fun _ _ => None) feed_url
              {| f_title := None; f_image := None; entries := [enclosure_entry] |}
              (item (Some (py "https://example.org/a"))
                    (Some (py "https://example.org/enclosure.mp3"))
                    1764154860000000%Z))
    as (e & d & H1 & H2 & _ & _ & H5 & _).
  - left. reflexivity.
  - exists e, d. auto.
Defined.

(** X8. One entry cannot spoil the feed: the items of a feed are the items
    of its entries taken one by one, in document order, so there are at
    most as many items as entries and an entry that is skipped leaves the
    others as they are. An entry is skipped when [published] is present
    but cannot be parsed (then [updated] is not tried), and when the
    [IndexError] of an empty [media_thumbnail] is raised. *)
Theorem scrape_rss_contains_entry_failures dateutil fetch_page urljoin rss f :
  (forall es1 es2,
     snd (scrape_rss dateutil fetch_page urljoin rss (with_entries f (es1 ++ es2)))
     = snd (scrape_rss dateutil fetch_page urljoin rss (with_entries f es1))
       ++ snd (scrape_rss dateutil fetch_page urljoin rss (with_entries f es2)))
  /\ (forall es1 e es2,
        scrape_entry dateutil fetch_page urljoin rss e = None ->
        snd (scrape_rss dateutil fetch_page urljoin rss
               (with_entries f (es1 ++ e :: es2)))
        = snd (scrape_rss dateutil fetch_page urljoin rss
                 (with_entries f (es1 ++ es2))))
  /\ (List.length (snd (scrape_rss dateutil fetch_page urljoin rss f))
      <= List.length (entries f))%nat
  /\ (forall e p,
        e_published e = Some p -> p <> [] ->
        parse_rss_date_to_dt dateutil (Some p) = None ->
        scrape_entry dateutil fetch_page urljoin rss e = None)
  /\ (forall e d,
        parse_rss_date_to_dt dateutil (py_or (e_published e) (e_updated e)) = Some d ->
        no_url (media_content e) -> no_url (enclosures e) ->
        media_thumbnail e = Some [] ->
        scrape_entry dateutil fetch_page urljoin rss e = None).
Proof.
  assert (Happ : forall es1 es2,
             snd (scrape_rss dateutil fetch_page urljoin rss (with_entries f (es1 ++ es2)))
             = snd (scrape_rss dateutil fetch_page urljoin rss (with_entries f es1))
               ++ snd (scrape_rss dateutil fetch_page urljoin rss (with_entries f es2))).
  { intros es1 es2. rewrite !scrape_rss_items. cbn [entries with_entries].
    apply flat_map_app. }
  split; [exact Happ|]. split; [|split; [|split]].
  - intros es1 e es2 He.
    rewrite (Happ es1 (e :: es2)), (Happ es1 es2). f_equal.
    rewrite !scrape_rss_items. cbn [entries with_entries flat_map]. now rewrite He.
  - rewrite scrape_rss_items. induction (entries f) as [|e es IH]; [reflexivity|].
    cbn [flat_map]. rewrite length_app.
    destruct (scrape_entry dateutil fetch_page urljoin rss e); cbn [List.length]; lia.
  - intros e p Hp Hne Hparse. unfold scrape_entry, py_or. rewrite Hp.
    destruct p as [|c r]; [contradiction|]. cbn [truthy]. now rewrite Hparse.
  - intros e d Hd Hmc Henc Hth. unfold scrape_entry. rewrite Hd.
    destruct (astimezone_utc d); [|reflexivity].
    unfold extract_image. cbv zeta. rewrite !skip_list_strategy by assumption.
    now rewrite Hth.
Qed.

Lemma scrape_rss_contains_entry_failures_witness :
  snd (scrape_rss None (fun _ => None) (fun _ _ => None) feed_url
         (with_entries {| f_title := None; f_image := None; entries := [] |}
            ([enclosure_entry] ++ empty_thumbnail_entry :: [])))
  = snd (scrape_rss None (fun _ => None) (fun _ _ => None) feed_url
           (with_entries {| f_title := None; f_image := None; entries := [] |}
              ([enclosure_entry] ++ []))).
Proof.
  destruct (scrape_rss_contains_entry_failures None (fun _ => None) (fun _ _ => None)
              feed_url
              {| f_title := None; f_image := None; entries := [] |}) as (_ & H & _).
  apply H. reflexivity.
Defined.

(** ** The planner *)

Lemma later_comm (a b : option instant) : later a b = later b a.
Proof. destruct a, b; cbn; try reflexivity. now rewrite Z.max_comm. Qed.

Lemma latest_perm (ns ns' : list noticia) :
  Permutation ns ns' -> latest ns = latest ns'.
Proof.
  induction 1 as [|n l l' _ IH|a b l|l l' l'' _ IH1 _ IH2]; cbn [latest fold_right].
  - reflexivity.
  - fold (latest l) (latest l'). now rewrite IH.
  - fold (latest l). rewrite <- !later_assoc. f_equal. apply later_comm.
  - congruence.
Qed.

Lemma filter_perm {A : Type} (p : A -> bool) (l l' : list A) :
  Permutation l l' -> Permutation (filter p l) (filter p l').
Proof.
  induction 1 as [|x l l' _ IH|a b l|l l' l'' _ IH1 _ IH2]; cbn [filter].
  - constructor.
  - destruct (p x); [now constructor | assumption].
  - destruct (p a), (p b); try reflexivity. apply perm_swap.
  - now transitivity (filter p l').
Qed.

(** X9. Planning does not depend on the order of the fetched items: two
    orderings of the same items give the same [max_published], hence the
    same new watermark, and select the same items. *)
Theorem plan_is_order_independent (ns ns' : list noticia) (wm : option instant) :
  Permutation ns ns' ->
  fst (plan ns wm) = fst (plan ns' wm)
  /\ new_watermark wm (fst (plan ns wm)) = new_watermark wm (fst (plan ns' wm))
  /\ Permutation (snd (plan ns wm)) (snd (plan ns' wm)).
Proof.
  intros H. rewrite !plan_max, (latest_perm H). repeat split.
  destruct wm as [l|].
  - rewrite !plan_newer. now apply filter_perm.
  - rewrite !plan_first_run. now apply filter_perm.
Qed.

Lemma plan_is_order_independent_witness :
  fst (plan three_items (Some 15%Z)) = fst (plan (rev three_items) (Some 15%Z)).
Proof.
  apply (@plan_is_order_independent three_items (rev three_items) (Some 15%Z)).
  apply Permutation_rev.
Defined.

(** ** The executor *)

(** What one item does to the counters. *)
Lemma process_item_counters o news_id rss n w c :
  (inserted c <= inserted (snd (process_item o news_id rss (w, c) n)))%nat
  /\ (dup_skipped c <= dup_skipped (snd (process_item o news_id rss (w, c) n)))%nat
  /\ (failures c <= failures (snd (process_item o news_id rss (w, c) n)))%nat
  /\ (inserted (snd (process_item o news_id rss (w, c) n))
      + dup_skipped (snd (process_item o news_id rss (w, c) n))
      <= inserted c + dup_skipped c + 1)%nat
  /\ (total c + 1 <= total (snd (process_item o news_id rss (w, c) n)))%nat
  /\ (total (snd (process_item o news_id rss (w, c) n)) <= total c + 2)%nat.
Proof.
  unfold process_item, insert_step, create_and_upload_thumbnail, select_article,
    insert_article, total.
  repeat match goal with
         | |- context [match ?x with _ => _ end] => destruct x
         | |- context [if ?b then _ else _] => destruct b
         end; cbn; lia.
Qed.

Lemma attempt_insert_appends o row w c :
  news (fst (attempt_insert o row w c)) = news w
  /\ log (fst (attempt_insert o row w c)) = log w ++ [InsertArticle row]
  /\ ((article (fst (attempt_insert o row w c)) = article w
       /\ inserted (snd (attempt_insert o row w c)) = inserted c)
      \/ (article (fst (attempt_insert o row w c)) = article w ++ [row]
          /\ inserted (snd (attempt_insert o row w c)) = S (inserted c))).
Proof.
  unfold attempt_insert. destruct (insert_fate o (clock w)); cbn; auto.
Qed.

Lemma insert_step_appends o nid rss n th w c :
  news (fst (insert_step o nid rss n th (w, c))) = news w
  /\ (exists calls,
        log (fst (insert_step o nid rss n th (w, c))) = log w ++ calls
        /\ (List.length calls <= 2)%nat /\ Forall article_call calls)
  /\ ((article (fst (insert_step o nid rss n th (w, c))) = article w
       /\ inserted (snd (insert_step o nid rss n th (w, c))) = inserted c)
      \/ (article (fst (insert_step o nid rss n th (w, c)))
            = article w ++ [row_of nid rss n th]
          /\ inserted (snd (insert_step o nid rss n th (w, c))) = S (inserted c))).
Proof.
  destruct (truthy (link n)) eqn:Ht.
  - destruct (link n) as [[|x l]|] eqn:Hl; try discriminate.
    destruct (select_raises o (clock w)) eqn:Hs.
    + rewrite (insert_step_lookup_raises o nid rss n th w c Hl Hs). cbn.
      repeat split; auto. exists [SelectArticle (x :: l)].
      repeat split; [cbn; lia | repeat constructor].
    + destruct (filter (has_link (x :: l)) (article w)) eqn:Hf.
      * rewrite (insert_step_new o nid rss n th w c Hl Hs Hf).
        destruct (attempt_insert_appends o (row_of nid rss n th)
                    (tick (SelectArticle (x :: l)) w) c) as (H1 & H2 & H3).
        split; [exact H1|]. split; [|exact H3].
        exists [SelectArticle (x :: l); InsertArticle (row_of nid rss n th)].
        rewrite H2. cbn. rewrite <- app_assoc.
        repeat split; [lia | repeat constructor].
      * rewrite (insert_step_duplicate o nid rss n th w c Hl Hs);
          [|rewrite Hf; discriminate].
        cbn. repeat split; auto. exists [SelectArticle (x :: l)].
        repeat split; [cbn; lia | repeat constructor].
  - rewrite insert_step_no_link by assumption.
    destruct (attempt_insert_appends o (row_of nid rss n th) w c) as (H1 & H2 & H3).
    split; [exact H1|]. split; [|exact H3].
    exists [InsertArticle (row_of nid rss n th)]. rewrite H2.
    repeat split; [cbn; lia | repeat constructor].
Qed.

(** What one item does to the store and to the log. *)
Lemma process_item_appends o news_id rss n w c :
  news (fst (process_item o news_id rss (w, c) n)) = news w
  /\ (exists rest,
        log (fst (process_item o news_id rss (w, c) n))
        = log w ++ thumbnail_request news_id n ++ rest
        /\ (List.length rest <= 2)%nat /\ Forall article_call rest)
  /\ ((article (fst (process_item o news_id rss (w, c) n)) = article w
       /\ inserted (snd (process_item o news_id rss (w, c) n)) = inserted c)
      \/ exists nid th,
           news_id = Some nid
           /\ article (fst (process_item o news_id rss (w, c) n))
              = article w ++ [row_of nid rss n th]
           /\ inserted (snd (process_item o news_id rss (w, c) n)) = S (inserted c)).
Proof.
  assert (Hstep : forall nid th w0 c0 thumb,
             inserted c0 = inserted c ->
             news w0 = news w -> article w0 = article w -> log w0 = log w ++ thumb ->
             news (fst (insert_step o nid rss n th (w0, c0))) = news w
             /\ (exists rest,
                   log (fst (insert_step o nid rss n th (w0, c0)))
                   = log w ++ thumb ++ rest
                   /\ (List.length rest <= 2)%nat /\ Forall article_call rest)
             /\ ((article (fst (insert_step o nid rss n th (w0, c0))) = article w
                  /\ inserted (snd (insert_step o nid rss n th (w0, c0))) = inserted c)
                 \/ exists nid' th',
                      Some nid = Some nid'
                      /\ article (fst (insert_step o nid rss n th (w0, c0)))
                         = article w ++ [row_of nid' rss n th']
                      /\ inserted (snd (insert_step o nid rss n th (w0, c0)))
                         = S (inserted c))).
  { intros nid th w0 c0 thumb Hc0 Hn Ha Hl.
    destruct (insert_step_appends o nid rss n th w0 c0)
      as (H1 & (calls & H2 & H3 & H4) & H5).
    split; [congruence|]. split.
    - exists calls. rewrite H2, Hl, <- app_assoc. auto.
    - rewrite <- Hc0, <- Ha. destruct H5 as [H5|H5]; [now left|].
      right. exists nid, th. tauto. }
  unfold process_item, thumbnail_request. destruct news_id as [nid|].
  - destruct (image_url n) as [[|y u]|].
    + apply Hstep; auto. now rewrite app_nil_r.
    + unfold create_and_upload_thumbnail.
      destruct (thumbnail_of o (clock w) (y :: u)) as [th|]; now apply Hstep.
    + apply Hstep; auto. now rewrite app_nil_r.
  - cbn. repeat split; auto. exists []. rewrite app_nil_r. repeat split; auto.
Qed.

Lemma article_call_executor_call (c : call) : article_call c -> executor_call c.
Proof. now destruct c. Qed.

Lemma thumbnail_request_calls news_id n :
  (List.length (thumbnail_request news_id n) <= 1)%nat
  /\ Forall executor_call (thumbnail_request news_id n).
Proof.
  unfold thumbnail_request. destruct news_id; [|cbn; auto].
  destruct (image_url n) as [[|x u]|]; cbn; auto. split; [lia | repeat constructor].
Qed.

(** X10. Over a run of the executor no counter decreases; each item adds
    one to [inserted], to [dup_skipped] or to [failures], and at most one
    more to [failures]: the sum of the three grows by at least the number
    of items and at most twice that, and [inserted + dup_skipped] by at
    most the number of items. *)
Theorem executor_counter_bounds o news_id rss ns w c :
  (inserted c <= inserted (snd (execute o news_id rss ns (w, c))))%nat
  /\ (dup_skipped c <= dup_skipped (snd (execute o news_id rss ns (w, c))))%nat
  /\ (failures c <= failures (snd (execute o news_id rss ns (w, c))))%nat
  /\ (inserted (snd (execute o news_id rss ns (w, c)))
      + dup_skipped (snd (execute o news_id rss ns (w, c)))
      <= inserted c + dup_skipped c + List.length ns)%nat
  /\ (total c + List.length ns <= total (snd (execute o news_id rss ns (w, c))))%nat
  /\ (total (snd (execute o news_id rss ns (w, c))) <= total c + 2 * List.length ns)%nat.
Proof.
  revert w c. induction ns as [|n ns IH]; intros w c.
  - unfold execute. cbn [fold_left snd List.length]. lia.
  - rewrite execute_cons.
    pose proof (process_item_counters o news_id rss n w c) as H.
    destruct (process_item o news_id rss (w, c) n) as [w1 c1].
    specialize (IH w1 c1). cbn [snd List.length] in *. lia.
Qed.

(** The rows a run of the executor adds. *)
Lemma execute_appends o news_id rss ns w c :
  exists added,
    article (fst (execute o news_id rss ns (w, c))) = article w ++ added
    /\ inserted (snd (execute o news_id rss ns (w, c)))
       = (inserted c + List.length added)%nat
    /\ forall r, In r added ->
         exists nid n th, news_id = Some nid /\ In n ns /\ r = row_of nid rss n th.
Proof.
  revert w c. induction ns as [|n ns IH]; intros w c.
  - exists []. unfold execute. cbn. rewrite app_nil_r. repeat split; [lia | tauto].
  - rewrite execute_cons.
    destruct (process_item_appends o news_id rss n w c) as (_ & _ & H).
    destruct (process_item o news_id rss (w, c) n) as [w1 c1].
    destruct (IH w1 c1) as (added & Ha & Hi & Hr). cbn [fst snd] in H.
    destruct H as [[Hart Hins] | (nid & th & Hid & Hart & Hins)].
    + exists added. rewrite Ha, Hi, Hart, Hins. repeat split.
      intros r Hin. destruct (Hr r Hin) as (nid & n' & th & ? & ? & ?).
      exists nid, n', th. repeat split; auto. now right.
    + exists (row_of nid rss n th :: added).
      rewrite Ha, Hi, Hart, Hins, <- app_assoc. cbn [app List.length].
      repeat split; [lia|].
      intros r [<-|Hin].
      * exists nid, n, th. repeat split; auto. now left.
      * destruct (Hr r Hin) as (nid' & n' & th' & ? & ? & ?).
        exists nid', n', th'. repeat split; auto. now right.
Qed.

(** X11. The executor never touches the [news] table and only appends to
    [article]: the rows present before are still there, in place; the
    number of rows added is exactly the growth of [inserted]; and every
    added row is the row of one of the items, under the feed's id and URL. *)
Theorem executor_only_appends_articles o news_id rss ns w c :
  news (fst (execute o news_id rss ns (w, c))) = news w
  /\ exists added,
       article (fst (execute o news_id rss ns (w, c))) = article w ++ added
       /\ inserted (snd (execute o news_id rss ns (w, c)))
          = (inserted c + List.length added)%nat
       /\ forall r, In r added ->
            exists nid n th, news_id = Some nid /\ In n ns /\ r = row_of nid rss n th.
Proof.
  split; [apply execute_news | apply execute_appends].
Qed.

(** X12. The executor makes at most three calls per item, each a thumbnail
    request, a duplicate lookup or an article insert, and it keeps the log
    of earlier calls as it is. *)
Theorem executor_calls_are_bounded o news_id rss ns w c :
  exists calls,
    log (fst (execute o news_id rss ns (w, c))) = log w ++ calls
    /\ (List.length calls <= 3 * List.length ns)%nat
    /\ Forall executor_call calls.
Proof.
  revert w c. induction ns as [|n ns IH]; intros w c.
  - exists []. unfold execute. cbn. rewrite app_nil_r. repeat split; auto.
  - rewrite execute_cons.
    destruct (process_item_appends o news_id rss n w c) as (_ & (rest & Hl & Hn & Hk) & _).
    destruct (thumbnail_request_calls news_id n) as [Ht1 Ht2].
    destruct (process_item o news_id rss (w, c) n) as [w1 c1].
    destruct (IH w1 c1) as (calls' & Hl' & Hn' & Hk'). cbn [fst] in Hl.
    exists ((thumbnail_request news_id n ++ rest) ++ calls').
    rewrite Hl', Hl, <- !app_assoc. repeat split.
    + rewrite !length_app. cbn [List.length]. lia.
    + repeat (apply Forall_app; split); auto.
      eapply Forall_impl; [|exact Hk]. apply article_call_executor_call.
Qed.

(** X13. An item that has an image URL starts with the thumbnail request,
    whatever follows: the duplicate check comes after it, so an item that
    turns out to be a duplicate has cost a thumbnail all the same. Nothing
    but the duplicate check and the insert follows. *)
Theorem thumbnail_is_requested_first o nid rss n w c url :
  image_url n = Some url -> url <> [] ->
  exists rest,
    log (fst (process_item o (Some nid) rss (w, c) n))
    = log w ++ CreateThumbnail url :: rest
    /\ (List.length rest <= 2)%nat
    /\ Forall article_call rest.
Proof.
  intros Hi Hne.
  destruct (process_item_appends o (Some nid) rss n w c) as (_ & (rest & Hl & Hn & Hk) & _).
  exists rest. rewrite Hl. unfold thumbnail_request. rewrite Hi.
  destruct url as [|x u]; [contradiction|]. auto.
Qed.

Lemma thumbnail_is_requested_first_witness :
  log (fst (process_item reliable (Some 1%positive) feed_url
              (world_with_article, zero) imageful_item))
  = [CreateThumbnail (py "https://example.org/a.jpg");
     SelectArticle (py "https://example.org/a")].
Proof.
  destruct (@thumbnail_is_requested_first reliable 1%positive feed_url imageful_item
              world_with_article zero (py "https://example.org/a.jpg"))
    as (rest & Hl & _ & _).
  - reflexivity.
  - discriminate.
  - reflexivity.
Defined.

(** ** One feed, end to end *)

Lemma plan_after_latest (ns : list noticia) (wm : option instant) :
  plan ns (later wm (latest ns)) = (latest ns, []).
Proof.
  rewrite (surjective_pairing (plan ns (later wm (latest ns)))), plan_max. f_equal.
  destruct (later wm (latest ns)) as [w'|] eqn:Hw.
  - rewrite plan_newer. apply filter_none. intros n Hin.
    unfold published_after. destruct (published n) as [p|] eqn:Hp; [|reflexivity].
    destruct (latest_upper_bound ns n Hin Hp) as [m [Hm Hle]].
    rewrite Hm in Hw. rewrite Z.gtb_ltb. apply Z.ltb_ge.
    destruct wm as [l|]; simpl in Hw; injection Hw as <-; lia.
  - rewrite plan_first_run. apply filter_none. intros n Hin.
    destruct (published n) as [p|] eqn:Hp; [|reflexivity].
    destruct (latest_upper_bound ns n Hin Hp) as [m [Hm _]].
    rewrite Hm in Hw. destruct wm; discriminate.
Qed.

Lemma should_update_later (wm m : option instant) :
  should_update (later wm m) m = false.
Proof.
  destruct wm as [l|], m as [x|]; cbn; try reflexivity.
  - rewrite Z.gtb_ltb. apply Z.ltb_ge. lia.
  - rewrite Z.gtb_ltb. apply Z.ltb_ge. lia.
Qed.

(** What reading or creating the feed's row does to the store. *)
Lemma find_or_create_effect o rss name icon w :
  exists added calls,
    news (snd (find_or_create o rss name icon w)) = news w ++ added
    /\ article (snd (find_or_create o rss name icon w)) = article w
    /\ log (snd (find_or_create o rss name icon w)) = log w ++ SelectNews rss :: calls
    /\ (List.length added <= 1)%nat
    /\ Forall (fun r => n_rss_url r = rss /\ n_last_article r = None) added
    /\ (added <> [] -> filter (has_rss rss) (news w) = [])
    /\ (List.length calls <= 1)%nat
    /\ Forall (fun c => c = InsertNews rss name icon) calls.
Proof.
  unfold find_or_create, select_news, insert_news.
  destruct (select_raises o (clock w)).
  - exists [], []. cbn. rewrite app_nil_r. repeat split; auto. intros H; now contradiction H.
  - destruct (filter (has_rss rss) (news w)) as [|r rest] eqn:Hf; cbn [firstn].
    + rewrite clock_tick.
      destruct (insert_fate o (S (clock w))); cbn.
      * eexists [_], [_]. rewrite <- app_assoc. cbn. repeat split; auto.
      * exists [], [InsertNews rss name icon]. rewrite app_nil_r, <- app_assoc. cbn.
        repeat split; auto.
      * exists [], [InsertNews rss name icon]. rewrite app_nil_r, <- app_assoc. cbn.
        repeat split; auto.
    + exists [], []. cbn. rewrite app_nil_r. repeat split; auto.
      intros H; now contradiction H.
Qed.

(** What the watermark update does to the store. *)
Lemma update_watermark_effect o rss wm m w :
  article (update_watermark o rss wm m w) = article w
  /\ (news (update_watermark o rss wm m w) = news w
      \/ exists t, news (update_watermark o rss wm m w)
                   = map (set_last_article rss t) (news w))
  /\ exists calls,
       log (update_watermark o rss wm m w) = log w ++ calls
       /\ (List.length calls <= 1)%nat
       /\ Forall (fun c => exists t, c = UpdateNews rss t) calls.
Proof.
  unfold update_watermark. destruct m as [t|].
  - destruct (should_update wm (Some t)).
    + unfold update_news. destruct (update_raises o (clock w)); cbn.
      * repeat split; auto. exists [UpdateNews rss t]. repeat split; auto.
        repeat constructor. now exists t.
      * repeat split; eauto. exists [UpdateNews rss t]. repeat split; auto.
        repeat constructor. now exists t.
    + repeat split; auto. exists []. rewrite app_nil_r. repeat split; auto.
  - repeat split; auto. exists []. rewrite app_nil_r. repeat split; auto.
Qed.

Lemma run_feed_counters o rss name icon ns w nid las w1 :
  find_or_create o rss name icon w = (nid, las, w1) ->
  snd (run_feed o rss name icon ns w)
  = snd (execute o nid rss (snd (plan ns (last_article_dt_of las))) (w1, zero)).
Proof.
  intros H. unfold run_feed. rewrite H.
  destruct (plan ns (last_article_dt_of las)) as [mp ti]. cbn [fst snd].
  destruct (execute o nid rss ti (w1, zero)) as [w2 c]. reflexivity.
Qed.

(** The articles a feed run adds, and what it reports. *)
Lemma run_feed_appends o rss name icon ns w :
  exists added,
    article (fst (run_feed o rss name icon ns w)) = article w ++ added
    /\ inserted (snd (run_feed o rss name icon ns w)) = List.length added
    /\ forall r, In r added ->
         exists nid n th, In n ns /\ r = row_of nid rss n th.
Proof.
  destruct (find_or_create o rss name icon w) as [[nid las] w1] eqn:Hfc.
  rewrite (run_feed_world o rss name icon ns w Hfc),
          (run_feed_counters o rss name icon ns w Hfc).
  destruct (find_or_create_effect o rss name icon w) as (_ & _ & _ & Hart & _).
  rewrite Hfc in Hart. cbn [snd] in Hart.
  destruct (update_watermark_effect o rss (last_article_dt_of las) (latest ns)
              (fst (execute o nid rss (snd (plan ns (last_article_dt_of las))) (w1, zero))))
    as (-> & _).
  destruct (execute_appends o nid rss (snd (plan ns (last_article_dt_of las))) w1 zero)
    as (added & Ha & Hi & Hr).
  exists added. rewrite Ha, Hi, Hart. repeat split.
  intros r Hin. destruct (Hr r Hin) as (nid' & n & th & _ & Hn & ->).
  exists nid', n, th. split; [|reflexivity].
  assert (Hsub : forall wm, incl (snd (plan ns wm)) ns).
  { intros [l|]; [rewrite plan_newer | rewrite plan_first_run]; apply incl_filter. }
  now apply (Hsub (last_article_dt_of las)).
Qed.

Lemma filter_other_feed rss rss' t rows :
  rss' <> rss ->
  filter (has_rss rss') (map (set_last_article rss t) rows) = filter (has_rss rss') rows.
Proof.
  intros Hne. induction rows as [|r rows IH]; [reflexivity|].
  cbn [map filter]. rewrite IH. unfold set_last_article.
  destruct (has_rss rss r) eqn:E; [|reflexivity].
  unfold has_rss in *. cbn [n_rss_url]. apply str_eqb_eq in E. rewrite E.
  rewrite (str_eqb_neq (a := rss) (b := rss')); [reflexivity | congruence].
Qed.

(** The rows of [news] after a feed run. *)
Lemma run_feed_news o rss name icon ns w :
  exists added,
    (List.length added <= 1)%nat
    /\ Forall (fun r => n_rss_url r = rss) added
    /\ (added <> [] -> filter (has_rss rss) (news w) = [])
    /\ (news (fst (run_feed o rss name icon ns w)) = news w ++ added
        \/ exists t, news (fst (run_feed o rss name icon ns w))
                     = map (set_last_article rss t) (news w ++ added)).
Proof.
  destruct (find_or_create o rss name icon w) as [[nid las] w1] eqn:Hfc.
  rewrite (run_feed_world o rss name icon ns w Hfc).
  destruct (find_or_create_effect o rss name icon w)
    as (added & calls & Hn & _ & _ & Hlen & Hall & Hnew & _).
  rewrite Hfc in Hn. cbn [snd] in Hn.
  exists added. split; [exact Hlen|]. split.
  { eapply Forall_impl; [|exact Hall]. cbn. tauto. }
  split; [exact Hnew|].
  destruct (update_watermark_effect o rss (last_article_dt_of las) (latest ns)
              (fst (execute o nid rss (snd (plan ns (last_article_dt_of las))) (w1, zero))))
    as (_ & [H|[t H]] & _); rewrite H, execute_news, Hn; eauto.
Qed.

Lemma map_identity_set_last_article rss t rows :
  map row_identity (map (set_last_article rss t) rows) = map row_identity rows.
Proof.
  rewrite map_map. apply map_ext. intros r. unfold set_last_article.
  now destruct (has_rss rss r).
Qed.

(** X14. A feed run leaves the other feeds alone: the [news] rows and the
    [article] rows of any other feed URL are what they were. *)
Theorem run_feed_leaves_other_feeds_alone o rss rss' name icon ns w :
  rss' <> rss ->
  rows_of rss' (fst (run_feed o rss name icon ns w)) = rows_of rss' w
  /\ articles_of rss' (fst (run_feed o rss name icon ns w)) = articles_of rss' w.
Proof.
  intros Hne. split.
  - unfold rows_of.
    destruct (run_feed_news o rss name icon ns w) as (added & _ & Hall & _ & H).
    assert (Hadd : filter (has_rss rss') added = []).
    { apply filter_none. intros r Hin. rewrite Forall_forall in Hall.
      unfold has_rss. rewrite (Hall r Hin). apply str_eqb_neq. congruence. }
    destruct H as [H|[t H]]; rewrite H.
    + now rewrite filter_app, Hadd, app_nil_r.
    + rewrite (filter_other_feed t (news w ++ added) Hne).
      now rewrite filter_app, Hadd, app_nil_r.
  - unfold articles_of.
    destruct (run_feed_appends o rss name icon ns w) as (added & -> & _ & Hr).
    rewrite filter_app. rewrite (filter_none _ added), app_nil_r; [reflexivity|].
    intros r Hin. destruct (Hr r Hin) as (nid & n & th & _ & ->).
    cbn [row_of a_rss_url]. apply str_eqb_neq. congruence.
Qed.

Lemma run_feed_leaves_other_feeds_alone_witness :
  rows_of other_feed_url
    (fst (run_feed reliable feed_url None None three_items two_feed_world))
  = rows_of other_feed_url two_feed_world.
Proof.
  apply (@run_feed_leaves_other_feeds_alone reliable feed_url other_feed_url None None
           three_items two_feed_world).
  vm_compute. discriminate.
Defined.

(** X15. A feed is registered at most once per run, and only when it has
    no row: the run adds at most one row to [news], under the feed's URL,
    none when the feed already has one, and it changes nothing of the
    existing rows but [last_article]. *)
Theorem feed_is_registered_at_most_once o rss name icon ns w :
  exists added,
    map row_identity (news (fst (run_feed o rss name icon ns w)))
    = map row_identity (news w) ++ map row_identity added
    /\ (List.length added <= 1)%nat
    /\ Forall (fun r => n_rss_url r = rss) added
    /\ (added = [] \/ rows_of rss w = []).
Proof.
  destruct (run_feed_news o rss name icon ns w) as (added & Hlen & Hall & Hnew & H).
  exists added. repeat split; auto.
  - destruct H as [H|[t H]]; rewrite H, ?map_identity_set_last_article; apply map_app.
  - destruct added as [|r rest]; [now left|]. right. apply Hnew. discriminate.
Qed.

(** The watermark a run leaves when the feed has a row and the store
    answers. *)
Lemma run_feed_watermark o rss name icon ns w :
  select_raises o (clock w) = false ->
  (forall t, update_raises o t = false) ->
  filter (has_rss rss) (news w) <> [] \/ insert_fate o (S (clock w)) = Works ->
  watermark_of rss (news (fst (run_feed o rss name icon ns w)))
  = later (watermark_of rss (news w)) (latest ns)
  /\ filter (has_rss rss) (news (fst (run_feed o rss name icon ns w))) <> [].
Proof.
  intros Hs Hall Hrow.
  assert (Hkeep : forall wm m w2, filter (has_rss rss) (news w2) <> [] ->
            filter (has_rss rss) (news (update_watermark o rss wm m w2)) <> []).
  { intros wm m w2 Hw2.
    destruct (update_watermark_effect o rss wm m w2) as (_ & [H|[t H]] & _); rewrite H.
    - exact Hw2.
    - rewrite filter_set_last_article. destruct (filter (has_rss rss) (news w2));
        [now contradiction Hw2 | discriminate]. }
  destruct (filter (has_rss rss) (news w)) as [|r rest] eqn:Hf.
  - destruct (find_or_create_missing o rss name icon w Hs Hf)
      as (nid & w1 & Hfc & Hw1 & Hrow').
    rewrite (run_feed_world o rss name icon ns w Hfc).
    assert (Hw : watermark_of rss (news w) = None)
      by (unfold watermark_of; now rewrite Hf).
    rewrite Hw. destruct Hrow as [Hc | Hworks]; [now contradiction Hc|].
    simpl last_article_dt_of.
    set (w2 := fst (execute o nid rss (snd (plan ns None)) (w1, zero))).
    assert (Hn : news w2 = news w1) by apply execute_news.
    split.
    + destruct (update_watermark_rows o rss (wm := None) (latest ns) w2) as [_ H].
      * now rewrite Hn.
      * apply H; [assumption|]. rewrite Hn. auto.
    + apply Hkeep. rewrite Hn. auto.
  - rewrite (run_feed_world o rss name icon ns w
               (find_or_create_found o rss name icon w Hs Hf)).
    assert (Hw : watermark_of rss (news w) = last_article_dt_of (n_last_article r))
      by (unfold watermark_of; now rewrite Hf).
    rewrite Hw.
    set (wm := last_article_dt_of (n_last_article r)) in *.
    set (w2 := fst (execute o (Some (n_id r)) rss (snd (plan ns wm))
                      (tick (SelectNews rss) w, zero))).
    assert (Hn : news w2 = news w)
      by (unfold w2; now rewrite execute_news).
    split.
    + destruct (update_watermark_rows o rss (wm := wm) (latest ns) w2) as [_ H2].
      * now rewrite Hn.
      * apply H2; [assumption|]. rewrite Hn, Hf. discriminate.
    + apply Hkeep. rewrite Hn, Hf. discriminate.
Qed.

(** X16. Running a feed again over the same items does nothing but look
    the feed up, when the store answers the lookups and applies the update
    and the feed has a row after the first run: no thumbnail, no duplicate
    check, no insert and no update, and every counter is zero. This holds
    whatever the inserts of the first run did: an item whose insert failed
    is not tried again. *)
Theorem second_run_is_idle o rss name icon name' icon' ns w :
  (forall t, select_raises o t = false) ->
  (forall t, update_raises o t = false) ->
  has_row rss w \/ insert_fate o (S (clock w)) = Works ->
  run_feed o rss name' icon' ns (fst (run_feed o rss name icon ns w))
  = (tick (SelectNews rss) (fst (run_feed o rss name icon ns w)), zero).
Proof.
  intros Hs Hu Hrow.
  destruct (run_feed_watermark o rss name icon ns w (Hs _) Hu Hrow) as [Hwm Hhas].
  set (w1 := fst (run_feed o rss name icon ns w)) in *.
  destruct (filter (has_rss rss) (news w1)) as [|r rest] eqn:Hf; [now contradiction Hhas|].
  unfold run_feed at 1.
  rewrite (find_or_create_found o rss name' icon' w1 (Hs _) Hf).
  assert (Hr : last_article_dt_of (n_last_article r)
               = later (watermark_of rss (news w)) (latest ns)).
  { rewrite <- Hwm. unfold watermark_of. now rewrite Hf. }
  rewrite Hr, plan_after_latest. unfold execute. cbn [fold_left].
  unfold update_watermark. rewrite should_update_later.
  now destruct (latest ns).
Qed.

Lemma second_run_is_idle_witness :
  snd (run_feed reliable feed_url None None three_items
         (fst (run_feed reliable feed_url None None three_items
                 (world_with_watermark 20%Z))))
  = zero.
Proof.
  rewrite (@second_run_is_idle reliable feed_url None None None None three_items
             (world_with_watermark 20%Z)).
  - reflexivity.
  - reflexivity.
  - reflexivity.
  - left. unfold has_row. vm_compute. discriminate.
Defined.

(** The articles the main loop adds, and what it reports. *)
Lemma main_loop_appends dp fp uj o parse feeds :
  forall w totals,
  exists added,
    article (fst (fold_left (process_feed dp fp uj o parse) feeds (w, totals)))
    = article w ++ added
    /\ inserted (snd (fold_left (process_feed dp fp uj o parse) feeds (w, totals)))
       = (inserted totals + List.length added)%nat
    /\ Forall (fun r => In (a_rss_url r) feeds) added.
Proof.
  induction feeds as [|rss feeds IH]; intros w totals.
  - exists []. cbn. rewrite app_nil_r. repeat split; auto.
  - cbn [fold_left].
    set (st := process_feed dp fp uj o parse (w, totals) rss).
    assert (Hst : exists added,
               article (fst st) = article w ++ added
               /\ inserted (snd st) = (inserted totals + List.length added)%nat
               /\ Forall (fun r => a_rss_url r = rss) added).
    { unfold st, process_feed.
      destruct (scrape_rss dp fp uj rss (parse rss)) as [jornal noticias].
      destruct (run_feed_appends o rss (j_name jornal) (j_icon_url jornal) noticias w)
        as (added & Ha & Hi & Hr).
      destruct (run_feed o rss (j_name jornal) (j_icon_url jornal) noticias w) as [w' c].
      cbn [fst snd] in *. exists added. cbn [add_counters inserted].
      rewrite Ha, Hi. repeat split.
      apply Forall_forall. intros r Hin.
      destruct (Hr r Hin) as (nid & n & th & _ & ->). reflexivity. }
    destruct Hst as (added & Ha & Hi & Hr). destruct st as [w' c']. cbn [fst snd] in *.
    destruct (IH w' c') as (added' & Ha' & Hi' & Hr').
    exists (added ++ added'). rewrite Ha', Hi', Ha, Hi, length_app, app_assoc.
    repeat split; [lia|].
    apply Forall_app. split.
    + eapply Forall_impl; [|exact Hr]. intros r Hin. now left.
    + eapply Forall_impl; [|exact Hr']. intros r Hin. now right.
Qed.

(** X17. Over the whole main loop the [article] table only grows, the
    total of [inserted] printed at the end is the number of rows added, and
    every added row carries the URL of one of the feeds. *)
Theorem reported_inserts_are_the_rows_added dp fp uj o parse feeds w :
  exists added,
    article (fst (main dp fp uj o parse feeds w)) = article w ++ added
    /\ inserted (snd (main dp fp uj o parse feeds w)) = List.length added
    /\ Forall (fun r => In (a_rss_url r) feeds) added.
Proof.
  unfold main. destruct (main_loop_appends dp fp uj o parse feeds w zero)
    as (added & Ha & Hi & Hr). exists added. auto.
Qed.

(** X18. On the first run of a feed (no watermark) everything [scrape_rss]
    returns is planned for insertion, in feed order, and the maximum is the
    latest date among the items: no scraped item lacks a date. *)
Theorem first_run_plans_everything_scraped dp fp uj rss f :
  plan (snd (scrape_rss dp fp uj rss f)) None
  = (latest (snd (scrape_rss dp fp uj rss f)), snd (scrape_rss dp fp uj rss f)).
Proof.
  rewrite (surjective_pairing (plan _ None)), plan_max, plan_first_run. f_equal.
  apply filter_all. intros n Hin.
  pose proof (scrape_rss_published dp fp uj rss f) as H.
  rewrite Forall_forall in H. specialize (H n Hin). now destruct (published n).
Qed.

(** ** Where the feed URLs come from *)

Lemma from_supabase_rows (rows : list (option str)) (u : str) :
  In u (get_rss_feeds_from_supabase (Ret (Some rows))) <-> In (Some u) rows /\ u <> [].
Proof.
  unfold get_rss_feeds_from_supabase. destruct rows as [|r rows]; [cbn; tauto|].
  rewrite in_flat_map. split.
  - intros (row & Hin & Hu). destruct row as [[|c v]|]; [destruct Hu| |destruct Hu].
    destruct Hu as [<-|[]]. split; [exact Hin | discriminate].
  - intros [Hin Hne]. exists (Some u). split; [exact Hin|].
    destruct u; [contradiction | now left].
Qed.

(** X19. [get_rss_feeds] never returns an empty list. The URLs read from
    the store are exactly the non-empty [rss_url] values of the rows, so
    none of them is empty; when there is one, the store's list is the
    result, whatever the configuration file holds; otherwise a non-empty
    configured list is the result as it stands; otherwise the result is the
    one default feed. *)
Theorem get_rss_feeds_is_never_empty resp config :
  get_rss_feeds resp config <> []
  /\ Forall (fun u => u <> []) (get_rss_feeds_from_supabase resp)
  /\ (forall rows u, In u (get_rss_feeds_from_supabase (Ret (Some rows)))
                     <-> In (Some u) rows /\ u <> [])
  /\ (get_rss_feeds resp config = get_rss_feeds_from_supabase resp
      \/ (get_rss_feeds_from_supabase resp = []
          /\ (get_rss_feeds resp config = get_rss_feeds_from_config config
              \/ (get_rss_feeds_from_config config = []
                  /\ get_rss_feeds resp config = [default_feed])))).
Proof.
  split; [|split; [|split]].
  - unfold get_rss_feeds.
    destruct (get_rss_feeds_from_supabase resp); [|intros H; discriminate H].
    destruct (get_rss_feeds_from_config config); cbn; intros H; discriminate H.
  - apply Forall_forall. intros u Hin. destruct resp as [[rows|]|]; try destruct Hin.
    now apply from_supabase_rows in Hin.
  - apply from_supabase_rows.
  - unfold get_rss_feeds. destruct (get_rss_feeds_from_supabase resp); [|now left].
    right. split; [reflexivity|].
    destruct (get_rss_feeds_from_config config); [now right | now left].
Qed.

(** ** Downloading, converting and storing an image *)

Ltac status_facts :=
  repeat match goal with
         | H : (_ =? _)%Z = true |- _ => apply Z.eqb_eq in H
         | H : (_ =? _)%Z = false |- _ => apply Z.eqb_neq in H
         | H : (_ && _)%bool = false |- _ => apply andb_false_iff in H
         | H : (_ <=? _)%Z = false |- _ => apply Z.leb_gt in H
         | H : (_ <? _)%Z = false |- _ => apply Z.ltb_ge in H
         end.

(** What the retry loop does, for every behaviour of the network. *)
Lemma download_trace e url referer log :
  exists n, (1 <= n <= 3)%nat
    /\ snd (ImageUtils.download e url referer 3 0 log) = log ++ backoff_trace url referer n
    /\ (forall r, fst (ImageUtils.download e url referer 3 0 log) = Some r ->
          ImageUtils.http_get e (List.length (log ++ backoff_trace url referer n) - 1) url
          = ImageUtils.Answer r
          /\ (ImageUtils.status_code r = 403%Z \/ ~ error_status (ImageUtils.status_code r)))
    /\ (fst (ImageUtils.download e url referer 3 0 log) = None ->
          n = 3%nat
          \/ ImageUtils.http_get e (List.length (log ++ backoff_trace url referer n) - 1) url
             = ImageUtils.OtherError).
Proof.
  unfold error_status.
  cbn [ImageUtils.download]. change (0 <? 2)%Z with true. change (0 + 1 <? 2)%Z with true.
  change (0 + 1 + 1 <? 2)%Z with false. cbv iota.
  change (1 * 2 ^ 0)%Z with 1%Z. change (1 * 2 ^ (0 + 1))%Z with 2%Z.
  set (G := ImageUtils.HttpGet url referer).
  assert (H1 : List.length (log ++ backoff_trace url referer 1) - 1 = List.length log)
    by (rewrite length_app; cbn; lia).
  assert (H2 : List.length (log ++ backoff_trace url referer 2) - 1
               = List.length ((log ++ [G]) ++ [ImageUtils.Sleep 1]))
    by (rewrite !length_app; cbn; lia).
  assert (H3 : List.length (log ++ backoff_trace url referer 3) - 1
               = List.length ((((log ++ [G]) ++ [ImageUtils.Sleep 1]) ++ [G])
                                ++ [ImageUtils.Sleep 2]))
    by (rewrite !length_app; cbn; lia).
  repeat match goal with
         | |- context [ImageUtils.http_get e (List.length ?l) url] =>
             destruct (ImageUtils.http_get e (List.length l) url) as [?r| |] eqn:?
         | |- context [if ?b then _ else _] => destruct b eqn:?
         end.
  all: first
    [ exists 1%nat; split; [lia|]; split; [cbn; rewrite <- ?app_assoc; reflexivity|]
    | exists 2%nat; split; [lia|]; split; [cbn; rewrite <- ?app_assoc; reflexivity|]
    | exists 3%nat; split; [lia|]; split; [cbn; rewrite <- ?app_assoc; reflexivity|] ].
  all: split;
    [ intros r' Hr; cbn in Hr; inversion Hr; subst;
      (split; [rewrite ?H1, ?H2, ?H3; assumption | status_facts; lia])
    | intros Hn; cbn in Hn; try discriminate;
      first [ left; reflexivity
            | right; rewrite ?H1, ?H2, ?H3; assumption ] ].
Qed.

(** X20. The download makes between one and three requests for the same
    URL, with a pause of one second after the first failure and of two
    after the second, and nothing else. A response it hands on is the
    answer to the last request and has status 403 or a status outside
    400..599; it gives up only after the third request or on an exception
    that is not a [RequestException]. *)
Theorem download_retries_with_backoff e url referer log :
  exists n, (1 <= n <= 3)%nat
    /\ snd (ImageUtils.download e url referer 3 0 log) = log ++ backoff_trace url referer n
    /\ (forall r, fst (ImageUtils.download e url referer 3 0 log) = Some r ->
          ImageUtils.http_get e (List.length (log ++ backoff_trace url referer n) - 1) url
          = ImageUtils.Answer r
          /\ (ImageUtils.status_code r = 403%Z \/ ~ error_status (ImageUtils.status_code r)))
    /\ (fst (ImageUtils.download e url referer 3 0 log) = None ->
          n = 3%nat
          \/ ImageUtils.http_get e (List.length (log ++ backoff_trace url referer n) - 1) url
             = ImageUtils.OtherError).
Proof. apply download_trace. Qed.

Lemma has_prefix_app (p s : str) : ImageUtils.has_prefix p (p ++ s) = true.
Proof.
  induction p as [|x p IH]; [reflexivity|]. cbn. now rewrite N.eqb_refl, IH.
Qed.

Lemma has_suffix_app (p s : str) : ImageUtils.has_suffix p (s ++ p) = true.
Proof. unfold ImageUtils.has_suffix. rewrite rev_app_distr. apply has_prefix_app. Qed.

(** X21. A URL that ends in [.svg], in any letter case, is given up at
    once: the result is [None] and nothing is requested or uploaded. *)
Theorem svg_url_is_skipped_without_a_request e folder quality max_width body ext log :
  lower ext = py ".svg" ->
  ImageUtils.fetch_convert_store e folder quality max_width (Some (body ++ ext)) log
  = (None, log).
Proof.
  intros Hext. unfold ImageUtils.fetch_convert_store.
  destruct (body ++ ext) as [|c u] eqn:E; [reflexivity|].
  rewrite <- E. unfold lower in *. rewrite map_app, Hext, has_suffix_app. reflexivity.
Qed.

Lemma svg_url_is_skipped_without_a_request_witness :
  ImageUtils.create_and_upload_thumbnail (plain_env 200 "image/png")
    (Some (py "https://example.org/logo.SVG")) 300 70 [] = (None, []).
Proof.
  apply (@svg_url_is_skipped_without_a_request (plain_env 200 "image/png")
           (py "thumbnails/") 70%Z (Some 300%Z) (py "https://example.org/logo") (py ".SVG") []).
  reflexivity.
Defined.

(** X22. A response whose content type mentions [svg] is dropped after the
    one request that fetched it: the result is [None] and nothing is
    uploaded. *)
Theorem svg_response_is_not_stored e folder quality max_width url origin r t log :
  url <> [] ->
  ImageUtils.has_suffix (py ".svg") (lower url) = false ->
  ImageUtils.origin_of e url = Ret origin ->
  ImageUtils.http_get e (List.length log) url = ImageUtils.Answer r ->
  ImageUtils.status_code r = 403%Z \/ ~ error_status (ImageUtils.status_code r) ->
  ImageUtils.content_type r = Some t ->
  ImageUtils.contains (py "svg") t = true ->
  ImageUtils.fetch_convert_store e folder quality max_width (Some url) log
  = (None, log ++ [ImageUtils.HttpGet url origin]).
Proof.
  intros Hne Hsuf Ho Hget Hst Hct Hsvg. unfold ImageUtils.fetch_convert_store.
  destruct url as [|c u]; [contradiction|]. rewrite Hsuf, Ho.
  assert (Hd : ImageUtils.download e (c :: u) origin 3 0 log
               = (Some r, log ++ [ImageUtils.HttpGet (c :: u) origin])).
  { cbn [ImageUtils.download]. rewrite Hget. unfold error_status in Hst.
    destruct (ImageUtils.status_code r =? 403)%Z eqn:E; [reflexivity|].
    apply Z.eqb_neq in E.
    destruct ((400 <=? ImageUtils.status_code r) && (ImageUtils.status_code r <? 600))%Z
      eqn:R; [|reflexivity].
    apply andb_true_iff in R as [R1 R2]. apply Z.leb_le in R1. apply Z.ltb_lt in R2. lia. }
  rewrite Hd, Hct, Hsvg. reflexivity.
Qed.

Lemma svg_response_is_not_stored_witness :
  ImageUtils.upload_image_to_supabase (plain_env 200 "image/svg+xml")
    (Some (py "https://example.org/logo")) []
  = (None, [ImageUtils.HttpGet (py "https://example.org/logo")
              (Some (py "https://example.org"))]).
Proof.
  apply (@svg_response_is_not_stored (plain_env 200 "image/svg+xml") (py "images/") 80%Z None
           (py "https://example.org/logo") (Some (py "https://example.org"))
           {| ImageUtils.status_code := 200; ImageUtils.content_type := Some (py "image/svg+xml");
              ImageUtils.content := [] |} (py "image/svg+xml") []).
  - discriminate.
  - reflexivity.
  - reflexivity.
  - reflexivity.
  - right. unfold error_status. cbn. lia.
  - reflexivity.
  - reflexivity.
Defined.

Lemma Forall_firstn {A : Type} (P : A -> Prop) (k : nat) (l : list A) :
  Forall P l -> Forall P (firstn k l).
Proof.
  intros H. revert k. induction H; intros [|k]; cbn; constructor; auto.
Qed.

Lemma backoff_trace_network url referer n : Forall network_effect (backoff_trace url referer n).
Proof.
  unfold backoff_trace. apply Forall_firstn. repeat constructor.
Qed.

Lemma convert_mode e m img a : ImageUtils.convert e m img = Some a -> ImageUtils.mode a = m.
Proof.
  unfold ImageUtils.convert. destruct (ImageUtils.convert_pixels e m img); [|discriminate].
  intros H. inversion H. reflexivity.
Qed.

Lemma to_rgb_or_rgba_mode e img a :
  ImageUtils.to_rgb_or_rgba e img = Some a ->
  ImageUtils.mode a = py "RGB" \/ ImageUtils.mode a = py "RGBA".
Proof.
  unfold ImageUtils.to_rgb_or_rgba.
  repeat match goal with |- context [if ?b then _ else _] => destruct b end;
    intros H; apply convert_mode in H; auto.
Qed.

Lemma resize_mode e mw a b :
  ImageUtils.resize e mw a = Some b -> ImageUtils.mode b = ImageUtils.mode a.
Proof.
  unfold ImageUtils.resize. destruct mw as [w|].
  - destruct (ImageUtils.thumbnail_pixels e w a); [|discriminate].
    intros H. inversion H. reflexivity.
  - intros H. inversion H. reflexivity.
Qed.

Lemma flatten_mode e b c :
  ImageUtils.mode b = py "RGB" \/ ImageUtils.mode b = py "RGBA" ->
  ImageUtils.flatten e b = Some c -> ImageUtils.mode c = py "RGB".
Proof.
  unfold ImageUtils.flatten. intros [Hm|Hm]; rewrite Hm.
  - change (str_eqb (py "RGB") (py "RGBA")) with false. intros H. inversion H. now subst.
  - change (str_eqb (py "RGBA") (py "RGBA")) with true.
    destruct (ImageUtils.paste_on_white e b); [|discriminate].
    intros H. inversion H. reflexivity.
Qed.

(** X23. Whatever the network, PIL and the bucket do, storing an image has
    this shape: requests and pauses first, then at most one upload, then at
    most one [get_public_url], for the uploaded name. What is uploaded is
    the JPEG encoding of an image in mode [RGB], under a name made of the
    folder, a UUID and [.jpg]. A URL is returned only after both the upload
    and [get_public_url]. *)
Theorem image_is_uploaded_once_as_rgb_jpeg e folder quality max_width img_url log :
  exists gets stores,
    snd (ImageUtils.fetch_convert_store e folder quality max_width img_url log)
    = log ++ gets ++ stores
    /\ Forall network_effect gets
    /\ ((stores = []
         /\ fst (ImageUtils.fetch_convert_store e folder quality max_width img_url log) = None)
        \/ exists id image buf,
             ImageUtils.mode image = py "RGB"
             /\ ImageUtils.save_jpeg e image quality = Some buf
             /\ ((stores = [ImageUtils.Upload (folder ++ id ++ py ".jpg") buf]
                  /\ fst (ImageUtils.fetch_convert_store e folder quality max_width img_url log)
                     = None)
                 \/ stores = [ImageUtils.Upload (folder ++ id ++ py ".jpg") buf;
                              ImageUtils.GetPublicUrl (folder ++ id ++ py ".jpg")])).
Proof.
  assert (Hnone : forall l gets, l = log ++ gets -> Forall network_effect gets ->
            exists gets0 stores,
              l = log ++ gets0 ++ stores
              /\ Forall network_effect gets0
              /\ ((stores = [] /\ @None str = None)
                  \/ exists (id : str) image buf,
                       ImageUtils.mode image = py "RGB"
                       /\ ImageUtils.save_jpeg e image quality = Some buf
                       /\ ((stores = [ImageUtils.Upload (folder ++ id ++ py ".jpg") buf]
                            /\ @None str = None)
                           \/ stores = [ImageUtils.Upload (folder ++ id ++ py ".jpg") buf;
                                        ImageUtils.GetPublicUrl (folder ++ id ++ py ".jpg")]))).
  { intros l gets -> Hg. exists gets, []. rewrite app_nil_r. auto. }
  assert (Hquiet : exists gets0 stores,
              log = log ++ gets0 ++ stores
              /\ Forall network_effect gets0
              /\ ((stores = [] /\ @None str = None)
                  \/ exists (id : str) image buf,
                       ImageUtils.mode image = py "RGB"
                       /\ ImageUtils.save_jpeg e image quality = Some buf
                       /\ ((stores = [ImageUtils.Upload (folder ++ id ++ py ".jpg") buf]
                            /\ @None str = None)
                           \/ stores = [ImageUtils.Upload (folder ++ id ++ py ".jpg") buf;
                                        ImageUtils.GetPublicUrl (folder ++ id ++ py ".jpg")]))).
  { apply (Hnone log []); [now rewrite app_nil_r | constructor]. }
  unfold ImageUtils.fetch_convert_store.
  destruct img_url as [[|c u]|]; cbn [fst snd]; try exact Hquiet.
  destruct (ImageUtils.has_suffix (py ".svg") (lower (c :: u))); cbn [fst snd];
    try exact Hquiet.
  destruct (ImageUtils.origin_of e (c :: u)) as [origin|]; cbn [fst snd];
    try exact Hquiet.
  destruct (download_trace e (c :: u) origin log) as (n & _ & Hl & _).
  pose proof (backoff_trace_network (c :: u) origin n) as Hg.
  specialize (Hnone _ _ eq_refl Hg).
  destruct (ImageUtils.download e (c :: u) origin 3 0 log) as [[r|] log1];
    cbn [fst snd] in *; subst log1; [|exact Hnone].
  destruct (ImageUtils.contains _ _); cbn [fst snd]; [exact Hnone|].
  destruct (ImageUtils.image_open e (ImageUtils.content r)) as [img|];
    cbn [fst snd]; [|exact Hnone].
  destruct (ImageUtils.to_rgb_or_rgba e img) as [a|] eqn:Ha; cbn [fst snd]; [|exact Hnone].
  destruct (ImageUtils.resize e max_width a) as [b|] eqn:Hb; cbn [fst snd]; [|exact Hnone].
  destruct (ImageUtils.flatten e b) as [image|] eqn:Hc; cbn [fst snd]; [|exact Hnone].
  destruct (ImageUtils.save_jpeg e image quality) as [buf|] eqn:Hs; cbn [fst snd];
    [|exact Hnone].
  assert (Hm : ImageUtils.mode image = py "RGB").
  { apply (flatten_mode e b); [|exact Hc]. rewrite (resize_mode e max_width a Hb).
    now apply (to_rgb_or_rgba_mode e img). }
  set (id := ImageUtils.uuid4 e _).
  exists (backoff_trace (c :: u) origin n).
  destruct (ImageUtils.upload_raises e _); cbn [fst snd].
  - eexists. split; [rewrite <- app_assoc; reflexivity|]. split; [exact Hg|].
    right. exists id, image, buf. auto.
  - eexists. split.
    + destruct (ImageUtils.public_url_of e _ _); cbn [snd];
        rewrite <- !app_assoc; reflexivity.
    + split; [exact Hg|]. right. exists id, image, buf. auto.
Qed.

(** ** Reprocessing a feed *)

Lemma with_datetime_keyed ns : Forall keyed (with_datetime ns).
Proof.
  apply Forall_forall. intros [p n] Hin. unfold with_datetime in Hin.
  apply in_flat_map in Hin as (m & _ & Hm).
  destruct (published m) as [q|] eqn:E; [|destruct Hm].
  destruct Hm as [Hm|[]]. inversion Hm; subst. exact E.
Qed.

Lemma with_datetime_items ns : map snd (with_datetime ns) = filter has_datetime ns.
Proof.
  unfold with_datetime, has_datetime.
  induction ns as [|n ns IH]; [reflexivity|].
  cbn [flat_map filter]. rewrite map_app, IH. now destruct (published n).
Qed.

Lemma insert_newest_first_perm x l : Permutation (x :: l) (insert_newest_first x l).
Proof.
  induction l as [|y l IH]; [reflexivity|]. cbn.
  destruct (fst y >? fst x)%Z; [|reflexivity].
  rewrite perm_swap. now constructor.
Qed.

Lemma sorted_newest_first_perm l : Permutation l (sorted_newest_first l).
Proof.
  induction l as [|x l IH]; [reflexivity|]. cbn.
  rewrite <- insert_newest_first_perm. now constructor.
Qed.

Lemma insert_newest_first_sorted x l :
  StronglySorted key_not_older l -> StronglySorted key_not_older (insert_newest_first x l).
Proof.
  induction 1 as [|y l Hs IH Hy]; cbn; [repeat constructor|].
  destruct (Z.gtb_spec (fst y) (fst x)).
  - constructor; [exact IH|].
    rewrite <- insert_newest_first_perm. constructor; [unfold key_not_older; lia | exact Hy].
  - constructor; [now constructor|].
    constructor; [unfold key_not_older; lia|].
    eapply Forall_impl; [|exact Hy]. unfold key_not_older. intros z Hz. lia.
Qed.

Lemma sorted_newest_first_sorted l : StronglySorted key_not_older (sorted_newest_first l).
Proof.
  induction l as [|x l IH]; [constructor|]. cbn. now apply insert_newest_first_sorted.
Qed.

Lemma slice_to_firstn {A : Type} (count : Z) (l : list A) :
  exists k, slice_to count l = firstn k l.
Proof. unfold slice_to. destruct (0 <=? count)%Z; eauto. Qed.

Lemma slice_to_length {A : Type} (count : Z) (l : list A) :
  List.length (slice_to count l)
  = if (0 <=? count)%Z then Nat.min (Z.to_nat count) (List.length l)
    else (List.length l - Z.to_nat (- count))%nat.
Proof.
  unfold slice_to. destruct (0 <=? count)%Z; rewrite length_firstn; lia.
Qed.

Lemma sorted_app_cross {A : Type} (R : A -> A -> Prop) (l1 l2 : list A) :
  StronglySorted R (l1 ++ l2) ->
  StronglySorted R l1 /\ Forall (fun a => Forall (R a) l2) l1.
Proof.
  induction l1 as [|x l1 IH]; cbn; intros H; [split; constructor|].
  inversion H as [|y l Hs Hx]; subst. destruct (IH Hs) as [H1 H2].
  apply Forall_app in Hx as [Hx1 Hx2]. split; constructor; auto.
Qed.

Lemma items_sorted (l : list (instant * noticia)) :
  Forall keyed l -> StronglySorted key_not_older l ->
  StronglySorted not_older (map snd l).
Proof.
  intros Hk Hs. induction Hs as [|x l Hs IH Hx]; cbn; [constructor|].
  inversion Hk as [|y l' Hkx Hkl]; subst. constructor; [now apply IH|].
  apply Forall_forall. intros n Hin. apply in_map_iff in Hin as (y & <- & Hy).
  rewrite Forall_forall in Hx, Hkl. specialize (Hx y Hy). specialize (Hkl y Hy).
  unfold not_older, keyed, key_not_older in *. rewrite Hkx, Hkl. exact Hx.
Qed.

(** The sorted items of a feed: a rearrangement of its dated items, newest
    first. *)
Lemma sorted_items ns :
  Permutation (filter has_datetime ns)
              (map snd (sorted_newest_first (with_datetime ns)))
  /\ StronglySorted not_older (map snd (sorted_newest_first (with_datetime ns))).
Proof.
  split.
  - rewrite <- with_datetime_items. apply Permutation_map, sorted_newest_first_perm.
  - apply items_sorted; [|apply sorted_newest_first_sorted].
    eapply Permutation_Forall; [apply sorted_newest_first_perm | apply with_datetime_keyed].
Qed.

(** X24. [reprocess_feed] takes the newest dated items of the feed: what
    it processes and what it leaves out are together the dated items, no
    item left out is newer than a processed one, the processed items come
    newest first, each has a date, and their number is the size of the
    slice [[:count]] of the dated items (all but the [-count] oldest for a
    negative [count]). *)
Theorem reprocess_takes_the_newest (count : Z) (ns : list noticia) :
  exists rest,
    Permutation (filter has_datetime ns) (to_process count ns ++ rest)
    /\ Forall (fun a => Forall (not_older a) rest) (to_process count ns)
    /\ StronglySorted not_older (to_process count ns)
    /\ Forall (fun n => has_datetime n = true) (to_process count ns)
    /\ List.length (to_process count ns)
       = if (0 <=? count)%Z
         then Nat.min (Z.to_nat count) (List.length (filter has_datetime ns))
         else (List.length (filter has_datetime ns) - Z.to_nat (- count))%nat.
Proof.
  destruct (sorted_items ns) as [Hp Hs]. unfold to_process.
  set (L := map snd (sorted_newest_first (with_datetime ns))) in *.
  assert (Hlen : List.length L = List.length (filter has_datetime ns))
    by (symmetry; now apply Permutation_length).
  rewrite slice_to_length, Hlen.
  destruct (slice_to_firstn count L) as [k ->].
  exists (skipn k L). rewrite firstn_skipn.
  rewrite <- (firstn_skipn k L) in Hs. apply sorted_app_cross in Hs as [Hs1 Hs2].
  repeat split; auto.
  apply Forall_forall. intros n Hin.
  assert (Hin' : In n (filter has_datetime ns)).
  { eapply Permutation_in; [symmetry; exact Hp|].
    rewrite <- (firstn_skipn k L). apply in_or_app. now left. }
  now apply filter_In in Hin'.
Qed.

Lemma reprocess_max_fold (l : list noticia) (acc : option instant) :
  fold_left reprocess_max_step l acc = later acc (latest l).
Proof.
  revert acc. induction l as [|n l IH]; intros acc; cbn [fold_left latest fold_right].
  - now rewrite later_none_r.
  - rewrite IH, <- later_assoc. f_equal. unfold reprocess_max_step.
    destruct acc as [m|], (published n) as [p|]; cbn; try reflexivity.
    destruct (Z.gtb_spec p m); f_equal; lia.
Qed.

Lemma latest_filter_dated ns : latest (filter has_datetime ns) = latest ns.
Proof.
  induction ns as [|n ns IH]; [reflexivity|].
  change (latest (n :: ns)) with (later (published n) (latest ns)).
  cbn [filter]. unfold has_datetime at 1.
  destruct (published n) as [p|] eqn:E; cbn [is_some].
  - change (latest (n :: filter has_datetime ns))
      with (later (published n) (latest (filter has_datetime ns))).
    now rewrite E, IH.
  - exact IH.
Qed.

Lemma latest_of_sorted (x : noticia) (l : list noticia) (p : instant) :
  published x = Some p -> Forall (not_older x) l -> latest (x :: l) = Some p.
Proof.
  intros E H. change (latest (x :: l)) with (later (published x) (latest l)). rewrite E.
  induction H as [|n l Hn Hl IH]; [reflexivity|].
  change (latest (n :: l)) with (later (published n) (latest l)).
  unfold not_older in Hn. rewrite E in Hn.
  destruct (published n) as [q|], (latest l) as [m|]; cbn in *;
    try (inversion IH); f_equal; lia.
Qed.

(** X25. The [max_published] that [reprocess_feed] computes is the latest
    date among the processed items, and, as soon as one item is processed,
    the latest date of the whole feed. *)
Theorem reprocess_watermark_is_the_newest_date (count : Z) (ns : list noticia) :
  reprocess_max (to_process count ns) = latest (to_process count ns)
  /\ (to_process count ns = [] \/ reprocess_max (to_process count ns) = latest ns).
Proof.
  unfold reprocess_max. rewrite reprocess_max_fold. cbn [later]. split; [reflexivity|].
  destruct (sorted_items ns) as [Hp Hs]. unfold to_process.
  set (L := map snd (sorted_newest_first (with_datetime ns))) in *.
  destruct (slice_to_firstn count L) as [k ->].
  destruct k as [|k]; [now left|]. destruct L as [|x L'] eqn:EL; [now left|]. right.
  rewrite <- (latest_filter_dated ns), (latest_perm Hp).
  assert (Hx : exists p, published x = Some p).
  { assert (Hin : In x (filter has_datetime ns))
      by (eapply Permutation_in; [symmetry; exact Hp | now left]).
    apply filter_In in Hin as [_ Hd]. unfold has_datetime in Hd.
    destruct (published x) as [p|]; [now exists p | discriminate]. }
  destruct Hx as [p Hx].
  inversion Hs as [|y l Hs' Hall]; subst.
  cbn [firstn].
  rewrite (latest_of_sorted Hx Hall).
  apply (latest_of_sorted Hx).
  apply Forall_forall. intros n Hin. rewrite Forall_forall in Hall. apply Hall.
  rewrite <- (firstn_skipn k L'). apply in_or_app. now left.
Qed.
